(** * HTML/CSS to Webflow converter: style resolution and class identity

    A shallow embedding of the converter's JavaScript sources
    (classNamingSystem, cssParser, htmlParser, webflowElementMapper and
    conversionManager) together with the properties the specification
    states about them.

    Conventions of the embedding.
    - A JavaScript string is a sequence of UTF-16 code units.  The
      embedding uses [string], whose characters are 8-bit: it covers the
      strings whose code units are below 256.  Every character class used
      by the sources ([\w], [\s], [.], the bracketed ranges) is given here
      by its members below 256.
    - A [Map] keyed by strings is a [gmap string _]; a plain object used as
      a dictionary is a [gmap string _] of its own properties, with the
      inherited members of [Object.prototype] written out where the source
      reads or writes through them.  The order of the entries is kept (as
      a list) only where the sources iterate and the order shows:
      [createdElements].
    - [null] and [undefined] are [None]; a thrown error is [None] where a
      function can throw.  Numbers that only count are [nat].
    - An object that is shared and changed in place lives in a store, by
      address: the created elements, and the objects of [ObjectStore].
    - The DOM built by cheerio and the syntax tree built by postcss are
      inputs: both libraries are outside the repository. *)

From Stdlib Require Import Ascii.
From stdpp Require Import gmap strings list fin_maps pretty sorting.

Local Open Scope char_scope.
Local Open Scope stdpp_scope.

(** ** JavaScript values the sources rely on *)

Module JS.

(** Truthiness of a string. *)
Definition truthy (s : string) : bool := negb (bool_decide (s = "")).

(** [x || null] for [x] a string or [undefined] *)
Definition or_null (x : option string) : option string :=
  match x with
  | Some s => if truthy s then Some s else None
  | None => None
  end.

(** The property names every plain object inherits from
    [Object.prototype]. *)
Definition prototype_members : list string :=
  [ "constructor"; "__proto__"; "hasOwnProperty"; "isPrototypeOf";
    "propertyIsEnumerable"; "toLocaleString"; "toString"; "valueOf";
    "__defineGetter__"; "__defineSetter__"; "__lookupGetter__";
    "__lookupSetter__" ].

Definition inherited (k : string) : bool :=
  bool_decide (k ∈ prototype_members).

(** Writing a string to property [k] of a plain object: ["__proto__"] is
    an accessor inherited from [Object.prototype] whose setter ignores a
    value that is neither an object nor [null], so no own property
    appears. *)
Definition object_set (k v : string) (o : gmap string string)
    : gmap string string :=
  if bool_decide (k = "__proto__") then o else <[k := v]> o.

End JS.

(** ** Characters, and the regular expressions of the sources *)

Module Regex.

Definition code (c : ascii) : N := N_of_ascii c.

Definition between (lo hi : N) (c : ascii) : bool :=
  ((lo <=? code c) && (code c <=? hi))%N.

Definition is_lower (c : ascii) : bool := between 97 122 c.
Definition is_upper (c : ascii) : bool := between 65 90 c.
Definition is_digit (c : ascii) : bool := between 48 57 c.
Definition is_char (k : ascii) (c : ascii) : bool := bool_decide (c = k).

(** [\w] *)
Definition re_w (c : ascii) : bool :=
  is_lower c || is_upper c || is_digit c || is_char "_" c.

(** [[\w-]] *)
Definition cls_w_dash (c : ascii) : bool := re_w c || is_char "-" c.

(** [[a-zA-Z0-9_-]] *)
Definition cls_ident (c : ascii) : bool :=
  is_lower c || is_upper c || is_digit c || is_char "_" c || is_char "-" c.

(** [[a-zA-Z_-]] *)
Definition cls_ident_start (c : ascii) : bool :=
  is_lower c || is_upper c || is_char "_" c || is_char "-" c.

(** [.] without the [s] flag: anything but a line terminator (LF and CR
    are the two below 256). *)
Definition re_dot (c : ascii) : bool :=
  negb (is_char "010" c || is_char "013" c).

(** [\s]: TAB, LF, VT, FF, CR, space and NBSP are the ones below 256. *)
Definition re_s (c : ascii) : bool :=
  between 9 13 c || is_char " " c || is_char "160" c.

(** The longest prefix of [s] whose characters all satisfy [p]: what a
    greedy [p+] or [p*] takes when nothing follows it in the pattern. *)
Fixpoint take_while (p : ascii → bool) (s : string) : string :=
  match s with
  | "" => ""
  | String c t => if p c then String c (take_while p t) else ""
  end.

Fixpoint drop (n : nat) (s : string) : string :=
  match n, s with
  | 0, _ => s
  | S k, "" => ""
  | S k, String _ t => drop k t
  end.
Global Arguments drop : simpl never.

Fixpoint all_chars (p : ascii → bool) (s : string) : bool :=
  match s with
  | "" => true
  | String c t => p c && all_chars p t
  end.

(** A pattern tried at the start of the remaining input: the text it
    matches there, if it matches. *)
Definition matcher : Type := string → option string.

(** [k] followed by [p+] *)
Definition lead_then_run (k : ascii) (p : ascii → bool) : matcher := λ s,
  match s with
  | String c t =>
      if is_char k c then
        match take_while p t with
        | "" => None
        | run => Some (String c run)
        end
      else None
  | "" => None
  end.

(** [p+] *)
Definition run_of (p : ascii → bool) : matcher := λ s,
  match take_while p s with
  | "" => None
  | run => Some run
  end.

(** [A|B]: the leftmost alternative that matches wins. *)
Definition alt (a b : matcher) : matcher := λ s,
  match a s with
  | Some x => Some x
  | None => b s
  end.

(** The tail of [.+?\]] once the lazy [.+?] holds one character already:
    it stops at the first ["]"], and fails on a line terminator or at the
    end of the input. *)
Fixpoint lazy_until_bracket (s : string) : option string :=
  match s with
  | "" => None
  | String c t =>
      if is_char "]" c then Some (String c "")
      else if re_dot c then String c <$> lazy_until_bracket t
      else None
  end.

(** [/#[a-zA-Z0-9_-]+/] *)
Definition re_id : matcher := lead_then_run "#" cls_ident.

(** [/\.[a-zA-Z0-9_-]+/] *)
Definition re_dot_ident : matcher := lead_then_run "." cls_ident.

(** [/\[.+?\]/] *)
Definition re_attr : matcher := λ s,
  match s with
  | String o (String c t) =>
      if is_char "[" o && re_dot c
      then (λ x, String o (String c x)) <$> lazy_until_bracket t
      else None
  | _ => None
  end.

(** [/:[a-zA-Z0-9_-]+/] *)
Definition re_colon_ident : matcher := lead_then_run ":" cls_ident.

(** [/::[a-zA-Z0-9_-]+/] *)
Definition re_colon2_ident : matcher := λ s,
  match s with
  | String c t =>
      if is_char ":" c then String c <$> lead_then_run ":" cls_ident t
      else None
  | "" => None
  end.

(** [/\.[a-zA-Z0-9_-]+|\[.+?\]|:[a-zA-Z0-9_-]+/] *)
Definition re_class_attr_pseudo : matcher :=
  alt re_dot_ident (alt re_attr re_colon_ident).

(** [/[a-zA-Z0-9_-]+|::[a-zA-Z0-9_-]+/] *)
Definition re_element : matcher := alt (run_of cls_ident) re_colon2_ident.

(** [/\.([\w-]+)/]: the whole match; group 1 is the match without its
    first character. *)
Definition re_class_token : matcher := lead_then_run "." cls_w_dash.

(** A pass of a global ([g]) pattern over a string.  The engine tries the
    pattern at [lastIndex]; on a match it records it and moves [lastIndex]
    to the end of the match (one further if the match is empty), otherwise
    it retries one character on.  [skip] is the number of characters left
    before [lastIndex].  The result lists the input cut into the
    characters that no match covers and the matches, in order. *)
Inductive piece : Type :=
  | Lit (c : ascii)
  | Hit (matched : string).

Fixpoint scan (m : matcher) (skip : nat) (s : string) : list piece :=
  match s with
  | "" => []
  | String c t =>
      match skip with
      | S k => scan m k t
      | 0 =>
          match m s with
          | Some x => Hit x :: scan m (String.length x - 1) t
          | None => Lit c :: scan m 0 t
          end
      end
  end.

Definition hits (ps : list piece) : list string :=
  omap (λ p, match p with Hit x => Some x | Lit _ => None end) ps.

(** [(s.match(re) || []).length] for a global [re] *)
Definition match_count (m : matcher) (s : string) : nat :=
  length (hits (scan m 0 s)).

End Regex.

(** ** String methods the sources call *)

Module Text.
Import Regex.

(** [s.split(k)] for a separator [k] of one character *)
Fixpoint split_on (k : ascii) (s : string) : list string :=
  match s with
  | "" => [""]
  | String c t =>
      if is_char k c then "" :: split_on k t
      else
        match split_on k t with
        | x :: xs => String c x :: xs
        | [] => [String c ""]
        end
  end.

Fixpoint drop_while (p : ascii → bool) (s : string) : string :=
  match s with
  | "" => ""
  | String c t => if p c then drop_while p t else s
  end.

(** [s] without the white space it ends with *)
Fixpoint trim_end (s : string) : string :=
  match s with
  | "" => ""
  | String c t =>
      match trim_end t with
      | "" => if re_s c then "" else String c ""
      | t' => String c t'
      end
  end.

(** [s.trim()]: the white space it strips is that of [\s]. *)
Definition trim (s : string) : string := trim_end (drop_while re_s s).

End Text.

(** ** classNamingSystem.js *)

Module ClassNamingSystem.
Import JS Regex.

(** The fields of a [ClassNamingSystem] instance. *)
Record t : Type := mk {
  prefix : string;
  classMap : gmap string string;    (* original name to generated name *)
  reverseMap : gmap string string;  (* generated name to original name *)
  counter : nat
}.

(** [new ClassNamingSystem(prefix)] *)
Definition constructor (prefix : string) : t := mk prefix ∅ ∅ 0.

Definition default_prefix : string := "html2wf-".

(** [/^[a-zA-Z_-][a-zA-Z0-9_-]*$/.test(s)] *)
Definition re_valid_name (s : string) : bool :=
  match s with
  | "" => false
  | String c t => cls_ident_start c && all_chars cls_ident t
  end.

(** The uniqueness loop of [generateClassName]:
    [while (reverseMap.has(uniqueName)) { suffix++; uniqueName = ... }].
    Each turn finds one more key of [reverseMap], and the names tried are
    pairwise different, so the loop takes at most [size reverseMap] turns:
    that is the fuel [generateClassName] gives it (see
    [unique_loop_first_free]). *)
Fixpoint unique_loop (reverseMap : gmap string string)
    (generatedName uniqueName : string) (suffix fuel : nat) : string :=
  match reverseMap !! uniqueName with
  | None => uniqueName
  | Some _ =>
      match fuel with
      | 0 => uniqueName
      | S fuel' =>
          unique_loop reverseMap generatedName
            (generatedName +:+ "-" +:+ pretty (S suffix)) (S suffix) fuel'
      end
  end.

Definition generateClassName (this : t) (originalClassName : string)
    : t * string :=
  match classMap this !! originalClassName with
  | Some existing => (this, existing)
  | None =>
      let generatedName :=
        if truthy originalClassName && re_valid_name originalClassName
        then prefix this +:+ originalClassName
        else prefix this +:+ "class-" +:+ pretty (counter this) in
      let uniqueName :=
        unique_loop (reverseMap this) generatedName generatedName 0
          (size (reverseMap this)) in
      (mk (prefix this)
          (<[originalClassName := uniqueName]> (classMap this))
          (<[uniqueName := originalClassName]> (reverseMap this))
          (S (counter this)),
       uniqueName)
  end.

(** [originalClassNames.map(className => this.generateClassName(className))] *)
Fixpoint generateClassNames (this : t) (originalClassNames : list string)
    : t * list string :=
  match originalClassNames with
  | [] => (this, [])
  | n :: ns =>
      let '(this1, g) := generateClassName this n in
      let '(this2, gs) := generateClassNames this1 ns in
      (this2, g :: gs)
  end.

Definition getGeneratedClassName (this : t) (originalClassName : string)
    : option string :=
  or_null (classMap this !! originalClassName).

Definition getOriginalClassName (this : t) (generatedClassName : string)
    : option string :=
  or_null (reverseMap this !! generatedClassName).

Definition hasGeneratedClassName (this : t) (originalClassName : string)
    : bool :=
  bool_decide (is_Some (classMap this !! originalClassName)).

(** The replacer of [transformSelector], called with the match and its
    group 1. *)
Definition replacer (this : t) (matched className : string) : t * string :=
  let this1 :=
    if hasGeneratedClassName this className then this
    else fst (generateClassName this className) in
  match getGeneratedClassName this1 className with
  | Some generatedName => (this1, "." +:+ generatedName)
  | None => (this1, matched)
  end.

(** [String.prototype.replace] with a global pattern and a function: the
    matches are found on the input first, then the function is called on
    each in order and the results are spliced in. *)
Fixpoint replace_pieces (this : t) (ps : list piece) : t * string :=
  match ps with
  | [] => (this, "")
  | Lit c :: ps' =>
      let '(this1, out) := replace_pieces this ps' in
      (this1, String c out)
  | Hit x :: ps' =>
      let '(this1, new) := replacer this x (drop 1 x) in
      let '(this2, out) := replace_pieces this1 ps' in
      (this2, new +:+ out)
  end.

Definition transformSelector (this : t) (selector : string) : t * string :=
  replace_pieces this (scan re_class_token 0 selector).

(** The own properties of the object [getAllClassMappings] builds. *)
Definition getAllClassMappings (this : t) : gmap string string :=
  map_fold object_set ∅ (classMap this).

Definition reset (this : t) : t := mk (prefix this) ∅ ∅ 0.

End ClassNamingSystem.

(** ** Objects and references

    What [getAllClassMappings] returns is an object of its own, and the
    instance holds its two maps by reference: a store of objects by address
    states who shares what. *)

Module ObjectStore.
Import JS.

Inductive object : Type :=
  | MapObject (entries : gmap string string)
  | PlainObject (own : gmap string string)
  | NamingSystem (prefix : string) (classMap reverseMap : positive)
                 (counter : nat).

(** [{}], [new Map()] and [new ClassNamingSystem()] take an address that
    is not in use. *)
Definition alloc (o : object) (σ : gmap positive object)
    : gmap positive object * positive :=
  let l := fresh (dom σ) in (<[l := o]> σ, l).

(** The instance at address [this], read through its references. *)
Definition instance (this : positive) (σ : gmap positive object)
    : option ClassNamingSystem.t :=
  match σ !! this with
  | Some (NamingSystem prefix cm rm counter) =>
      match σ !! cm, σ !! rm with
      | Some (MapObject classMap), Some (MapObject reverseMap) =>
          Some (ClassNamingSystem.mk prefix classMap reverseMap counter)
      | _, _ => None
      end
  | _ => None
  end.

(** [getAllClassMappings] on the instance at [this]: a new object, filled
    from the entries of [this.classMap]. *)
Definition getAllClassMappings (this : positive) (σ : gmap positive object)
    : option (gmap positive object * positive) :=
  match instance this σ with
  | Some naming =>
      Some (alloc (PlainObject (ClassNamingSystem.getAllClassMappings naming)) σ)
  | None => None
  end.

(** The own properties of the plain object at [l]. *)
Definition own_properties (l : positive) (σ : gmap positive object)
    : option (gmap string string) :=
  match σ !! l with
  | Some (PlainObject own) => Some own
  | _ => None
  end.

End ObjectStore.

(** ** cssParser.js *)

Module CSSParser.
Import JS Regex Text.

(** The syntax tree postcss hands over.  A rule carries the text its
    [toString()] gives. *)
#[warnings="-register-all"] Inductive node : Type :=
  | Decl (prop value : string)
  | Rule (selector : string) (text : string) (nodes : list node)
  | AtRule (name params : string) (nodes : list node)
  | Comment (text : string).

(** What a callback can see of [node.parent]. *)
Inductive parent : Type :=
  | ParentRoot
  | ParentRule
  | ParentAtRule (name : string).

(** [container.walk]: every descendant, parents before children, in
    document order, each with its parent. *)
Fixpoint walk_node (p : parent) (n : node) : list (parent * node) :=
  (p, n) ::
  match n with
  | Rule _ _ ns =>
      (fix walk_list (l : list node) : list (parent * node) :=
         match l with
         | [] => []
         | x :: l' => walk_node ParentRule x ++ walk_list l'
         end) ns
  | AtRule name _ ns =>
      (fix walk_list (l : list node) : list (parent * node) :=
         match l with
         | [] => []
         | x :: l' => walk_node (ParentAtRule name) x ++ walk_list l'
         end) ns
  | Decl _ _ | Comment _ => []
  end.

Definition walk (p : parent) (ns : list node) : list (parent * node) :=
  flat_map (walk_node p) ns.

(** A processed rule.  [originalSelector] is absent until
    [processCssClasses] adds it. *)
Record rule : Type := mkRule {
  selector : string;
  specificity : nat;
  properties : gmap string string;
  originalRule : string;
  originalSelector : option string
}.

Record mediaQuery : Type := mkMediaQuery {
  query : string;
  rules : list rule
}.

Record parsed : Type := mkParsed {
  styleRules : list rule;
  mediaQueries : list mediaQuery
}.

Definition calculateSpecificity (selector : string) : nat :=
  let specificity := 0 in
  let idCount := match_count re_id selector in
  let specificity := specificity + idCount * 100 in
  let classCount := match_count re_class_attr_pseudo selector in
  let specificity := specificity + classCount * 10 in
  let elementCount := match_count re_element selector in
  specificity + elementCount.

(** [rule.walkDecls(decl => { properties[decl.prop] = decl.value })] *)
Definition collect_decls (ns : list node) : gmap string string :=
  foldl (λ props pn,
           match pn.2 with
           | Decl prop value => object_set prop value props
           | _ => props
           end)
        ∅ (walk ParentRule ns).

(** [processRule] without its push onto [this.styleRules], which [parse]
    does for the rules that are not [forMediaQuery]. *)
Definition processRule (selector text : string) (ns : list node) : rule :=
  mkRule selector (calculateSpecificity selector) (collect_decls ns) text None.

Definition inside_media (p : parent) : bool :=
  match p with
  | ParentAtRule name => bool_decide (name = "media")
  | _ => false
  end.

(** The first pass of [parse]: [root.walkRules] with the rules whose
    parent is an [@media] at-rule skipped. *)
Definition top_level_rules (root : list node) : list rule :=
  omap (λ pn,
          match pn.2 with
          | Rule sel text ns =>
              if inside_media pn.1 then None
              else Some (processRule sel text ns)
          | _ => None
          end)
       (walk ParentRoot root).

(** [atRule.walkRules(rule => mediaQuery.rules.push(processRule(rule, true)))] *)
Definition media_rules (name : string) (ns : list node) : list rule :=
  omap (λ pn,
          match pn.2 with
          | Rule sel text ns' => Some (processRule sel text ns')
          | _ => None
          end)
       (walk (ParentAtRule name) ns).

(** The second pass: [root.walkAtRules('media', ...)]. *)
Definition media_groups (root : list node) : list mediaQuery :=
  omap (λ pn,
          match pn.2 with
          | AtRule name params ns =>
              if bool_decide (name = "media")
              then Some (mkMediaQuery params (media_rules name ns))
              else None
          | _ => None
          end)
       (walk ParentRoot root).

(** [parse], from the root's children on. *)
Definition parse (root : list node) : parsed :=
  mkParsed (top_level_rules root) (media_groups root).

(** [rule.selector.split(',').map(s => s.trim())] *)
Definition selector_list (selector : string) : list string :=
  trim <$> split_on "," selector.

(** [findMatchingRules], on [this.styleRules] *)
Definition findMatchingRules (styleRules : list rule) (elementSelector : string)
    : list rule :=
  filter (λ r, elementSelector ∈ selector_list (selector r)) styleRules.

Definition propertyMap : gmap string string :=
  list_to_map
    [ ("font-family", "fontFamily"); ("font-size", "fontSize");
      ("font-weight", "fontWeight"); ("line-height", "lineHeight");
      ("letter-spacing", "letterSpacing"); ("text-align", "textAlign");
      ("text-decoration", "textDecoration");
      ("text-transform", "textTransform");
      ("color", "color"); ("background-color", "backgroundColor");
      ("border-color", "borderColor");
      ("display", "display"); ("position", "position"); ("top", "top");
      ("right", "right"); ("bottom", "bottom"); ("left", "left");
      ("z-index", "zIndex"); ("float", "float"); ("clear", "clear");
      ("width", "width"); ("height", "height"); ("max-width", "maxWidth");
      ("max-height", "maxHeight"); ("min-width", "minWidth");
      ("min-height", "minHeight");
      ("margin", "margin"); ("margin-top", "marginTop");
      ("margin-right", "marginRight"); ("margin-bottom", "marginBottom");
      ("margin-left", "marginLeft"); ("padding", "padding");
      ("padding-top", "paddingTop"); ("padding-right", "paddingRight");
      ("padding-bottom", "paddingBottom"); ("padding-left", "paddingLeft");
      ("border", "border"); ("border-top", "borderTop");
      ("border-right", "borderRight"); ("border-bottom", "borderBottom");
      ("border-left", "borderLeft"); ("border-width", "borderWidth");
      ("border-style", "borderStyle"); ("border-radius", "borderRadius");
      ("background", "background"); ("background-image", "backgroundImage");
      ("background-size", "backgroundSize");
      ("background-position", "backgroundPosition");
      ("background-repeat", "backgroundRepeat");
      ("flex", "flex"); ("flex-direction", "flexDirection");
      ("flex-wrap", "flexWrap"); ("justify-content", "justifyContent");
      ("align-items", "alignItems"); ("align-content", "alignContent");
      ("align-self", "alignSelf"); ("flex-grow", "flexGrow");
      ("flex-shrink", "flexShrink"); ("flex-basis", "flexBasis");
      ("order", "order");
      ("grid-template-columns", "gridTemplateColumns");
      ("grid-template-rows", "gridTemplateRows");
      ("grid-column-gap", "gridColumnGap"); ("grid-row-gap", "gridRowGap");
      ("grid-column", "gridColumn"); ("grid-row", "gridRow");
      ("opacity", "opacity"); ("box-shadow", "boxShadow");
      ("transition", "transition"); ("transform", "transform");
      ("cursor", "cursor"); ("overflow", "overflow");
      ("visibility", "visibility") ].

(** What [mapToWebflowProperty] returns: a property name, or the member
    of [Object.prototype] the lookup in [propertyMap] finds. *)
Inductive property_name : Type :=
  | PropertyName (name : string)
  | InheritedMember (key : string).

(** [propertyMap[cssProperty] || cssProperty] *)
Definition mapToWebflowProperty (cssProperty : string) : property_name :=
  match propertyMap !! cssProperty with
  | Some name => PropertyName name
  | None =>
      if inherited cssProperty then InheritedMember cssProperty
      else PropertyName cssProperty
  end.

End CSSParser.

(** ** htmlParser.js *)

Module HTMLParser.
Import JS Regex Text.

(** The tree cheerio hands over: elements with their attributes (the own
    properties of [attribs]) and child nodes, text nodes, and the other
    kinds of node. *)
#[warnings="-register-all"] Inductive dom : Type :=
  | Element (name : string) (attribs : gmap string string)
            (childNodes : list dom)
  | Text (data : string)
  | Other.

(** The value of [element.type]: one of the names of [tagMap], or what a
    lookup in [tagMap] finds on [Object.prototype]. *)
Inductive element_type : Type :=
  | Named (name : string)
  | ProtoMember (key : string).

#[warnings="-register-all"] Inductive ParsedElement : Type := mkParsedElement {
  id : string;
  tagName : string;
  type : element_type;
  classes : list string;
  children : list ParsedElement
}.

Definition tagMap : gmap string string :=
  list_to_map
    [ ("div", "div"); ("span", "text"); ("p", "paragraph");
      ("h1", "heading"); ("h2", "heading"); ("h3", "heading");
      ("h4", "heading"); ("h5", "heading"); ("h6", "heading");
      ("a", "link"); ("img", "image"); ("ul", "list"); ("ol", "list");
      ("li", "listItem"); ("button", "button"); ("form", "form");
      ("input", "input"); ("textarea", "textarea"); ("select", "select");
      ("option", "option"); ("video", "video"); ("audio", "audio");
      ("iframe", "embed"); ("section", "section"); ("article", "div");
      ("aside", "div"); ("footer", "footer"); ("header", "header");
      ("nav", "nav"); ("main", "div"); ("figure", "div");
      ("figcaption", "div"); ("blockquote", "blockquote");
      ("hr", "divider"); ("br", "lineBreak"); ("table", "table");
      ("tr", "tableRow"); ("td", "tableCell"); ("th", "tableCell");
      ("thead", "tableHead"); ("tbody", "tableBody");
      ("tfoot", "tableFoot") ].

(** [toLowerCase] on one code unit below 256: A-Z, and the capital
    letters of Latin-1 (U+00C0 to U+00DE but for the multiplication
    sign). *)
Definition lower_char (c : ascii) : ascii :=
  if is_upper c || (between 192 222 c && negb (is_char "215" c))
  then ascii_of_N (code c + 32)
  else c.

Fixpoint toLowerCase (s : string) : string :=
  match s with
  | "" => ""
  | String c t => String (lower_char c) (toLowerCase t)
  end.

Definition mapElementType (tagName : string) : element_type :=
  if negb (truthy tagName) then Named "div"
  else
    let key := toLowerCase tagName in
    match tagMap !! key with
    | Some ty => Named ty
    | None => if inherited key then ProtoMember key else Named "div"
    end.

(** The texts between the matches of a pattern, from the pieces of a
    pass: [String.prototype.split] with a pattern that matches no empty
    text. *)
Fixpoint split_pieces (ps : list piece) : list string :=
  match ps with
  | [] => [""]
  | Lit c :: ps' =>
      match split_pieces ps' with
      | x :: xs => String c x :: xs
      | [] => [String c ""]
      end
  | Hit _ :: ps' => "" :: split_pieces ps'
  end.

(** [s.split(/\s+/)] *)
Definition split_whitespace (s : string) : list string :=
  split_pieces (scan (run_of re_s) 0 s).

(** [$element.attr('class') ? $element.attr('class').split(/\s+/).filter(Boolean) : []] *)
Definition parse_classes (attribs : gmap string string) : list string :=
  match attribs !! "class" with
  | Some cls =>
      if truthy cls then filter (λ x, truthy x) (split_whitespace cls)
      else []
  | None => []
  end.

Definition element_id (idCounter : nat) : string := "el-" +:+ pretty idCounter.

(** [parseElement], threading [this.idCounter]; a node that is not an
    element stands for no element, and [$element.children()] keeps the
    element children only.  The attributes,
    the inline styles and the text content of the element, which neither
    class naming nor style resolution reads, are left out, and so is
    [this.elementMap]. *)
Fixpoint parseElement (idCounter : nat) (element : dom)
    : nat * option ParsedElement :=
  match element with
  | Element name attribs childNodes =>
      let elementId := element_id idCounter in
      let '(idCounter', kids) :=
        (fix parse_children (n : nat) (l : list dom)
           : nat * list ParsedElement :=
           match l with
           | [] => (n, [])
           | Element _ _ _ as child :: l' =>
               let '(n1, parsedChild) := parseElement n child in
               let '(n2, rest) := parse_children n1 l' in
               (n2, match parsedChild with
                    | Some pc => pc :: rest
                    | None => rest
                    end)
           | _ :: l' => parse_children n l'
           end) (S idCounter) childNodes in
      (idCounter',
       Some (mkParsedElement elementId name (mapElementType name)
               (parse_classes attribs) kids))
  | Text _ | Other => (idCounter, None)
  end.

(** [parse], from the body element cheerio selects. *)
Definition parse (body : dom) : option ParsedElement :=
  (parseElement 0 body).2.

(** [parseAttributes]: the own properties of the object it builds. *)
Definition parseAttributes (attribs : gmap string string) : gmap string string :=
  map_fold (λ key value attributes,
              if bool_decide (key ≠ "class") && bool_decide (key ≠ "style")
              then object_set key value attributes
              else attributes)
           ∅ attribs.

(** [/-([a-z])/]: the whole match. *)
Definition re_dash_lower : matcher := λ s,
  match s with
  | String d (String c _) =>
      if is_char "-" d && is_lower c then Some (String d (String c "")) else None
  | _ => None
  end.

(** [letter.toUpperCase()] for a letter from [a] to [z] *)
Definition capital (c : ascii) : ascii :=
  if is_lower c then ascii_of_N (code c - 32) else c.

(** [property.replace(/-([a-z])/g, (_, letter) => letter.toUpperCase())] *)
Fixpoint camel_pieces (ps : list piece) : string :=
  match ps with
  | [] => ""
  | Lit c :: ps' => String c (camel_pieces ps')
  | Hit x :: ps' =>
      match drop 1 x with
      | String letter _ => String (capital letter) (camel_pieces ps')
      | "" => x +:+ camel_pieces ps'
      end
  end.

Definition camelCase (property : string) : string :=
  camel_pieces (scan re_dash_lower 0 property).

(** The body of the loop of [parseInlineStyles] on one piece of the
    style attribute. *)
Definition add_inline_style (styles : gmap string string) (style : string)
    : gmap string string :=
  match trim <$> split_on ":" style with
  | property :: value :: _ =>
      if truthy property && truthy value
      then object_set (camelCase property) value styles
      else styles
  | _ => styles
  end.

(** [parseInlineStyles], from the attributes of the element: the own
    properties of the object it builds. *)
Definition parseInlineStyles (attribs : gmap string string) : gmap string string :=
  match attribs !! "style" with
  | Some styleAttr =>
      if truthy styleAttr
      then foldl add_inline_style ∅ (split_on ";" styleAttr)
      else ∅
  | None => ∅
  end.

End HTMLParser.

(** ** webflowElementMapper.js *)

Module WebflowElementMapper.
Import JS Regex HTMLParser.

(** A created element: the object [createRootElement] or
    [createChildElement] builds.  [preset] is [preset.id], [None] when it
    is [undefined]; [classes] is [None] until [applyClass] adds the array.
    The attributes and the content, which style resolution does not read,
    are left out. *)
Record WebflowElement : Type := mkWebflowElement {
  id : string;
  type : element_type;
  preset : option string;
  styles : gmap string string;
  children : list string;
  parent : option string;
  classes : option (list string)
}.

(** The objects created so far, by address (the position in the list),
    and [this.createdElements]: a [Map] in insertion order from the id of
    a parsed element to the object created for it. *)
Record mapper : Type := mkMapper {
  objects : list WebflowElement;
  createdElements : list (string * nat)
}.

(** [loadElementPresets]: element type to preset id. *)
Definition elementPresets : gmap string string :=
  list_to_map
    [ ("div", "preset-div"); ("text", "preset-text");
      ("paragraph", "preset-paragraph"); ("heading", "preset-heading");
      ("link", "preset-link"); ("image", "preset-image");
      ("list", "preset-list"); ("listItem", "preset-list-item");
      ("button", "preset-button"); ("form", "preset-form");
      ("input", "preset-input"); ("textarea", "preset-textarea");
      ("select", "preset-select"); ("option", "preset-option");
      ("video", "preset-video"); ("audio", "preset-audio");
      ("embed", "preset-embed"); ("section", "preset-section");
      ("footer", "preset-footer"); ("header", "preset-header");
      ("nav", "preset-nav"); ("blockquote", "preset-blockquote");
      ("divider", "preset-divider"); ("lineBreak", "preset-line-break");
      ("table", "preset-table"); ("tableRow", "preset-table-row");
      ("tableCell", "preset-table-cell"); ("tableHead", "preset-table-head");
      ("tableBody", "preset-table-body"); ("tableFoot", "preset-table-foot") ].

(** [const preset = this.elementPresets[elementType]] and the guard after
    it.  When the lookup finds nothing the guard assigns to the constant
    [preset], a [TypeError]: [None].  A member of [Object.prototype] is
    truthy and has no [id].  A type that is not a string is looked up by
    its string conversion, which names no preset. *)
Definition find_preset (elementType : element_type) : option (option string) :=
  match elementType with
  | Named ty =>
      match elementPresets !! ty with
      | Some presetId => Some (Some presetId)
      | None => if inherited ty then Some None else None
      end
  | ProtoMember _ => None
  end.

(** [Map.prototype.set] *)
Fixpoint map_set (k : string) (v : nat) (m : list (string * nat))
    : list (string * nat) :=
  match m with
  | [] => [(k, v)]
  | (k', v') :: m' =>
      if bool_decide (k' = k) then (k, v) :: m' else (k', v') :: map_set k v m'
  end.

(** [parentElement.children.push(element.id)] *)
Definition push_child (parentRef : nat) (childId : string)
    (os : list WebflowElement) : list WebflowElement :=
  alter (λ e, mkWebflowElement (id e) (type e) (preset e) (styles e)
                (children e ++ [childId]) (parent e) (classes e))
        parentRef os.

(** [mapElement]; [None] is a thrown error.  The result carries the
    address of the created element. *)
Fixpoint mapElement (parsedElement : ParsedElement) (parentElement : option nat)
    (this : mapper) : option (mapper * nat) :=
  match find_preset (HTMLParser.type parsedElement) with
  | None => None
  | Some presetId =>
      let elementId := "webflow-" +:+ HTMLParser.id parsedElement in
      let ref := length (objects this) in
      let parentId :=
        match parentElement with
        | Some p => id <$> (objects this !! p)
        | None => None
        end in
      let webflowElement :=
        mkWebflowElement elementId (HTMLParser.type parsedElement) presetId
          ∅ [] parentId None in
      let objects1 :=
        match parentElement with
        | Some p => push_child p elementId (objects this ++ [webflowElement])
        | None => objects this ++ [webflowElement]
        end in
      let this1 :=
        mkMapper objects1
          (map_set (HTMLParser.id parsedElement) ref (createdElements this)) in
      (fix map_children (l : list ParsedElement) (this : mapper)
         : option (mapper * nat) :=
         match l with
         | [] => Some (this, ref)
         | childElement :: l' =>
             match mapElement childElement (Some ref) this with
             | Some (this', _) => map_children l' this'
             | None => None
             end
         end) (HTMLParser.children parsedElement) this1
  end.

(** [mapToWebflow]: the mapping is cleared first. *)
Definition mapToWebflow (parsedStructure : ParsedElement) (this : mapper)
    : option (mapper * nat) :=
  mapElement parsedStructure None (mkMapper (objects this) []).

(** [Object.assign(webflowElement.styles, styles)] *)
Definition applyStyles (ref : nat) (new : gmap string string) (this : mapper)
    : mapper :=
  mkMapper
    (alter (λ e, mkWebflowElement (id e) (type e) (preset e)
                   (map_fold object_set (styles e) new)
                   (children e) (parent e) (classes e))
           ref (objects this))
    (createdElements this).

(** [Array.from(this.createdElements.values())], as addresses. *)
Definition getAllWebflowElements (this : mapper) : list nat :=
  (createdElements this).*2.

(** [Map.prototype.get], on the entries in insertion order *)
Fixpoint map_get (k : string) (m : list (string * nat)) : option nat :=
  match m with
  | [] => None
  | (k', v) :: m' => if bool_decide (k' = k) then Some v else map_get k m'
  end.

(** [getWebflowElement], as an address *)
Definition getWebflowElement (parsedElementId : string) (this : mapper)
    : option nat :=
  map_get parsedElementId (createdElements this).

End WebflowElementMapper.

(** ** conversionManager.js *)

Module ConversionManager.
Import JS Regex ClassNamingSystem CSSParser HTMLParser WebflowElementMapper.

(** [preGenerateClassNames]: the classes of the element in order, then its
    children in order. *)
Fixpoint preGenerateClassNames (parsedHtml : ParsedElement)
    (naming : ClassNamingSystem.t) : ClassNamingSystem.t :=
  let naming1 :=
    foldl (λ n className, (generateClassName n className).1)
          naming (HTMLParser.classes parsedHtml) in
  (fix each_child (l : list ParsedElement) (n : ClassNamingSystem.t)
     : ClassNamingSystem.t :=
     match l with
     | [] => n
     | child :: l' => each_child l' (preGenerateClassNames child n)
     end) (HTMLParser.children parsedHtml) naming1.

(** [{...rule, selector: transformedSelector, originalSelector: rule.selector}] *)
Definition rewrite_rule (naming : ClassNamingSystem.t) (r : rule)
    : ClassNamingSystem.t * rule :=
  let '(naming1, transformedSelector) := transformSelector naming (selector r) in
  (naming1,
   mkRule transformedSelector (specificity r) (properties r) (originalRule r)
     (Some (selector r))).

Fixpoint rewrite_rules (naming : ClassNamingSystem.t) (rs : list rule)
    : ClassNamingSystem.t * list rule :=
  match rs with
  | [] => (naming, [])
  | r :: rs' =>
      let '(naming1, r1) := rewrite_rule naming r in
      let '(naming2, rs1) := rewrite_rules naming1 rs' in
      (naming2, r1 :: rs1)
  end.

Fixpoint rewrite_media (naming : ClassNamingSystem.t) (mqs : list mediaQuery)
    : ClassNamingSystem.t * list mediaQuery :=
  match mqs with
  | [] => (naming, [])
  | mq :: mqs' =>
      let '(naming1, rs) := rewrite_rules naming (rules mq) in
      let '(naming2, mqs1) := rewrite_media naming1 mqs' in
      (naming2, mkMediaQuery (query mq) rs :: mqs1)
  end.

(** [processCssClasses]: the style rules first, then the media queries. *)
Definition processCssClasses (naming : ClassNamingSystem.t) (parsedCss : parsed)
    : ClassNamingSystem.t * parsed :=
  let '(naming1, rs) := rewrite_rules naming (styleRules parsedCss) in
  let '(naming2, mqs) := rewrite_media naming1 (mediaQueries parsedCss) in
  (naming2, mkParsed rs mqs).

(** The grouping at the head of [applyStylesToElements].  On a selector
    that names a member of [Object.prototype] the test finds the member,
    which has no [push]: a [TypeError], [None]. *)
Fixpoint group_by_selector (rs : list rule) (stylesBySelector : gmap string (list rule))
    : option (gmap string (list rule)) :=
  match rs with
  | [] => Some stylesBySelector
  | r :: rs' =>
      match stylesBySelector !! selector r with
      | Some group =>
          group_by_selector rs' (<[selector r := group ++ [r]]> stylesBySelector)
      | None =>
          if inherited (selector r) then None
          else group_by_selector rs' (<[selector r := [r]]> stylesBySelector)
      end
  end.

(** [Array.prototype.sort] with [(a, b) => a.specificity - b.specificity]:
    a stable sort by ascending specificity. *)
Fixpoint insert_by_specificity (r : rule) (sorted : list rule) : list rule :=
  match sorted with
  | [] => [r]
  | x :: xs =>
      if decide (specificity r ≤ specificity x) then r :: x :: xs
      else x :: insert_by_specificity r xs
  end.

Definition sort_by_specificity (rs : list rule) : list rule :=
  foldr insert_by_specificity [] rs.

(** [stylesBySelector[k]] spread into [matchingRules]: nothing when the
    property is absent, and a [TypeError] when the lookup finds a member
    of [Object.prototype], which is not iterable. *)
Definition lookup_group (k : string) (stylesBySelector : gmap string (list rule))
    : option (list rule) :=
  match stylesBySelector !! k with
  | Some group => Some group
  | None => if inherited k then None else Some []
  end.

(** [findMatchingRules]; [None] is a thrown error. *)
Definition findMatchingRules (element : WebflowElement)
    (stylesBySelector : gmap string (list rule)) : option (list rule) :=
  let byClass :=
    match WebflowElementMapper.classes element with
    | Some cs =>
        foldl (λ acc className,
                 match acc with
                 | Some matching =>
                     (λ group, matching ++ group) <$>
                       lookup_group ("." +:+ className) stylesBySelector
                 | None => None
                 end)
              (Some []) cs
    | None => Some []
    end in
  match byClass, WebflowElementMapper.type element with
  | Some matching, Named ty =>
      match lookup_group (toLowerCase ty) stylesBySelector with
      | Some group => Some (sort_by_specificity (matching ++ group))
      | None => None
      end
  | _, _ => None
  end.

(** The merge of [applyStylesToElement]: later rules override earlier
    ones. *)
Definition mergedProperties (matching : list rule) : gmap string string :=
  foldl (λ merged r, map_fold object_set merged (properties r)) ∅ matching.

Definition applyStylesToElement (ref : nat) (matching : list rule)
    (m : mapper) : mapper :=
  applyStyles ref (mergedProperties matching) m.

(** [applyStylesToElements]; [None] is a thrown error. *)
Definition applyStylesToElements (processedCss : parsed) (m : mapper)
    : option mapper :=
  match group_by_selector (styleRules processedCss) ∅ with
  | None => None
  | Some stylesBySelector =>
      foldl (λ acc ref,
               match acc with
               | None => None
               | Some m1 =>
                   match objects m1 !! ref with
                   | None => None
                   | Some element =>
                       match findMatchingRules element stylesBySelector with
                       | None => None
                       | Some [] => Some m1
                       | Some matching => Some (applyStylesToElement ref matching m1)
                       end
                   end
               end)
            (Some m) (getAllWebflowElements m)
  end.

(** What [convert] returns, with the created objects: the address of the
    root element and the class map. *)
Record result : Type := mkResult {
  elements : mapper;
  webflowElements : nat;
  classMap : gmap string string
}.

(** [convert], from the body element and the style sheet's syntax tree;
    [options.prefix] is [None] when the option is absent.  [None] is a
    thrown error. *)
Definition convert (htmlCode : dom) (cssCode : list node) (prefix : option string)
    : option result :=
  let naming :=
    match prefix with
    | Some p => if truthy p then constructor p else constructor default_prefix
    | None => constructor default_prefix
    end in
  match HTMLParser.parse htmlCode with
  | None => None
  | Some parsedHtml =>
      let parsedCss := CSSParser.parse cssCode in
      let naming1 := preGenerateClassNames parsedHtml naming in
      let '(naming2, processedCss) := processCssClasses naming1 parsedCss in
      match mapToWebflow parsedHtml (mkMapper [] []) with
      | None => None
      | Some (m, root) =>
          match applyStylesToElements processedCss m with
          | None => None
          | Some m1 => Some (mkResult m1 root (getAllClassMappings naming2))
          end
      end
  end.

End ConversionManager.

(** ** Inputs of the scenarios *)

Module Scenario.
Import CSSParser HTMLParser.

(** The body cheerio builds for
    [<div class="container"><p class="text">Hi</p></div>]. *)
Definition markup : dom :=
  Element "body" ∅
    [ Element "div" {[ "class" := "container" ]}
        [ Element "p" {[ "class" := "text" ]} [ Text "Hi" ] ] ].

(** The tree postcss builds for
    [.container{width:100%} p{color:red} .text{color:blue}]. *)
Definition stylesheet : list node :=
  [ Rule ".container" ".container{width:100%}" [ Decl "width" "100%" ];
    Rule "p" "p{color:red}" [ Decl "color" "red" ];
    Rule ".text" ".text{color:blue}" [ Decl "color" "blue" ] ].

(** The body for [<div></div>]. *)
Definition one_div : dom := Element "body" ∅ [ Element "div" ∅ [] ].

(** The tree for
    [@media (max-width: 600px) { @supports (display: grid) { div { color: red } } }]. *)
Definition nested_media : list node :=
  [ AtRule "media" "(max-width: 600px)"
      [ AtRule "supports" "(display: grid)"
          [ Rule "div" "div { color: red }" [ Decl "color" "red" ] ] ] ].

(** The tree for [@media (max-width: 600px) { div { color: red } }]. *)
Definition direct_media : list node :=
  [ AtRule "media" "(max-width: 600px)"
      [ Rule "div" "div { color: red }" [ Decl "color" "red" ] ] ].

End Scenario.

(** * What the properties are stated with *)

Import JS Regex.

Section naming_notions.
Import ClassNamingSystem.

(** The names the uniqueness loop tries, by the value of [suffix]. *)
Definition candidate (generatedName : string) (suffix : nat) : string :=
  match suffix with
  | 0 => generatedName
  | S _ => generatedName +:+ "-" +:+ pretty suffix
  end.

(** The two maps are inverses of each other. *)
Definition mutual_inverses (r : t) : Prop :=
  ∀ o g, classMap r !! o = Some g ↔ reverseMap r !! g = Some o.

(** No generated name serves two originals. *)
Definition names_unique (r : t) : Prop :=
  ∀ o1 o2 g, classMap r !! o1 = Some g → classMap r !! o2 = Some g → o1 = o2.

(** No generated name is empty. *)
Definition names_nonempty (r : t) : Prop :=
  ∀ o g, classMap r !! o = Some g → g ≠ "".

(** The registries the operations can lead to. *)
Inductive reachable : t → Prop :=
  | reachable_new (p : string) : reachable (constructor p)
  | reachable_generate (r : t) (s : string) :
      reachable r → reachable (generateClassName r s).1
  | reachable_transform (r : t) (s : string) :
      reachable r → reachable (transformSelector r s).1
  | reachable_reset (r : t) : reachable r → reachable (reset r).

(** What the replacer puts for a match, given what [classMap] holds for
    its class name. *)
Definition rendered (found : option string) (matched : string) : string :=
  match or_null found with
  | Some generatedName => "." +:+ generatedName
  | None => matched
  end.

Fixpoint rendered_all (cm : gmap string string) (ps : list piece) : string :=
  match ps with
  | [] => ""
  | Lit c :: ps' => String c (rendered_all cm ps')
  | Hit x :: ps' => rendered (cm !! drop 1 x) x +:+ rendered_all cm ps'
  end.

(** Every class name matched in the selector has an entry. *)
Definition all_registered (cm : gmap string string) (ps : list piece) : Prop :=
  Forall (λ x, is_Some (cm !! drop 1 x)) (hits ps).

End naming_notions.

Section renaming_notions.
Import ClassNamingSystem CSSParser.

(** A non-empty run of identifier characters. *)
Definition ident_name (g : string) : Prop :=
  g ≠ "" ∧ all_chars cls_ident g = true.

(** No identifier character comes next. *)
Definition stops (s : string) : Prop := take_while cls_ident s = "".

(** [renamed s s']: [s'] is [s] with some runs of identifier characters,
    each ending where the identifier ends, replaced by other runs. *)
Inductive renamed : string → string → Prop :=
  | renamed_nil : renamed "" ""
  | renamed_lit (c : ascii) (s s' : string) :
      renamed s s' → renamed (String c s) (String c s')
  | renamed_run (x g s s' : string) :
      ident_name x → ident_name g → stops s → renamed s s' →
      renamed (x +:+ s) (g +:+ s').

(** A pattern respects renaming when, just before related strings, it
    matches in both or in neither, and leaves related strings behind. *)
Definition respects (m : matcher) : Prop :=
  ∀ c t t', renamed t t' →
    match m (String c t), m (String c t') with
    | Some x, Some x' =>
        x ≠ "" ∧ x' ≠ ""
        ∧ renamed (drop (String.length x) (String c t))
                  (drop (String.length x') (String c t'))
    | None, None => True
    | _, _ => False
    end.

(** The prefix is made of identifier characters, and so is every
    generated name. *)
Definition ident_registry (r : t) : Prop :=
  all_chars cls_ident (prefix r) = true
  ∧ ∀ o g, classMap r !! o = Some g → ident_name g.

(** The stored specificity is the one of the selector the rule holds. *)
Definition specificity_current (rl : rule) : Prop :=
  specificity rl = calculateSpecificity (selector rl).

End renaming_notions.

Section parsing_notions.
Import HTMLParser WebflowElementMapper ConversionManager.

(** A class name as it can stand in the attribute: not empty, no white
    space in it. *)
Definition class_name (name : string) : Prop :=
  name ≠ "" ∧ all_chars (λ c, negb (re_s c)) name = true.

(** White space, possibly none. *)
Definition white (s : string) : Prop := all_chars re_s s = true.

(** A class attribute as it is written, after the white space it may
    start with: the names, each with the white space that follows it. *)
Fixpoint written (items : list (string * string)) : string :=
  match items with
  | [] => ""
  | (name, sep) :: rest => name +:+ sep +:+ written rest
  end.

(** The white space between two names is not empty. *)
Fixpoint well_separated (items : list (string * string)) : Prop :=
  match items with
  | [] => True
  | (name, sep) :: rest =>
      class_name name ∧ white sep ∧ (rest ≠ [] → sep ≠ "")
      ∧ well_separated rest
  end.

(** The styles [convert] leaves on the created element at address [ref]. *)
Definition styles_at (ref : nat) (res : option result)
    : option (gmap string string) :=
  res ≫= λ r, styles <$> (objects (elements r) !! ref).

End parsing_notions.

Section more_notions.
Import ClassNamingSystem CSSParser HTMLParser.

(** [g] is [p] and something after it. *)
Definition starts_with (p g : string) : Prop := ∃ rest, g = p +:+ rest.

(** The name [generateClassName] proposes before it looks for
    collisions. *)
Definition proposal (r : t) (originalClassName : string) : string :=
  if truthy originalClassName && re_valid_name originalClassName
  then prefix r +:+ originalClassName
  else prefix r +:+ "class-" +:+ pretty (counter r).

(** The element and its descendants, in document order. *)
Fixpoint elements_of (e : ParsedElement) : list ParsedElement :=
  e ::
  (fix each (l : list ParsedElement) : list ParsedElement :=
     match l with
     | [] => []
     | child :: l' => elements_of child ++ each l'
     end) (HTMLParser.children e).

(** The classes of the element and its descendants, in document order. *)
Definition all_classes (e : ParsedElement) : list string :=
  elements_of e ≫= HTMLParser.classes.

(** The elements of a subtree of the DOM, in document order. *)
Fixpoint dom_elements (d : dom) : list dom :=
  match d with
  | Element _ _ childNodes =>
      d ::
      (fix each (l : list dom) : list dom :=
         match l with
         | [] => []
         | child :: l' => dom_elements child ++ each l'
         end) childNodes
  | Text _ | Other => []
  end.

(** A rule that holds declarations only. *)
Definition flat_rule (n : node) : Prop :=
  match n with
  | Rule _ _ ns =>
      Forall (λ d, match d with Decl _ _ => True | _ => False end) ns
  | _ => False
  end.

(** A rule that holds declarations only, or an [@media] block of such
    rules. *)
Definition plain_node (n : node) : Prop :=
  match n with
  | Rule _ _ _ => flat_rule n
  | AtRule name _ ns => name = "media" ∧ Forall flat_rule ns
  | _ => False
  end.

(** The rules among the nodes of a list, processed, in order. *)
Definition rules_among (ns : list node) : list rule :=
  omap (λ n, match n with
             | Rule sel text ns' => Some (processRule sel text ns')
             | _ => None
             end) ns.

(** The [@media] blocks among the nodes of a list, each with the rules
    among its own nodes, in order. *)
Definition media_among (ns : list node) : list mediaQuery :=
  omap (λ n, match n with
             | AtRule name params ns' =>
                 if bool_decide (name = "media")
                 then Some (mkMediaQuery params (rules_among ns'))
                 else None
             | _ => None
             end) ns.

(** The parts of a selector list written with commas between them. *)
Fixpoint commas (parts : list string) : string :=
  match parts with
  | [] => ""
  | [part] => part
  | part :: rest => part +:+ "," +:+ commas rest
  end.

(** No character of [s] is [k]. *)
Definition free_of (k : ascii) (s : string) : Prop :=
  all_chars (λ c, negb (is_char k c)) s = true.

(** The counter and the two maps count the same names. *)
Definition counts_entries (r : t) : Prop :=
  counter r = size (classMap r) ∧ size (reverseMap r) = size (classMap r).

(** Every generated name begins with the registry's prefix. *)
Definition prefixed (r : t) : Prop :=
  ∀ o g, classMap r !! o = Some g → starts_with (prefix r) g.

(** The loop of [parseElement] over the children of an element. *)
Definition parse_children : nat → list dom → nat * list ParsedElement :=
  fix parse_children (n : nat) (l : list dom) : nat * list ParsedElement :=
    match l with
    | [] => (n, [])
    | Element _ _ _ as child :: l' =>
        let '(n1, parsedChild) := parseElement n child in
        let '(n2, rest) := parse_children n1 l' in
        (n2, match parsedChild with
             | Some pc => pc :: rest
             | None => rest
             end)
    | _ :: l' => parse_children n l'
    end.

(** The tag name and the class names of an element of the markup, as
    [parseElement] reads them. *)
Definition dom_row (d : dom) : option (string * list string) :=
  match d with
  | Element name attribs _ => Some (name, parse_classes attribs)
  | Text _ | Other => None
  end.

(** The tag name and the class names of a parsed element. *)
Definition parsed_row (e : ParsedElement) : string * list string :=
  (tagName e, HTMLParser.classes e).

(** What holds of the elements parsed from a subtree, counted from [n]. *)
Definition parsed_from (n n' : nat) (es : list ParsedElement)
    (ds : list dom) : Prop :=
  n' = n + length es
  ∧ HTMLParser.id <$> es = element_id <$> seq n (length es)
  ∧ parsed_row <$> es = omap dom_row ds.

(** The parts of a text written with [k] between them. *)
Fixpoint joined (k : ascii) (parts : list string) : string :=
  match parts with
  | [] => ""
  | [part] => part
  | part :: rest => part +:+ String k (joined k rest)
  end.

(** One declaration of a style attribute, as written. *)
Definition declaration (d : string * string) : string :=
  d.1 +:+ String ":" d.2.

(** A property and a value that can stand in a style attribute: no colon
    and no semicolon in them, and something left of each once the white
    space around it is taken off. *)
Definition inline_declaration (d : string * string) : Prop :=
  (free_of ":" d.1 ∧ free_of ";" d.1 ∧ Text.trim d.1 ≠ "")
  ∧ (free_of ":" d.2 ∧ free_of ";" d.2 ∧ Text.trim d.2 ≠ "").

(** The loop of [mapElement] over the children of an element. *)
Definition map_children (ref : nat)
    : list ParsedElement → WebflowElementMapper.mapper
      → option (WebflowElementMapper.mapper * nat) :=
  fix map_children (l : list ParsedElement) (this : WebflowElementMapper.mapper)
    : option (WebflowElementMapper.mapper * nat) :=
    match l with
    | [] => Some (this, ref)
    | childElement :: l' =>
        match WebflowElementMapper.mapElement childElement (Some ref) this with
        | Some (this', _) => map_children l' this'
        | None => None
        end
    end.

(** A preset is found for the type of the element. *)
Definition has_preset (e : ParsedElement) : Prop :=
  is_Some (WebflowElementMapper.find_preset (HTMLParser.type e)).

(** What style resolution reads of a created element: its id, its type,
    its styles and its classes. *)
Definition core (w : WebflowElementMapper.WebflowElement)
    : string * element_type * gmap string string * option (list string) :=
  (WebflowElementMapper.id w, WebflowElementMapper.type w,
   WebflowElementMapper.styles w, WebflowElementMapper.classes w).

(** The same, of the element [mapElement] creates for a parsed element. *)
Definition created (e : ParsedElement)
    : string * element_type * gmap string string * option (list string) :=
  ("webflow-" +:+ HTMLParser.id e, HTMLParser.type e, ∅, None).

(** From [this] to [this']: one object more for each of the elements
    [es], in order, each registered under the id of its element, and the
    objects that were there as they were but for their children. *)
Definition maps_onto (this this' : WebflowElementMapper.mapper)
    (es : list ParsedElement) : Prop :=
  core <$> WebflowElementMapper.objects this'
  = (core <$> WebflowElementMapper.objects this) ++ (created <$> es)
  ∧ (WebflowElementMapper.createdElements this').*1
    = (WebflowElementMapper.createdElements this).*1 ++ (HTMLParser.id <$> es)
  ∧ (WebflowElementMapper.createdElements this').*2
    = (WebflowElementMapper.createdElements this).*2
      ++ seq (length (WebflowElementMapper.objects this)) (length es).

(** The loop of [preGenerateClassNames] over the children of an
    element. *)
Definition pre_children : list ParsedElement → t → t :=
  fix each_child (l : list ParsedElement) (n : t) : t :=
    match l with
    | [] => n
    | child :: l' =>
        each_child l' (ConversionManager.preGenerateClassNames child n)
    end.

(** The order [findMatchingRules] sorts by. *)
Definition by_specificity (a b : rule) : Prop :=
  specificity a ≤ specificity b.

(** The prefix [convert] makes the registry with. *)
Definition effective_prefix (prefix : option string) : string :=
  match prefix with
  | Some p => if truthy p then p else default_prefix
  | None => default_prefix
  end.

(** The loop of [applyStylesToElements] over the created elements. *)
Definition apply_each (stylesBySelector : gmap string (list rule))
    (refs : list nat) (m : WebflowElementMapper.mapper)
    : option WebflowElementMapper.mapper :=
  foldl (λ acc ref,
           match acc with
           | None => None
           | Some m1 =>
               match WebflowElementMapper.objects m1 !! ref with
               | None => None
               | Some element =>
                   match ConversionManager.findMatchingRules element
                           stylesBySelector with
                   | None => None
                   | Some [] => Some m1
                   | Some matching =>
                       Some (ConversionManager.applyStylesToElement ref
                               matching m1)
                   end
               end
           end)
        (Some m) refs.

(** What the loop makes of one element. *)
Definition styled (stylesBySelector : gmap string (list rule))
    (w : WebflowElementMapper.WebflowElement)
    : option WebflowElementMapper.WebflowElement :=
  match ConversionManager.findMatchingRules w stylesBySelector with
  | None => None
  | Some [] => Some w
  | Some matching =>
      Some (WebflowElementMapper.mkWebflowElement
              (WebflowElementMapper.id w) (WebflowElementMapper.type w)
              (WebflowElementMapper.preset w)
              (map_fold object_set (WebflowElementMapper.styles w)
                 (ConversionManager.mergedProperties matching))
              (WebflowElementMapper.children w)
              (WebflowElementMapper.parent w)
              (WebflowElementMapper.classes w))
  end.

(** The rules whose selector is the type [ty] in small letters, in
    ascending order of specificity. *)
Definition rules_for (ty : string) (rules : list rule) : list rule :=
  ConversionManager.sort_by_specificity
    (filter (λ r, selector r = toLowerCase ty) rules).

(** The style sheet as [convert] hands it to [applyStylesToElements]:
    parsed, and its selectors rewritten through the registry that holds
    the classes of the markup. *)
Definition processed_css (pe : ParsedElement) (cssCode : list node)
    (prefix : option string) : parsed :=
  (ConversionManager.processCssClasses
     (ConversionManager.preGenerateClassNames pe
        (constructor (effective_prefix prefix)))
     (CSSParser.parse cssCode)).2.

End more_notions.

(** * Properties *)

(** ** Strings *)

Section string_facts.

Lemma app_cons (c : ascii) (a b : string) :
  String c a +:+ b = String c (a +:+ b).
Proof. reflexivity. Qed.

Lemma app_empty_l (s : string) : "" +:+ s = s.
Proof. reflexivity. Qed.

Lemma app_empty_r (s : string) : s +:+ "" = s.
Proof. induction s as [|c s IH]; [done | by rewrite app_cons, IH]. Qed.

Lemma app_assoc (a b c : string) : (a +:+ b) +:+ c = a +:+ (b +:+ c).
Proof. induction a as [|x a IH]; [done | by rewrite !app_cons, IH]. Qed.

Lemma length_app (a b : string) :
  String.length (a +:+ b) = String.length a + String.length b.
Proof. induction a as [|x a IH]; [done | rewrite app_cons; simpl; by rewrite IH]. Qed.

Lemma app_cons_ne (g : string) (c : ascii) (x : string) :
  g ≠ g +:+ String c x.
Proof.
  intros E. apply (f_equal String.length) in E.
  rewrite length_app in E. simpl in E. lia.
Qed.

Lemma truthy_true (s : string) : truthy s = true ↔ s ≠ "".
Proof. unfold truthy. case_bool_decide; naive_solver. Qed.

Lemma truthy_app_r (a b : string) : truthy b = true → truthy (a +:+ b) = true.
Proof.
  rewrite !truthy_true. intros Hb E. apply (f_equal String.length) in E.
  rewrite length_app in E. destruct b; [done | simpl in E; lia].
Qed.

Lemma all_chars_app (p : ascii → bool) (a b : string) :
  all_chars p (a +:+ b) = all_chars p a && all_chars p b.
Proof.
  induction a as [|x a IH]; [done |].
  rewrite app_cons. simpl. by rewrite IH, andb_assoc.
Qed.

Lemma app_eq_empty (a b : string) : a +:+ b = "" → a = "" ∧ b = "".
Proof. destruct a; [by rewrite app_empty_l | by rewrite app_cons]. Qed.

(** Decimal numerals are made of digits. *)
Lemma pretty_N_go_digits (x : N) (s : string) :
  all_chars is_digit s = true → all_chars is_digit (pretty_N_go x s) = true.
Proof.
  revert s. induction (N.lt_wf_0 x) as [x _ IH]; intros s Hs.
  destruct (decide (x = 0)%N) as [-> | Hx]; [by rewrite pretty_N_go_0 |].
  rewrite pretty_N_go_step by lia. apply IH.
  - apply N.div_lt; lia.
  - simpl. rewrite Hs, andb_true_r.
    unfold pretty_N_char. by repeat case_match.
Qed.

Lemma pretty_nat_digits (n : nat) : all_chars is_digit (pretty n) = true.
Proof.
  unfold pretty, pretty_nat, pretty, pretty_N.
  case_decide; [done | by apply pretty_N_go_digits].
Qed.

Lemma pretty_N_go_nonempty (x : N) (s : string) :
  s ≠ "" → pretty_N_go x s ≠ "".
Proof.
  revert s. induction (N.lt_wf_0 x) as [x _ IH]; intros s Hs.
  destruct (decide (x = 0)%N) as [-> | Hx]; [by rewrite pretty_N_go_0 |].
  rewrite pretty_N_go_step by lia. apply IH; [apply N.div_lt; lia | done].
Qed.

Lemma pretty_nat_nonempty (n : nat) : pretty n ≠ "".
Proof.
  unfold pretty, pretty_nat, pretty, pretty_N.
  case_decide as Hn; [done |].
  rewrite pretty_N_go_step by lia. by apply pretty_N_go_nonempty.
Qed.

Lemma digit_ident (c : ascii) : is_digit c = true → cls_ident c = true.
Proof. unfold cls_ident. intros ->. by rewrite !orb_true_r. Qed.

Lemma all_chars_impl (p q : ascii → bool) (s : string) :
  (∀ c, p c = true → q c = true) → all_chars p s = true → all_chars q s = true.
Proof.
  intros Hpq. induction s as [|c s IH]; [done |]. simpl.
  rewrite !andb_true_iff. intros [? ?]. auto.
Qed.

End string_facts.

(** ** Passes of a pattern *)

Section scan_facts.

Lemma scan_hit (m : matcher) (c : ascii) (t x : string) :
  m (String c t) = Some x →
  scan m 0 (String c t) = Hit x :: scan m (String.length x - 1) t.
Proof. intros E. simpl. by rewrite E. Qed.

Lemma scan_miss (m : matcher) (c : ascii) (t : string) :
  m (String c t) = None → scan m 0 (String c t) = Lit c :: scan m 0 t.
Proof. intros E. simpl. by rewrite E. Qed.

Lemma scan_skip (m : matcher) (k : nat) (s : string) :
  scan m k s = scan m 0 (drop k s).
Proof.
  revert s. induction k as [|k IH]; intros s; [done |].
  destruct s as [|c t]; [done |]. simpl. apply IH.
Qed.

Lemma drop_app_length (a b : string) : drop (String.length a) (a +:+ b) = b.
Proof. induction a as [|c a IH]; [done | by rewrite app_cons]. Qed.

Lemma take_while_app_stop (p : ascii → bool) (a b : string) :
  all_chars p a = true → take_while p b = "" →
  take_while p (a +:+ b) = a.
Proof.
  intros Ha Hb. induction a as [|c a IH]; [by rewrite app_empty_l |].
  simpl in Ha. apply andb_true_iff in Ha as [Hc Ha].
  rewrite app_cons. simpl. by rewrite Hc, IH.
Qed.

Lemma take_while_all (p : ascii → bool) (s : string) :
  all_chars p (take_while p s) = true.
Proof.
  induction s as [|c s IH]; [done |]. simpl.
  destruct (p c) eqn:E; [| done]. simpl. by rewrite E, IH.
Qed.

End scan_facts.

(** ** The naming registry *)

Section naming.
Import ClassNamingSystem.

Lemma candidate_inj (g : string) : Inj (=) (=) (candidate g).
Proof.
  intros [|i] [|j] E; simpl in E; [done | | | ].
  - by apply app_cons_ne in E.
  - symmetry in E. by apply app_cons_ne in E.
  - apply (inj (String.app g)), (inj (String.app "-")), (inj pretty) in E.
    done.
Qed.

(** No more names can be taken than [reverseMap] has keys. *)
Lemma candidates_taken_bound (rev : gmap string string) (g : string) (n : nat) :
  (∀ j, j < n → is_Some (rev !! candidate g j)) → n ≤ size rev.
Proof.
  intros Htaken.
  assert (NoDup (candidate g <$> seq 0 n)) as Hnd.
  { apply NoDup_fmap_2_strong; [| apply NoDup_seq].
    intros ?? _ _. apply candidate_inj. }
  assert (n = size (list_to_set (C := gset string) (candidate g <$> seq 0 n)))
    as ->.
  { rewrite (size_list_to_set _ Hnd), length_fmap. by rewrite length_seq. }
  rewrite <- size_dom.
  apply subseteq_size. intros x Hx.
  apply elem_of_list_to_set, list_elem_of_fmap in Hx as (j & -> & Hj).
  apply elem_of_seq in Hj. apply elem_of_dom, Htaken. lia.
Qed.

(** The loop returns the first name that [reverseMap] does not hold: its
    fuel never runs out before the loop condition fails. *)
Lemma unique_loop_from (rev : gmap string string) (g : string) (fuel suffix : nat) :
  (∀ j, j < suffix → is_Some (rev !! candidate g j)) →
  size rev ≤ suffix + fuel →
  ∃ k, unique_loop rev g (candidate g suffix) suffix fuel = candidate g k
       ∧ rev !! candidate g k = None
       ∧ ∀ j, j < k → is_Some (rev !! candidate g j).
Proof.
  revert suffix. induction fuel as [|fuel IH]; intros suffix Htaken Hsize.
  - destruct (rev !! candidate g suffix) eqn:E.
    + exfalso.
      assert (S suffix ≤ size rev); [| lia].
      apply (candidates_taken_bound rev g). intros j Hj.
      destruct (decide (j = suffix)) as [-> | ?]; [by rewrite E |].
      apply Htaken. lia.
    + exists suffix. simpl. by rewrite E.
  - destruct (rev !! candidate g suffix) eqn:E.
    + simpl. rewrite E.
      apply (IH (S suffix)); [| lia]. intros j Hj.
      destruct (decide (j = suffix)) as [-> | ?]; [by rewrite E |].
      apply Htaken. lia.
    + exists suffix. simpl. by rewrite E.
Qed.

Lemma unique_loop_first_free (rev : gmap string string) (g : string) :
  ∃ k, unique_loop rev g g 0 (size rev) = candidate g k
       ∧ rev !! candidate g k = None
       ∧ ∀ j, j < k → is_Some (rev !! candidate g j).
Proof. apply (unique_loop_from rev g (size rev) 0); [intros; lia | lia]. Qed.

Lemma unique_loop_fresh (rev : gmap string string) (g : string) :
  rev !! unique_loop rev g g 0 (size rev) = None.
Proof. destruct (unique_loop_first_free rev g) as (k & -> & ? & _). done. Qed.

(** *** [generateClassName] *)

Lemma generateClassName_known (r : t) (s g : string) :
  classMap r !! s = Some g → generateClassName r s = (r, g).
Proof. intros E. unfold generateClassName. by rewrite E. Qed.

Lemma generateClassName_registers (r : t) (s : string) :
  classMap (generateClassName r s).1 !! s = Some (generateClassName r s).2.
Proof.
  unfold generateClassName. destruct (classMap r !! s) eqn:E; simpl; [done |].
  by rewrite lookup_insert_eq.
Qed.

Lemma generateClassName_classMap_mono (r : t) (s : string) :
  classMap r ⊆ classMap (generateClassName r s).1.
Proof.
  unfold generateClassName. destruct (classMap r !! s) eqn:E; simpl; [done |].
  by apply insert_subseteq.
Qed.

Lemma generateClassName_prefix (r : t) (s : string) :
  prefix (generateClassName r s).1 = prefix r.
Proof. unfold generateClassName. by destruct (classMap r !! s). Qed.

(** A new name is one that [reverseMap] did not hold. *)
Lemma generateClassName_new_fresh (r : t) (s : string) :
  classMap r !! s = None → reverseMap r !! (generateClassName r s).2 = None.
Proof.
  intros E. unfold generateClassName. rewrite E. simpl.
  apply unique_loop_fresh.
Qed.

(** *** The two maps are inverses of each other *)

Lemma mutual_inverses_unique (r : t) : mutual_inverses r → names_unique r.
Proof.
  intros Hinv o1 o2 g H1 H2. apply Hinv in H1, H2. congruence.
Qed.

Lemma constructor_inverses (p : string) : mutual_inverses (constructor p).
Proof. intros o g. simpl. by rewrite !lookup_empty. Qed.

Lemma reset_inverses (r : t) : mutual_inverses (reset r).
Proof. intros o g. simpl. by rewrite !lookup_empty. Qed.

Lemma generateClassName_inverses (r : t) (s : string) :
  mutual_inverses r → mutual_inverses (generateClassName r s).1.
Proof.
  intros Hinv. destruct (classMap r !! s) as [g0|] eqn:E.
  { by rewrite (generateClassName_known r s g0). }
  pose proof (generateClassName_new_fresh r s E) as Hfresh.
  unfold generateClassName in *. rewrite E in *. simpl in *.
  set (u := unique_loop _ _ _ _ _) in *.
  intros o g. simpl. rewrite !lookup_insert. split.
  - case_decide as Ho; [intros [= <-]; subst o; by rewrite decide_True |].
    intros Hog. case_decide as Hg; [| by apply Hinv].
    subst g. apply Hinv in Hog. congruence.
  - case_decide as Hg; [intros [= <-]; subst g; by rewrite decide_True |].
    intros Hgo. case_decide as Ho; [| by apply Hinv].
    subst o. apply Hinv in Hgo. congruence.
Qed.

(** *** [transformSelector] *)

Lemma hits_cons_lit (c : ascii) (ps : list piece) : hits (Lit c :: ps) = hits ps.
Proof. reflexivity. Qed.

Lemma hits_cons_hit (x : string) (ps : list piece) :
  hits (Hit x :: ps) = x :: hits ps.
Proof. reflexivity. Qed.

Lemma replacer_spec (r : t) (x c : string) :
  classMap r ⊆ classMap (replacer r x c).1
  ∧ is_Some (classMap (replacer r x c).1 !! c)
  ∧ (replacer r x c).2 = rendered (classMap (replacer r x c).1 !! c) x.
Proof.
  unfold replacer, hasGeneratedClassName, getGeneratedClassName, rendered.
  case_bool_decide as Hc.
  - destruct Hc as [g Hg].
    destruct (or_null (classMap r !! c)) eqn:E; simpl; rewrite E, Hg; eauto.
  - pose proof (generateClassName_registers r c) as Hreg.
    pose proof (generateClassName_classMap_mono r c) as Hmono.
    destruct (or_null (classMap (generateClassName r c).1 !! c)) eqn:E;
      simpl; rewrite E, Hreg; eauto.
Qed.

Lemma replacer_known (r : t) (x c : string) :
  is_Some (classMap r !! c) →
  replacer r x c = (r, rendered (classMap r !! c) x).
Proof.
  intros Hc. unfold replacer, hasGeneratedClassName, getGeneratedClassName, rendered.
  rewrite bool_decide_true by done. by destruct (or_null _).
Qed.

(** What [generateClassName] keeps, the replacer keeps, and so does a
    whole pass. *)
Lemma replacer_preserves (P : t → Prop) :
  (∀ r s, P r → P (generateClassName r s).1) →
  ∀ r x c, P r → P (replacer r x c).1.
Proof.
  intros Hgen r x c Hr. unfold replacer, hasGeneratedClassName.
  case_bool_decide.
  - by destruct (getGeneratedClassName _ _).
  - destruct (getGeneratedClassName _ _); by apply Hgen.
Qed.

Lemma replace_pieces_preserves (P : t → Prop) :
  (∀ r s, P r → P (generateClassName r s).1) →
  ∀ r ps, P r → P (replace_pieces r ps).1.
Proof.
  intros Hgen r ps. revert r.
  induction ps as [|[c|x] ps IH]; intros r Hr; simpl.
  - done.
  - specialize (IH r Hr). by destruct (replace_pieces r ps).
  - pose proof (replacer_preserves P Hgen r x (drop 1 x) Hr) as H1.
    destruct (replacer r x (drop 1 x)) as [r1 new]. simpl in *.
    specialize (IH r1 H1). by destruct (replace_pieces r1 ps).
Qed.

Lemma all_registered_mono (cm cm' : gmap string string) (ps : list piece) :
  cm ⊆ cm' → all_registered cm ps → all_registered cm' ps.
Proof.
  intros Hsub Hall. eapply Forall_impl; [exact Hall |]. intros x [g Hg].
  exists g. by eapply lookup_weaken.
Qed.

Lemma rendered_all_mono (cm cm' : gmap string string) (ps : list piece) :
  cm ⊆ cm' → all_registered cm ps → rendered_all cm' ps = rendered_all cm ps.
Proof.
  intros Hsub. induction ps as [|[c|x] ps IH]; intros Hall; simpl.
  - done.
  - by rewrite IH.
  - unfold all_registered in Hall. rewrite hits_cons_hit in Hall.
    apply Forall_cons in Hall as [[g Hg] Hall].
    rewrite IH by done. by rewrite Hg, (lookup_weaken _ _ _ _ Hg Hsub).
Qed.

(** One pass registers every class name of the selector, only adds to
    [classMap], and writes what the final [classMap] holds. *)
Lemma replace_pieces_spec (r : t) (ps : list piece) :
  classMap r ⊆ classMap (replace_pieces r ps).1
  ∧ all_registered (classMap (replace_pieces r ps).1) ps
  ∧ (replace_pieces r ps).2 = rendered_all (classMap (replace_pieces r ps).1) ps.
Proof.
  revert r. induction ps as [|[c|x] ps IH]; intros r; simpl.
  - split; [done | split; [constructor | done]].
  - destruct (IH r) as (Hsub & Hall & Hout).
    destruct (replace_pieces r ps) as [r1 out]. simpl in *.
    by rewrite Hout.
  - destruct (replacer_spec r x (drop 1 x)) as (Hsub1 & Hreg1 & Hnew).
    destruct (replacer r x (drop 1 x)) as [r1 new]. simpl in *.
    destruct (IH r1) as (Hsub & Hall & Hout).
    destruct (replace_pieces r1 ps) as [r2 out]. simpl in *.
    split; [by etrans |]. split.
    + unfold all_registered. rewrite hits_cons_hit.
      apply Forall_cons. split; [| done].
      destruct Hreg1 as [g Hg]. exists g. by eapply lookup_weaken.
    + rewrite Hnew, Hout. f_equal.
      destruct Hreg1 as [g Hg]. by rewrite Hg, (lookup_weaken _ _ _ _ Hg Hsub).
Qed.

Lemma replace_pieces_registered (r : t) (ps : list piece) :
  all_registered (classMap r) ps →
  replace_pieces r ps = (r, rendered_all (classMap r) ps).
Proof.
  induction ps as [|[c|x] ps IH]; intros Hall; simpl.
  - done.
  - by rewrite IH.
  - unfold all_registered in Hall. rewrite hits_cons_hit in Hall.
    apply Forall_cons in Hall as [Hx Hall].
    rewrite replacer_known by done. by rewrite IH.
Qed.

Lemma transformSelector_inverses (r : t) (s : string) :
  mutual_inverses r → mutual_inverses (transformSelector r s).1.
Proof.
  apply (replace_pieces_preserves mutual_inverses generateClassName_inverses).
Qed.

(** *** The shape of a generated name *)

(** A new name is the prefix, a body of identifier characters (the
    original name, or [class-] and the counter), and possibly a dash and
    a number. *)
Lemma generateClassName_new_shape (r : t) (s : string) :
  classMap r !! s = None →
  ∃ body k, (generateClassName r s).2 = candidate (prefix r +:+ body) k
            ∧ body ≠ "" ∧ all_chars cls_ident body = true.
Proof.
  intros E. unfold generateClassName. rewrite E. simpl.
  destruct (truthy s && re_valid_name s) eqn:Hvalid.
  - destruct (unique_loop_first_free (reverseMap r) (prefix r +:+ s))
      as (k & Hk & _).
    exists s, k. split; [done |].
    apply andb_true_iff in Hvalid as [Hs Hre]. split; [by apply truthy_true |].
    destruct s as [|c s]; [done |]. simpl in *.
    apply andb_true_iff in Hre as [Hc Hrest]. rewrite Hrest, andb_true_r.
    unfold cls_ident_start in Hc. unfold cls_ident.
    repeat (apply orb_true_iff in Hc as [Hc | Hc]);
      rewrite Hc, ?orb_true_r; done.
  - destruct (unique_loop_first_free (reverseMap r)
                (prefix r +:+ "class-" +:+ pretty (counter r)))
      as (k & Hk & _).
    exists ("class-" +:+ pretty (counter r)), k. split; [done |].
    split; [done |].
    rewrite all_chars_app. apply andb_true_iff. split; [done |].
    apply (all_chars_impl is_digit); [apply digit_ident | apply pretty_nat_digits].
Qed.

Lemma candidate_nonempty (g : string) (k : nat) : g ≠ "" → candidate g k ≠ "".
Proof.
  intros Hg. destruct k; simpl; [done |]. intros E.
  by apply app_eq_empty in E as [? _].
Qed.

Lemma generateClassName_nonempty (r : t) (s : string) :
  names_nonempty r → names_nonempty (generateClassName r s).1.
Proof.
  intros Hne. destruct (classMap r !! s) as [g0|] eqn:E.
  { by rewrite (generateClassName_known r s g0). }
  destruct (generateClassName_new_shape r s E) as (body & k & Hshape & Hbody & _).
  unfold generateClassName in *. rewrite E in *. simpl in *.
  intros o g. simpl. rewrite lookup_insert. case_decide; [| by apply Hne].
  intros [= <-]. rewrite Hshape. apply candidate_nonempty.
  intros Hempty. by apply app_eq_empty in Hempty as [_ ?].
Qed.

Lemma transformSelector_nonempty (r : t) (s : string) :
  names_nonempty r → names_nonempty (transformSelector r s).1.
Proof.
  apply (replace_pieces_preserves names_nonempty generateClassName_nonempty).
Qed.

(** *** Reachable registries *)

(** In every reachable registry the two maps are inverses of each other,
    no generated name serves two originals, and no generated name is
    empty; each operation keeps this. *)
Lemma reachable_invariant (r : t) :
  reachable r → mutual_inverses r ∧ names_unique r ∧ names_nonempty r.
Proof.
  intros Hr.
  assert (mutual_inverses r ∧ names_nonempty r) as [Hinv Hne].
  { induction Hr as [p | r s _ [IH1 IH2] | r s _ [IH1 IH2] | r _ _].
    - split; [apply constructor_inverses |]. intros o g. simpl.
      by rewrite lookup_empty.
    - split; [by apply generateClassName_inverses
             | by apply generateClassName_nonempty].
    - split; [by apply transformSelector_inverses
             | by apply transformSelector_nonempty].
    - split; [apply reset_inverses |]. intros o g. simpl.
      by rewrite lookup_empty. }
  auto using mutual_inverses_unique.
Qed.

(** The round trip through the two lookups gives back every registered
    name but the empty one. *)
Lemma roundtrip_nonempty (r : t) (s : string) :
  reachable r → is_Some (classMap r !! s) → s ≠ "" →
  ∃ g, getGeneratedClassName r s = Some g ∧ getOriginalClassName r g = Some s.
Proof.
  intros Hr [g Hg] Hs. destruct (reachable_invariant r Hr) as (Hinv & _ & Hne).
  exists g. unfold getGeneratedClassName, getOriginalClassName.
  rewrite Hg. apply Hinv in Hg as Hrev. rewrite Hrev. simpl.
  apply Hne in Hg. apply truthy_true in Hg, Hs. by rewrite Hg, Hs.
Qed.

(** *** Claims on the naming registry *)

(** C5 (the code departs from it): every registered name should come back
    from [getOriginalClassName (getGeneratedClassName s)].  The empty
    name is registered like any other, the two maps hold it in both
    directions, and yet [getOriginalClassName] answers [null] for its
    generated name, because [x || null] takes the empty string for a
    missing entry. *)
Theorem roundtrip_empty_name_lost (p : string) :
  let r := (generateClassName (constructor p) "").1 in
  let g := p +:+ "class-0" in
  classMap r !! "" = Some g
  ∧ reverseMap r !! g = Some ""
  ∧ getGeneratedClassName r "" = Some g
  ∧ getOriginalClassName r g = None.
Proof.
  assert (generateClassName (constructor p) ""
          = (mk p {[ "" := p +:+ "class-0" ]} {[ p +:+ "class-0" := "" ]} 1,
             p +:+ "class-0")) as ->.
  { unfold generateClassName. simpl. rewrite lookup_empty. simpl.
    change (pretty 0) with "0".
    assert (∀ g n, unique_loop ∅ g g 0 n = g) as ->; [| done].
    intros g n. destruct n; simpl; by rewrite lookup_empty. }
  unfold getGeneratedClassName, getOriginalClassName. simpl.
  rewrite !lookup_singleton_eq. simpl.
  by rewrite truthy_app_r.
Qed.

(** The uniqueness loop at work: [1x] is no valid name and gets the
    counter's name, which [class-1] holds already. *)
Lemma generateClassName_collision :
  let r1 := (generateClassName (constructor "wf-") "class-1").1 in
  (generateClassName (constructor "wf-") "class-1").2 = "wf-class-1"
  ∧ (generateClassName r1 "1x").2 = "wf-class-1-1".
Proof. vm_compute. done. Qed.

(** C6: a second [generateClassName] of the same name returns the same
    generated name and leaves the registry as the first call left it; so
    however often the name is generated, each map grows by one entry at
    most. *)
Theorem generateClassName_idempotent (r : t) (s : string) :
  generateClassName (generateClassName r s).1 s
    = ((generateClassName r s).1, (generateClassName r s).2)
  ∧ ∀ n, let rn := Nat.iter n (λ x, (generateClassName x s).1) r in
         (1 ≤ n → rn = (generateClassName r s).1)
         ∧ size (classMap rn) ≤ S (size (classMap r))
         ∧ size (reverseMap rn) ≤ S (size (reverseMap r)).
Proof.
  assert (generateClassName (generateClassName r s).1 s
          = ((generateClassName r s).1, (generateClassName r s).2)) as Hagain.
  { apply generateClassName_known, generateClassName_registers. }
  split; [done |].
  assert (size (classMap (generateClassName r s).1) ≤ S (size (classMap r))
          ∧ size (reverseMap (generateClassName r s).1) ≤ S (size (reverseMap r)))
    as [Hc Hr].
  { destruct (classMap r !! s) as [g0|] eqn:E.
    { rewrite (generateClassName_known r s g0) by done. simpl. lia. }
    pose proof (generateClassName_new_fresh r s E) as Hfresh.
    unfold generateClassName in *. rewrite E in *. simpl in *.
    rewrite !map_size_insert_None by done. lia. }
  intros n. induction n as [|n IH]; simpl.
  - split; [lia | split; lia].
  - destruct IH as (Hn & _ & _).
    assert (Nat.iter (S n) (λ x, (generateClassName x s).1) r
            = (generateClassName r s).1) as Hiter.
    { simpl. destruct n as [|n]; [done |].
      rewrite Hn by lia. by rewrite Hagain. }
    simpl in Hiter. rewrite Hiter. done.
Qed.

(** C1 as stated fails: a selector that was rewritten is rewritten again,
    its class names being taken for new originals. *)
Lemma transformSelector_twice_differs :
  let r0 := constructor "wf-" in
  let r1 := (transformSelector r0 ".a").1 in
  let once := (transformSelector r0 ".a").2 in
  once = ".wf-a"
  ∧ (transformSelector r1 once).2 = ".wf-wf-a"
  ∧ (transformSelector r1 once).2 ≠ once.
Proof. vm_compute. done. Qed.

(** C1, amended: rewriting the same selector text once more through the
    registry the first rewrite left gives the same rewritten text and
    leaves that registry as it is: no class name of the original text is
    ever prefixed twice. *)
Theorem transformSelector_again_same (r : t) (selector : string) :
  transformSelector (transformSelector r selector).1 selector
  = transformSelector r selector.
Proof.
  unfold transformSelector.
  destruct (replace_pieces_spec r (scan re_class_token 0 selector))
    as (_ & Hall & Hout).
  rewrite replace_pieces_registered by done.
  rewrite <- Hout. by destruct (replace_pieces r _).
Qed.

End naming.

(** ** The snapshot of the class map *)

Section snapshot.
Import ClassNamingSystem.

(** The object holds the entries of [classMap], but for the key
    ["__proto__"]. *)
Lemma getAllClassMappings_lookup (r : t) (k : string) :
  getAllClassMappings r !! k
  = if decide (k = "__proto__") then None else classMap r !! k.
Proof.
  unfold getAllClassMappings. revert k.
  apply (map_fold_weak_ind
           (λ (res m : gmap string string),
              ∀ k, res !! k = if decide (k = "__proto__") then None else m !! k)).
  - intros k. rewrite !lookup_empty. by case_decide.
  - intros i x m res Hi IH k. unfold object_set.
    case_bool_decide as Hproto.
    + rewrite IH. case_decide; [done |]. rewrite lookup_insert_ne; congruence.
    + rewrite !lookup_insert. case_decide as Hik; [| by rewrite IH].
      subst i. by rewrite decide_False.
Qed.

(** The object is a new one: nothing reaches it but the reference that is
    returned, so whatever is done to it leaves the instance, its two maps
    and its counter as they were. *)
Lemma getAllClassMappings_frame (this : positive) (σ : gmap positive ObjectStore.object)
    (r : t) :
  ObjectStore.instance this σ = Some r →
  ∃ σ' l,
    ObjectStore.getAllClassMappings this σ = Some (σ', l)
    ∧ σ !! l = None
    ∧ ObjectStore.own_properties l σ' = Some (getAllClassMappings r)
    ∧ ∀ o, ObjectStore.instance this (<[l := o]> σ') = Some r.
Proof.
  intros Hinst. unfold ObjectStore.getAllClassMappings, ObjectStore.alloc.
  rewrite Hinst. eexists _, _. split; [done |].
  set (l := fresh (dom σ)).
  assert (σ !! l = None) as Hl.
  { apply not_elem_of_dom. apply is_fresh. }
  split; [done |]. split.
  { unfold ObjectStore.own_properties. by rewrite lookup_insert_eq. }
  intros o. rewrite insert_insert_eq.
  unfold ObjectStore.instance in *.
  destruct (σ !! this) as [[| |p cm rm n]|] eqn:Hthis; try done.
  destruct (σ !! cm) as [[cmap| |]|] eqn:Hcm; try done.
  destruct (σ !! rm) as [[rmap| |]|] eqn:Hrm; try done.
  rewrite lookup_insert_ne, Hthis by congruence.
  rewrite lookup_insert_ne, Hcm by congruence.
  by rewrite lookup_insert_ne, Hrm by congruence.
Qed.

(** Two calls in a row give two objects with the same properties. *)
Lemma getAllClassMappings_twice (this : positive) (σ : gmap positive ObjectStore.object)
    (r : t) :
  ObjectStore.instance this σ = Some r →
  ∃ σ1 l1 σ2 l2,
    ObjectStore.getAllClassMappings this σ = Some (σ1, l1)
    ∧ ObjectStore.getAllClassMappings this σ1 = Some (σ2, l2)
    ∧ l1 ≠ l2
    ∧ ObjectStore.own_properties l1 σ2 = ObjectStore.own_properties l2 σ2
    ∧ ObjectStore.instance this σ2 = Some r.
Proof.
  intros Hinst.
  destruct (getAllClassMappings_frame this σ r Hinst)
    as (σ1 & l1 & Hcall1 & Hl1 & Hown1 & Hframe1).
  assert (ObjectStore.instance this σ1 = Some r) as Hinst1.
  { unfold ObjectStore.own_properties in Hown1.
    destruct (σ1 !! l1) as [o|] eqn:E; [| done].
    specialize (Hframe1 o). by rewrite insert_id in Hframe1. }
  destruct (getAllClassMappings_frame this σ1 r Hinst1)
    as (σ2 & l2 & Hcall2 & Hl2 & Hown2 & Hframe2).
  exists σ1, l1, σ2, l2. split; [done |]. split; [done |].
  assert (l1 ≠ l2) as Hne.
  { intros ->. unfold ObjectStore.own_properties in Hown1.
    by rewrite Hl2 in Hown1. }
  split; [done |].
  unfold ObjectStore.getAllClassMappings, ObjectStore.alloc in Hcall2.
  rewrite Hinst1 in Hcall2. injection Hcall2 as <- <-.
  split.
  - rewrite Hown2. unfold ObjectStore.own_properties in *.
    rewrite lookup_insert_ne; [done |]. intros E. apply Hne. by rewrite <- E.
  - unfold ObjectStore.own_properties in Hown2.
    destruct (_ !! fresh (dom σ1)) as [o|] eqn:E; [| done].
    specialize (Hframe2 o). by rewrite insert_id in Hframe2.
Qed.

(** C10 (the code departs from it): the returned object should hold the
    whole mapping.  A class named [__proto__] is registered like any
    other, but the object built for the caller has no entry for it: the
    assignment [mappings["__proto__"] = generated] goes to the setter
    inherited from [Object.prototype]. *)
Theorem getAllClassMappings_misses_proto :
  (∀ r : t,
     let r1 := (generateClassName r "__proto__").1 in
     classMap r1 !! "__proto__" = Some (generateClassName r "__proto__").2
     ∧ getAllClassMappings r1 !! "__proto__" = None)
  ∧ (let r := (generateClassName (constructor "wf-") "__proto__").1 in
     classMap r !! "__proto__" = Some "wf-__proto__"
     ∧ getAllClassMappings r = ∅).
Proof.
  split; [| vm_compute; done].
  intros r. split; [apply generateClassName_registers |].
  by rewrite getAllClassMappings_lookup.
Qed.

End snapshot.

(** ** Specificity *)

Section specificity.
Import CSSParser.

(** C3 (the code departs from it): a selector of one class should weigh
    10.  The third pattern, meant for tag names and pseudo-elements, also
    matches the name inside the class token, so the selector weighs 11. *)
Theorem calculateSpecificity_single_class :
  match_count re_id ".x" = 0
  ∧ match_count re_class_attr_pseudo ".x" = 1
  ∧ match_count re_element ".x" = 1
  ∧ calculateSpecificity ".x" = 11.
Proof. vm_compute. done. Qed.

(** C4: an id outweighs nine chained classes and does not outweigh ten. *)
Theorem calculateSpecificity_crossover :
  calculateSpecificity "#a" > calculateSpecificity ".a.b.c.d.e.f.g.h.i"
  ∧ ¬ (calculateSpecificity "#a" > calculateSpecificity ".a.b.c.d.e.f.g.h.i.j").
Proof. vm_compute. split; lia. Qed.

End specificity.

(** ** Media queries *)

Section media.
Import CSSParser WebflowElementMapper ConversionManager.

Lemma walk_cons (p : CSSParser.parent) (n : node) (ns : list node) :
  walk p (n :: ns) = walk_node p n ++ walk p ns.
Proof. reflexivity. Qed.

Lemma walk_node_rule (p : CSSParser.parent) (sel text : string) (ns : list node) :
  walk_node p (Rule sel text ns) = (p, Rule sel text ns) :: walk ParentRule ns.
Proof. reflexivity. Qed.

Lemma walk_node_atrule (p : CSSParser.parent) (name params : string) (ns : list node) :
  walk_node p (AtRule name params ns)
  = (p, AtRule name params ns) :: walk (ParentAtRule name) ns.
Proof. reflexivity. Qed.

Lemma omap_cons {A B : Type} (f : A → option B) (x : A) (l : list A) :
  omap f (x :: l)
  = match f x with Some y => y :: omap f l | None => omap f l end.
Proof. reflexivity. Qed.

(** Rules right under [@media] that hold declarations only stay out of
    the style rules. *)
Lemma media_direct_rules_isolated (params : string) (rs : list node) :
  Forall (λ n, ∃ sel text ds,
            n = Rule sel text ds ∧ Forall (λ d, ∃ p v, d = Decl p v) ds) rs →
  styleRules (parse [AtRule "media" params rs]) = [].
Proof.
  intros Hrs. unfold parse, top_level_rules. cbn [styleRules].
  rewrite walk_cons, walk_node_atrule, app_nil_r, omap_cons. cbn [snd].
  induction Hrs as [|n rs (sel & text & ds & -> & Hds) _ IH]; [done |].
  rewrite walk_cons, walk_node_rule, omap_app, IH, app_nil_r, omap_cons.
  cbn [snd fst inside_media]. rewrite bool_decide_true by done.
  clear IH. induction Hds as [|d ds (p & v & ->) _ IH]; [done |].
  rewrite walk_cons, omap_app, IH, app_nil_r. done.
Qed.

(** A rule right under [@media] stays out of the style rules and out of
    the styles of the elements. *)
Lemma direct_media_rule_isolated :
  styleRules (parse Scenario.direct_media) = []
  ∧ selector <$> mediaQueries (parse Scenario.direct_media) ≫= rules = ["div"]
  ∧ styles_at 1 (convert Scenario.one_div Scenario.direct_media None) = Some ∅.
Proof. vm_compute. done. Qed.

(** C8 (the code departs from it): a rule inside an [@media] block should
    stay out of the top-level rules and out of the styles resolved from
    them.  [parse] skips a rule only when its parent is the [@media]
    at-rule itself: a rule one level further down, here under [@supports],
    is pushed onto [styleRules] as well as onto the rules of the media
    query, and its declarations reach the element it matches. *)
Theorem nested_media_rule_leaks :
  selector <$> styleRules (parse Scenario.nested_media) = ["div"]
  ∧ selector <$> mediaQueries (parse Scenario.nested_media) ≫= rules = ["div"]
  ∧ styles_at 1 (convert Scenario.one_div Scenario.nested_media None)
    = Some {[ "color" := "red" ]}
  ∧ styles_at 1 (convert Scenario.one_div [] None) = Some ∅.
Proof. vm_compute. done. Qed.

End media.

(** ** The whole conversion *)

Section conversion.
Import CSSParser HTMLParser WebflowElementMapper ConversionManager.

(** The cascade itself resolves the scenario as expected: for an element
    that carries the tag name as its type and the generated class, the
    class rule is merged after the tag rule. *)
Lemma cascade_class_beats_tag :
  let processedCss :=
    (processCssClasses
       (ClassNamingSystem.generateClassName
          (ClassNamingSystem.generateClassName
             (ClassNamingSystem.constructor "wf-") "container").1 "text").1
       (CSSParser.parse Scenario.stylesheet)).2 in
  let element :=
    mkWebflowElement "webflow-el-2" (Named "p") (Some "preset-paragraph")
      ∅ [] (Some "webflow-el-1") (Some ["wf-text"]) in
  (mergedProperties <$>
     (group_by_selector (styleRules processedCss) ∅ ≫= findMatchingRules element))
  = Some {[ "color" := "blue" ]}.
Proof. vm_compute. reflexivity. Qed.

(** C2 (the code departs from it): the class map is the expected one, but
    the [p] element should end with the style [{color: "blue"}].  The
    element created for it carries the type [paragraph] and no [classes]
    (nothing calls [applyClass]), so [findMatchingRules] looks up neither
    [.wf-text] nor [p], no rule matches, and the element keeps the empty
    style it was created with. *)
Theorem end_to_end_p_unstyled :
  ∃ res p,
    convert Scenario.markup Scenario.stylesheet (Some "wf-") = Some res
    ∧ ConversionManager.classMap res
      = {[ "container" := "wf-container"; "text" := "wf-text" ]}
    ∧ createdElements (elements res) = [("el-0", 0); ("el-1", 1); ("el-2", 2)]
    ∧ objects (elements res) !! 2 = Some p
    ∧ WebflowElementMapper.id p = "webflow-el-2"
    ∧ WebflowElementMapper.type p = Named "paragraph"
    ∧ WebflowElementMapper.classes p = None
    ∧ styles p = ∅
    ∧ styles p ≠ {[ "color" := "blue" ]}.
Proof.
  eexists _, _. split; [vm_compute; reflexivity |].
  split; [vm_compute; reflexivity |].
  repeat (split; [reflexivity |]).
  vm_compute. done.
Qed.

End conversion.

(** ** The class list of a parsed element *)

Section class_list.
Import HTMLParser.

Lemma split_pieces_nonempty (ps : list piece) : split_pieces ps ≠ [].
Proof.
  induction ps as [|[c|x] ps IH]; simpl; [done | | done].
  by destruct (split_pieces ps).
Qed.

(** A word and what follows it: the word goes in front of the first
    text. *)
Lemma split_whitespace_word (w t : string) :
  all_chars (λ c, negb (re_s c)) w = true →
  split_whitespace (w +:+ t)
  = match split_whitespace t with
    | x :: xs => (w +:+ x) :: xs
    | [] => [w]
    end.
Proof.
  unfold split_whitespace. induction w as [|c w IH]; intros Hw.
  - rewrite app_empty_l. destruct (split_pieces _) eqn:E; [| done].
    by apply split_pieces_nonempty in E.
  - simpl in Hw. apply andb_true_iff in Hw as [Hc Hw].
    apply negb_true_iff in Hc.
    rewrite app_cons, scan_miss by (unfold run_of; simpl; by rewrite Hc).
    simpl. rewrite IH by done.
    destruct (split_pieces (scan _ 0 t)) eqn:E; [| done].
    by apply split_pieces_nonempty in E.
Qed.

(** White space before what is not white space is one separator. *)
Lemma split_whitespace_sep (sep t : string) :
  white sep → sep ≠ "" → take_while re_s t = "" →
  split_whitespace (sep +:+ t) = "" :: split_whitespace t.
Proof.
  intros Hsep Hne Ht. destruct sep as [|c sep]; [done |].
  unfold split_whitespace. rewrite app_cons.
  rewrite (scan_hit _ _ _ (String c sep)).
  - rewrite scan_skip.
    replace (String.length (String c sep) - 1) with (String.length sep)
      by (simpl; lia).
    by rewrite drop_app_length.
  - unfold run_of. rewrite <- app_cons. by rewrite take_while_app_stop.
Qed.

Lemma written_starts_with_name (items : list (string * string)) :
  well_separated items → take_while re_s (written items) = "".
Proof.
  destruct items as [|[n sep] rest]; [done |].
  intros [[Hne Hn] _]. destruct n as [|c n]; [done |].
  simpl in Hn. apply andb_true_iff in Hn as [Hc _]. apply negb_true_iff in Hc.
  cbn [written]. rewrite app_cons. simpl. by rewrite Hc.
Qed.

Lemma split_whitespace_written (items : list (string * string)) :
  well_separated items →
  filter (λ x, truthy x) (split_whitespace (written items)) = items.*1.
Proof.
  induction items as [|[n sep] rest IH]; [done |].
  intros (Hn & Hsep & Hbetween & Hrest). specialize (IH Hrest).
  assert (truthy n) as Hnt by (apply Is_true_true, truthy_true, Hn).
  cbn [written fmap list_fmap fst]. rewrite split_whitespace_word by apply Hn.
  destruct (decide (sep = "")) as [-> | Hne].
  - destruct rest as [|item rest]; [| by destruct Hbetween].
    cbn [written]. rewrite app_empty_l. change (split_whitespace "") with [""].
    cbv iota. rewrite app_empty_r. by rewrite filter_cons_True.
  - rewrite split_whitespace_sep
      by (done || by apply written_starts_with_name).
    rewrite app_empty_r, filter_cons_True by done. by rewrite IH.
Qed.

(** C9 as stated fails: a name written twice is kept twice. *)
Lemma parseElement_keeps_duplicates :
  classes <$> parse (Element "div" {[ "class" := "a b a" ]} [])
  = Some ["a"; "b"; "a"]
  ∧ ["a"; "b"; "a"] ≠ ["a"; "b"]
  ∧ ¬ NoDup ["a"; "b"; "a"].
Proof.
  split; [vm_compute; reflexivity |]. split; [done |].
  intros Hnd. apply NoDup_cons in Hnd as [Hin _]. apply Hin. set_solver.
Qed.

(** C9, amended: the class list of a parsed element is the names of the
    class attribute in the order they are written, every occurrence
    kept, whatever white space stands before, between and after them. *)
Theorem parseElement_classes_in_order (idCounter : nat) (name : string)
    (attribs : gmap string string) (childNodes : list dom)
    (lead : string) (items : list (string * string)) :
  white lead → well_separated items →
  attribs !! "class" = Some (lead +:+ written items) →
  ∃ parsed, (parseElement idCounter (Element name attribs childNodes)).2 = Some parsed
            ∧ classes parsed = items.*1.
Proof.
  intros Hlead Hitems Hattr. simpl.
  match goal with |- context [let '(_, _) := ?e in _] => destruct e as [n kids] end.
  eexists. split; [done |]. simpl.
  unfold parse_classes. rewrite Hattr.
  destruct (truthy (lead +:+ written items)) eqn:Htruthy.
  - destruct (decide (lead = "")) as [-> | Hne].
    + rewrite app_empty_l. by apply split_whitespace_written.
    + rewrite split_whitespace_sep
        by (done || by apply written_starts_with_name).
      rewrite filter_cons_False by (by intros []).
      by apply split_whitespace_written.
  - unfold truthy in Htruthy. apply negb_false_iff, bool_decide_eq_true in Htruthy.
    apply app_eq_empty in Htruthy as [_ Hw].
    destruct items as [|[w sep] rest]; [done |].
    cbn [written] in Hw. apply app_eq_empty in Hw as [-> _].
    by destruct Hitems as [[? _] _].
Qed.

Lemma parseElement_classes_in_order_witness :
  ∃ parsed, (parseElement 0 (Element "div" {[ "class" := " a  b a" ]} [])).2
            = Some parsed
            ∧ classes parsed = ["a"; "b"; "a"].
Proof.
  apply (parseElement_classes_in_order 0 "div" {[ "class" := " a  b a" ]} []
           " " [("a", "  "); ("b", " "); ("a", "")]).
  - reflexivity.
  - vm_compute. repeat split; congruence.
  - vm_compute. reflexivity.
Defined.

End class_list.

(** ** Renaming and specificity

    The patterns of [calculateSpecificity] see an identifier only as a run
    of identifier characters that ends where the run ends.  Putting other
    such runs for some of them changes no count. *)

Section renaming.
Import ClassNamingSystem CSSParser.

Lemma drop_cons (n : nat) (c : ascii) (s : string) :
  drop (S n) (String c s) = drop n s.
Proof. reflexivity. Qed.

Lemma drop_0 (s : string) : drop 0 s = s.
Proof. by destruct s. Qed.

Lemma drop_app_plus (a b : string) (n : nat) :
  drop (String.length a + n) (a +:+ b) = drop n b.
Proof. induction a as [|c a IH]; [done | by rewrite app_cons]. Qed.

Lemma length_drop_le (n : nat) (s : string) :
  String.length (drop n s) ≤ String.length s.
Proof.
  revert s. induction n as [|n IH]; intros s; [by rewrite drop_0 |].
  destruct s as [|c s]; [done |]. rewrite drop_cons. simpl.
  specialize (IH s). lia.
Qed.

Lemma take_while_drop (p : ascii → bool) (s : string) :
  take_while p s +:+ drop (String.length (take_while p s)) s = s.
Proof.
  induction s as [|c s IH]; [done |]. simpl.
  destruct (p c); [| done]. simpl. by rewrite app_cons, drop_cons, IH.
Qed.

Lemma take_while_drop_stops (p : ascii → bool) (s : string) :
  take_while p (drop (String.length (take_while p s)) s) = "".
Proof.
  induction s as [|c s IH]; [done |]. simpl.
  destruct (p c) eqn:E; simpl; [by rewrite drop_cons |].
  rewrite ?drop_0. simpl. by rewrite E.
Qed.

Lemma ident_not_char (k c : ascii) :
  cls_ident k = false → cls_ident c = true → is_char k c = false.
Proof.
  intros Hk Hc. unfold is_char. case_bool_decide; [| done]. congruence.
Qed.

Lemma ident_re_dot (c : ascii) : cls_ident c = true → re_dot c = true.
Proof.
  intros Hc. unfold re_dot.
  by rewrite !(ident_not_char _ c) by done.
Qed.

(** The identifier run at the head of related strings: empty in both or
    in neither, and what follows it is related. *)
Lemma renamed_run_split (s s' : string) :
  renamed s s' →
  (take_while cls_ident s = "" ↔ take_while cls_ident s' = "")
  ∧ renamed (drop (String.length (take_while cls_ident s)) s)
            (drop (String.length (take_while cls_ident s')) s').
Proof.
  induction 1 as [|c s s' H [IH1 IH2]|x g s s' [Hx Hxi] [Hg Hgi] Hs H [IH1 IH2]].
  - split; [done | constructor].
  - simpl. destruct (cls_ident c).
    + split; [done |]. simpl. by rewrite !drop_cons.
    + split; [done |]. rewrite !drop_0. by constructor.
  - assert (stops s') as Hs' by by apply IH1.
    rewrite !take_while_app_stop by done.
    split.
    + split; intros E; [by rewrite E in Hx | by rewrite E in Hg].
    + by rewrite !drop_app_length.
Qed.

Lemma renamed_stops (s s' : string) : renamed s s' → stops s → stops s'.
Proof. intros H. by apply renamed_run_split in H as [[? _] _]. Qed.

Lemma respects_alt (a b : matcher) : respects a → respects b → respects (alt a b).
Proof.
  intros Ha Hb c t t' H. unfold alt.
  specialize (Ha c t t' H). specialize (Hb c t t' H).
  destruct (a (String c t)), (a (String c t')); done.
Qed.

Lemma respects_lead_then_run (k : ascii) : respects (lead_then_run k cls_ident).
Proof.
  intros c t t' H. unfold lead_then_run.
  destruct (is_char k c); [| done].
  destruct (renamed_run_split t t' H) as [[Hiff1 Hiff2] Hdrop].
  destruct (take_while cls_ident t) as [|a u] eqn:E1,
           (take_while cls_ident t') as [|a' u'] eqn:E2; try done.
  - by specialize (Hiff1 eq_refl).
  - by specialize (Hiff2 eq_refl).
Qed.

Lemma respects_run_of : respects (run_of cls_ident).
Proof.
  intros c t t' H. unfold run_of. simpl.
  destruct (cls_ident c); [| done].
  destruct (renamed_run_split t t' H) as [_ Hdrop]. done.
Qed.

Lemma respects_colon2 : respects re_colon2_ident.
Proof.
  intros c t t' H. unfold re_colon2_ident.
  destruct (is_char ":" c); [| done].
  inversion H as [|c2 u u' Hu|x g u u' [Hx Hxi] [Hg Hgi] Hstop Hu]; subst.
  - done.
  - pose proof (respects_lead_then_run ":" c2 u u' Hu) as Hin.
    destruct (lead_then_run ":" cls_ident (String c2 u)),
             (lead_then_run ":" cls_ident (String c2 u')); try done.
    simpl. destruct Hin as (_ & _ & Hin). done.
  - destruct x as [|cx x]; [done |]. destruct g as [|cg g]; [done |].
    simpl in Hxi, Hgi.
    apply andb_true_iff in Hxi as [Hcx _]. apply andb_true_iff in Hgi as [Hcg _].
    rewrite !app_cons. unfold lead_then_run.
    by rewrite !(ident_not_char ":") by done.
Qed.

(** The lazy part of the attribute pattern runs over an identifier. *)
Lemma lazy_until_bracket_run (x s : string) :
  all_chars cls_ident x = true →
  lazy_until_bracket (x +:+ s) = (λ y, x +:+ y) <$> lazy_until_bracket s.
Proof.
  intros Hx. induction x as [|c x IH].
  - rewrite app_empty_l. by destruct (lazy_until_bracket s).
  - simpl in Hx. apply andb_true_iff in Hx as [Hc Hx].
    rewrite app_cons. simpl.
    rewrite (ident_not_char "]"), ident_re_dot, IH by done.
    by destruct (lazy_until_bracket s).
Qed.

Lemma lazy_until_bracket_renamed (s s' : string) :
  renamed s s' →
  match lazy_until_bracket s, lazy_until_bracket s' with
  | Some y, Some y' =>
      renamed (drop (String.length y) s) (drop (String.length y') s')
  | None, None => True
  | _, _ => False
  end.
Proof.
  induction 1 as [|c s s' H IH|x g s s' [Hx Hxi] [Hg Hgi] Hs H IH].
  - done.
  - simpl. destruct (is_char "]" c); [simpl; by rewrite !drop_cons, !drop_0 |].
    destruct (re_dot c); [| done].
    destruct (lazy_until_bracket s), (lazy_until_bracket s'); done.
  - rewrite !lazy_until_bracket_run by done.
    destruct (lazy_until_bracket s) as [y|], (lazy_until_bracket s') as [y'|];
      try done.
    simpl. rewrite !length_app, !drop_app_plus. done.
Qed.

Lemma respects_attr : respects re_attr.
Proof.
  intros o t t' H. unfold re_attr.
  inversion H as [|c1 u u' Hu|x g u u' [Hx Hxi] [Hg Hgi] Hstop Hu]; subst.
  - done.
  - destruct (is_char "[" o && re_dot c1); [| done].
    pose proof (lazy_until_bracket_renamed u u' Hu) as Hin.
    destruct (lazy_until_bracket u), (lazy_until_bracket u'); done.
  - destruct x as [|cx x]; [done |]. destruct g as [|cg g]; [done |].
    simpl in Hxi, Hgi.
    apply andb_true_iff in Hxi as [Hcx Hxi]. apply andb_true_iff in Hgi as [Hcg Hgi].
    rewrite !app_cons, !(ident_re_dot cx), !(ident_re_dot cg) by done.
    destruct (is_char "[" o); [| done]. simpl.
    rewrite !lazy_until_bracket_run by done.
    pose proof (lazy_until_bracket_renamed u u' Hu) as Hin.
    destruct (lazy_until_bracket u) as [y|], (lazy_until_bracket u') as [y'|];
      try done.
    simpl. rewrite !length_app, !drop_cons, !drop_app_plus. done.
Qed.

(** *** Counting the matches *)

Lemma match_count_hit (m : matcher) (c : ascii) (t x : string) :
  m (String c t) = Some x → x ≠ "" →
  match_count m (String c t)
  = S (match_count m (drop (String.length x) (String c t))).
Proof.
  intros E Hx. unfold match_count. rewrite (scan_hit m c t x E), scan_skip.
  destruct x as [|cx x]; [done |]. simpl. by rewrite Nat.sub_0_r, drop_cons.
Qed.

Lemma match_count_miss (m : matcher) (c : ascii) (t : string) :
  m (String c t) = None → match_count m (String c t) = match_count m t.
Proof. intros E. unfold match_count. by rewrite (scan_miss m c t E). Qed.

(** A pattern that starts with no identifier character walks through an
    identifier without a match. *)
Lemma match_count_walk (m : matcher) (x rest : string) :
  (∀ c t, cls_ident c = true → m (String c t) = None) →
  all_chars cls_ident x = true →
  match_count m (x +:+ rest) = match_count m rest.
Proof.
  intros Hm Hx. induction x as [|c x IH]; [done |].
  simpl in Hx. apply andb_true_iff in Hx as [Hc Hx].
  rewrite app_cons, match_count_miss by by apply Hm. by apply IH.
Qed.

Lemma re_id_walk (c : ascii) (t : string) :
  cls_ident c = true → re_id (String c t) = None.
Proof.
  intros Hc. unfold re_id, lead_then_run. by rewrite (ident_not_char "#").
Qed.

Lemma re_class_attr_pseudo_walk (c : ascii) (t : string) :
  cls_ident c = true → re_class_attr_pseudo (String c t) = None.
Proof.
  intros Hc.
  unfold re_class_attr_pseudo, alt, re_dot_ident, re_colon_ident, re_attr,
    lead_then_run.
  rewrite (ident_not_char "."), (ident_not_char "["), (ident_not_char ":") by done.
  by destruct t.
Qed.

(** The element pattern takes an identifier whole. *)
Lemma re_element_run (x rest : string) :
  ident_name x → stops rest →
  match_count re_element (x +:+ rest) = S (match_count re_element rest).
Proof.
  intros [Hx Hxi] Hrest. destruct x as [|c x]; [done |].
  rewrite app_cons.
  rewrite (match_count_hit _ _ _ (String c x)); [| | done].
  - rewrite <- app_cons. by rewrite drop_app_length.
  - unfold re_element, alt, run_of. rewrite <- app_cons.
    by rewrite take_while_app_stop.
Qed.

(** Renaming keeps the number of matches of a pattern that respects it
    and counts an identifier the same whatever its text. *)
Lemma match_count_renamed (m : matcher) (F : nat → nat) :
  respects m →
  (∀ x rest, ident_name x → stops rest →
     match_count m (x +:+ rest) = F (match_count m rest)) →
  ∀ s s', renamed s s' → match_count m s = match_count m s'.
Proof.
  intros Hm Hrun s.
  remember (S (String.length s)) as n eqn:Hn.
  assert (String.length s < n) as Hlen by lia. clear Hn.
  revert s Hlen. induction n as [|n IH]; intros s Hlen s' H; [lia |].
  inversion H as [|c t t' Ht|x g u u' Hx Hg Hstop Hu]; subst.
  - done.
  - simpl in Hlen. specialize (Hm c t t' Ht).
    destruct (m (String c t)) as [y|] eqn:E1,
             (m (String c t')) as [y'|] eqn:E2; try done.
    + destruct Hm as (Hy & Hy' & Hrest).
      rewrite (match_count_hit m c t y), (match_count_hit m c t' y') by done.
      f_equal. apply IH; [| done].
      destruct y as [|cy y]; [done |]. simpl. rewrite drop_cons.
      pose proof (length_drop_le (String.length y) t). lia.
    + rewrite !match_count_miss by done. apply IH; [lia | done].
  - rewrite !Hrun by eauto using renamed_stops. f_equal.
    apply IH; [| done]. rewrite length_app in Hlen.
    destruct Hx as [Hx _]. destruct x; [done |]. simpl in Hlen. lia.
Qed.

Lemma respects_re_id : respects re_id.
Proof. apply respects_lead_then_run. Qed.

Lemma respects_re_class_attr_pseudo : respects re_class_attr_pseudo.
Proof.
  repeat apply respects_alt;
    [apply respects_lead_then_run | apply respects_attr
    | apply respects_lead_then_run].
Qed.

Lemma respects_re_element : respects re_element.
Proof. apply respects_alt; [apply respects_run_of | apply respects_colon2]. Qed.

Lemma calculateSpecificity_renamed (s s' : string) :
  renamed s s' → calculateSpecificity s = calculateSpecificity s'.
Proof.
  intros H. unfold calculateSpecificity.
  rewrite (match_count_renamed re_id id respects_re_id) with (s' := s');
    [| | done].
  2: { intros x rest [_ Hx] _. by apply match_count_walk, Hx; apply re_id_walk. }
  rewrite (match_count_renamed re_class_attr_pseudo id
             respects_re_class_attr_pseudo) with (s' := s'); [| | done].
  2: { intros x rest [_ Hx] _.
       by apply match_count_walk, Hx; apply re_class_attr_pseudo_walk. }
  rewrite (match_count_renamed re_element S respects_re_element) with (s' := s');
    [done | | done].
  apply re_element_run.
Qed.

(** *** Registries that generate identifiers *)

Lemma candidate_ident (g : string) (k : nat) :
  ident_name g → ident_name (candidate g k).
Proof.
  intros [Hg Hgi]. split; [by apply candidate_nonempty |].
  destruct k as [|k]; [done |]. simpl.
  rewrite !all_chars_app, Hgi. simpl.
  apply (all_chars_impl is_digit); [apply digit_ident | apply pretty_nat_digits].
Qed.

Lemma generateClassName_ident (r : t) (s : string) :
  ident_registry r → ident_registry (generateClassName r s).1.
Proof.
  intros [Hp Hnames]. destruct (classMap r !! s) as [g0|] eqn:E.
  { by rewrite (generateClassName_known r s g0). }
  destruct (generateClassName_new_shape r s E) as (body & k & Hshape & Hbody & Hbi).
  split; [by rewrite generateClassName_prefix |].
  unfold generateClassName in *. rewrite E in *. simpl in *.
  intros o g. rewrite lookup_insert. case_decide; [| by apply Hnames].
  intros [= <-]. rewrite Hshape. apply candidate_ident. split.
  - intros Hempty. by apply app_eq_empty in Hempty as [_ ?].
  - by rewrite all_chars_app, Hp, Hbi.
Qed.

Lemma transformSelector_ident (r : t) (s : string) :
  ident_registry r → ident_registry (transformSelector r s).1.
Proof.
  apply (replace_pieces_preserves ident_registry generateClassName_ident).
Qed.

Lemma transformSelector_prefix (r : t) (s : string) :
  prefix (transformSelector r s).1 = prefix r.
Proof.
  apply (replace_pieces_preserves (λ r', prefix r' = prefix r)); [| done].
  intros r' s' Hr'. by rewrite generateClassName_prefix.
Qed.

Lemma reachable_prefix_ident (r : t) :
  reachable r → all_chars cls_ident (prefix r) = true → ident_registry r.
Proof.
  induction 1 as [p | r s _ IH | r s _ IH | r _ IH]; intros Hp.
  - split; [done |]. intros o g. simpl. by rewrite lookup_empty.
  - apply generateClassName_ident, IH. by rewrite generateClassName_prefix in Hp.
  - apply transformSelector_ident, IH. by rewrite transformSelector_prefix in Hp.
  - split; [done |]. intros o g. simpl. by rewrite lookup_empty.
Qed.

(** With such a registry the rewritten selector is a renaming of the
    selector. *)
Lemma replace_pieces_renamed (r : t) (s : string) :
  ident_registry r →
  renamed s (replace_pieces r (scan re_class_token 0 s)).2.
Proof.
  remember (S (String.length s)) as n eqn:Hn.
  assert (String.length s < n) as Hlen by lia. clear Hn.
  revert s r Hlen. induction n as [|n IH]; intros s r Hlen Hr; [lia |].
  destruct s as [|c t]; [constructor |].
  destruct (re_class_token (String c t)) as [x|] eqn:E.
  - rewrite (scan_hit _ _ _ _ E), scan_skip. simpl.
    unfold re_class_token, lead_then_run in E.
    destruct (is_char "." c) eqn:Hc; [| done].
    destruct (take_while cls_w_dash t) as [|a run] eqn:Hrun; [done |].
    injection E as <-.
    change (String.length (String c (String a run)) - 1)
      with (S (String.length run)).
    change (drop 1 (String c (String a run))) with (String a run).
    destruct (replacer_spec r (String c (String a run)) (String a run))
      as (_ & [g Hg] & Hnew).
    pose proof (replacer_preserves ident_registry generateClassName_ident r
                  (String c (String a run)) (String a run) Hr) as Hr1.
    destruct (replacer r _ _) as [r1 new]. simpl in *.
    assert (ident_name g) as Hgn by (by eapply Hr1).
    assert (String.length (drop (S (String.length run)) t) < n) as Hlen'.
    { pose proof (length_drop_le (S (String.length run)) t). lia. }
    specialize (IH (drop (S (String.length run)) t) r1 Hlen' Hr1).
    destruct (replace_pieces r1 _) as [r2 out]. simpl in *.
    rewrite Hnew, Hg. unfold rendered, or_null.
    destruct Hgn as [Hgne Hgi]. apply truthy_true in Hgne as Htr. rewrite Htr.
    unfold is_char in Hc. apply bool_decide_eq_true in Hc. subst c.
    rewrite app_assoc, app_cons, app_empty_l. constructor.
    rewrite <- (take_while_drop cls_w_dash t) at 1. rewrite Hrun. simpl String.length.
    constructor; [| done | | done].
    + split; [done |].
      rewrite <- Hrun. apply (take_while_all cls_w_dash).
    + replace (S (String.length run))
        with (String.length (take_while cls_w_dash t)) by by rewrite Hrun.
      apply (take_while_drop_stops cls_w_dash).
  - rewrite (scan_miss _ _ _ E). simpl.
    simpl in Hlen. assert (String.length t < n) as Hlen' by lia.
    specialize (IH t r Hlen' Hr).
    destruct (replace_pieces r _) as [r1 out]. simpl in *. by constructor.
Qed.

(** Every selector of one class weighs what [.x] weighs. *)
Lemma calculateSpecificity_one_class (x : string) :
  ident_name x → calculateSpecificity ("." +:+ x) = 11.
Proof.
  intros Hx. change 11 with (calculateSpecificity ".x").
  apply calculateSpecificity_renamed.
  rewrite <- (app_empty_r x). constructor.
  by apply (renamed_run x "x" "" ""); [| | | constructor].
Qed.

(** Rewriting a selector through such a registry keeps its specificity. *)
Lemma transformSelector_specificity (r : t) (selector : string) :
  ident_registry r →
  calculateSpecificity (transformSelector r selector).2
  = calculateSpecificity selector.
Proof.
  intros Hr. symmetry. by apply calculateSpecificity_renamed, replace_pieces_renamed.
Qed.

End renaming.

(** ** The specificity of rewritten rules *)

Section rewritten_rules.
Import ClassNamingSystem CSSParser ConversionManager.

Lemma top_level_rules_current (root : list node) :
  Forall specificity_current (top_level_rules root).
Proof.
  unfold top_level_rules. induction (walk ParentRoot root) as [|[p n] l IH];
    [constructor |].
  simpl. destruct n as [| sel text ns | |]; simpl; try done.
  destruct (inside_media p); [done |]. by constructor.
Qed.

Lemma media_rules_current (name : string) (ns : list node) :
  Forall specificity_current (media_rules name ns).
Proof.
  unfold media_rules. induction (walk (ParentAtRule name) ns) as [|[p n] l IH];
    [constructor |].
  simpl. destruct n as [| sel text ns' | |]; simpl; try done.
  by constructor.
Qed.

Lemma media_groups_current (root : list node) :
  Forall (λ mq, Forall specificity_current (rules mq)) (media_groups root).
Proof.
  unfold media_groups. induction (walk ParentRoot root) as [|[p n] l IH];
    [constructor |].
  simpl. destruct n as [| | name params ns |]; simpl; try done.
  case_bool_decide; [| done]. constructor; [| done].
  apply media_rules_current.
Qed.

(** A rewritten rule keeps the specificity it came with and records the
    selector it came with. *)
Lemma rewrite_rules_copies (r : t) (rs : list rule) :
  specificity <$> (rewrite_rules r rs).2 = specificity <$> rs
  ∧ originalSelector <$> (rewrite_rules r rs).2 = (λ rl, Some (selector rl)) <$> rs.
Proof.
  revert r. induction rs as [|rl rs IH]; intros r; [done |].
  simpl. unfold rewrite_rule.
  destruct (transformSelector r (selector rl)) as [r1 sel'].
  destruct (IH r1) as [IH1 IH2].
  destruct (rewrite_rules r1 rs) as [r2 rs']. simpl in *.
  split; f_equal; [exact IH1 | exact IH2].
Qed.

Lemma rewrite_rules_current (r : t) (rs : list rule) :
  ident_registry r → Forall specificity_current rs →
  ident_registry (rewrite_rules r rs).1
  ∧ Forall specificity_current (rewrite_rules r rs).2.
Proof.
  revert r. induction rs as [|rl rs IH]; intros r Hr Hall; simpl.
  - split; [done | constructor].
  - apply Forall_cons in Hall as [Hrl Hall].
    unfold rewrite_rule.
    pose proof (transformSelector_ident r (selector rl) Hr) as Hr1.
    pose proof (transformSelector_specificity r (selector rl) Hr) as Hspec.
    destruct (transformSelector r (selector rl)) as [r1 sel']. simpl in *.
    specialize (IH r1 Hr1 Hall).
    destruct (rewrite_rules r1 rs) as [r2 rs']. simpl in *.
    destruct IH as [Hr2 Hrs']. split; [done |]. constructor; [| done].
    unfold specificity_current in *. simpl. congruence.
Qed.

Lemma rewrite_media_current (r : t) (mqs : list mediaQuery) :
  ident_registry r →
  Forall (λ mq, Forall specificity_current (rules mq)) mqs →
  Forall (λ mq, Forall specificity_current (rules mq)) (rewrite_media r mqs).2.
Proof.
  revert r. induction mqs as [|mq mqs IH]; intros r Hr Hall; simpl.
  - constructor.
  - apply Forall_cons in Hall as [Hmq Hall].
    destruct (rewrite_rules_current r (rules mq) Hr Hmq) as [Hr1 Hrs].
    destruct (rewrite_rules r (rules mq)) as [r1 rs]. simpl in *.
    specialize (IH r1 Hr1 Hall).
    destruct (rewrite_media r1 mqs) as [r2 mqs']. simpl in *.
    by constructor.
Qed.

(** C7 as stated fails: [processCssClasses] copies the specificity the
    parser computed from the original selector, and with a prefix that
    holds a character such as a dot the rewritten selector weighs more. *)
Lemma processCssClasses_stale_specificity :
  ∃ rl,
    styleRules (processCssClasses (constructor "wf.")
                  (parse [Rule ".a" ".a{}" []])).2 = [rl]
    ∧ selector rl = ".wf.a"
    ∧ originalSelector rl = Some ".a"
    ∧ specificity rl = 11
    ∧ calculateSpecificity (selector rl) = 22
    ∧ ¬ specificity_current rl.
Proof.
  eexists. split; [vm_compute; reflexivity |].
  repeat (split; [vm_compute; reflexivity |]).
  unfold specificity_current. vm_compute. lia.
Qed.

(** C7, amended: when the prefix is made of letters, digits, underscores
    and hyphens only, every rule [processCssClasses] returns, in the
    top-level list and in every media-query group, stores the specificity
    of the rewritten selector it holds: the specificity copied from the
    parsed rule is that value, since such a rewrite changes no count. *)
Theorem processCssClasses_specificity (r : t) (root : list node) :
  reachable r →
  all_chars cls_ident (prefix r) = true →
  let processedCss := (processCssClasses r (parse root)).2 in
  Forall specificity_current (styleRules processedCss)
  ∧ Forall (λ mq, Forall specificity_current (rules mq))
           (mediaQueries processedCss).
Proof.
  intros Hreach Hp. pose proof (reachable_prefix_ident r Hreach Hp) as Hr.
  unfold processCssClasses. simpl.
  destruct (rewrite_rules_current r (top_level_rules root) Hr
              (top_level_rules_current root)) as [Hr1 Hrs].
  destruct (rewrite_rules r (top_level_rules root)) as [r1 rs]. simpl in *.
  pose proof (rewrite_media_current r1 (media_groups root) Hr1
                (media_groups_current root)) as Hmqs.
  destruct (rewrite_media r1 (media_groups root)) as [r2 mqs]. simpl in *.
  done.
Qed.

Lemma processCssClasses_specificity_witness :
  let processedCss :=
    (processCssClasses (constructor "wf-") (parse Scenario.stylesheet)).2 in
  Forall specificity_current (styleRules processedCss)
  ∧ Forall (λ mq, Forall specificity_current (rules mq))
           (mediaQueries processedCss).
Proof.
  apply (processCssClasses_specificity (constructor "wf-") Scenario.stylesheet).
  - apply reachable_new.
  - reflexivity.
Defined.

End rewritten_rules.

(** * Further properties *)

(** ** The naming registry, further *)

Section naming_further.
Import ClassNamingSystem.

Lemma generateClassName_counts (r : t) (s : string) :
  counts_entries r → counts_entries (generateClassName r s).1.
Proof.
  intros [Hc Hs]. destruct (classMap r !! s) as [g0|] eqn:E.
  { by rewrite (generateClassName_known r s g0). }
  pose proof (generateClassName_new_fresh r s E) as Hfresh.
  unfold generateClassName in *. rewrite E in *. simpl in *.
  unfold counts_entries. simpl.
  rewrite !map_size_insert_None by done. lia.
Qed.

(** X1: in every reachable registry the counter is the number of
    registered names, and the two maps have that many entries each. *)
Theorem counter_counts_entries (r : t) :
  reachable r →
  counter r = size (classMap r) ∧ size (reverseMap r) = size (classMap r).
Proof.
  induction 1 as [p | r s _ IH | r s _ IH | r _ IH].
  - done.
  - by apply generateClassName_counts.
  - by apply (replace_pieces_preserves counts_entries generateClassName_counts).
  - done.
Qed.

Lemma counter_counts_entries_witness :
  let r := (transformSelector
              (generateClassName (constructor "wf-") "a").1 ".a .b").1 in
  counter r = size (classMap r) ∧ size (reverseMap r) = size (classMap r).
Proof.
  apply (counter_counts_entries
           (transformSelector
              (generateClassName (constructor "wf-") "a").1 ".a .b").1).
  apply reachable_transform, reachable_generate, reachable_new.
Defined.

Lemma generateClassName_prefixed (r : t) (s : string) :
  prefixed r → prefixed (generateClassName r s).1.
Proof.
  intros Hp. destruct (classMap r !! s) as [g0|] eqn:E.
  { by rewrite (generateClassName_known r s g0). }
  destruct (generateClassName_new_shape r s E) as (body & k & Hshape & _ & _).
  intros o g. rewrite generateClassName_prefix.
  unfold generateClassName in *. rewrite E in *. simpl in *.
  rewrite lookup_insert. case_decide; [| by apply Hp].
  intros [= <-]. rewrite Hshape. destruct k as [|k]; simpl.
  - by exists body.
  - exists (body +:+ "-" +:+ pretty (S k)). by rewrite app_assoc.
Qed.

Lemma reachable_prefixed (r : t) : reachable r → prefixed r.
Proof.
  induction 1 as [p | r s _ IH | r s _ IH | r _ IH].
  - intros o g. simpl. by rewrite lookup_empty.
  - by apply generateClassName_prefixed.
  - by apply (replace_pieces_preserves prefixed generateClassName_prefixed).
  - intros o g. simpl. by rewrite lookup_empty.
Qed.

(** X2: in every reachable registry each generated name begins with the
    prefix the registry was made with. *)
Theorem generated_names_prefixed (r : t) (o g : string) :
  reachable r → classMap r !! o = Some g → starts_with (prefix r) g.
Proof. intros Hr. by apply reachable_prefixed. Qed.

Lemma generated_names_prefixed_witness :
  starts_with (prefix (generateClassName (constructor "wf-") "1x").1)
    "wf-class-0".
Proof.
  apply (generated_names_prefixed
           (generateClassName (constructor "wf-") "1x").1 "1x" "wf-class-0").
  - apply reachable_generate, reachable_new.
  - vm_compute. reflexivity.
Defined.

(** X3: for a name that is not registered yet, [generateClassName]
    returns the first of the proposal, the proposal with [-1], with
    [-2], ... that [reverseMap] does not hold. *)
Theorem generateClassName_first_free (r : t) (s : string) :
  classMap r !! s = None →
  ∃ k, (generateClassName r s).2 = candidate (proposal r s) k
       ∧ reverseMap r !! candidate (proposal r s) k = None
       ∧ ∀ j, j < k → is_Some (reverseMap r !! candidate (proposal r s) j).
Proof.
  intros E. unfold generateClassName. rewrite E. simpl.
  apply unique_loop_first_free.
Qed.

Lemma generateClassName_first_free_witness :
  let r := (generateClassName (constructor "wf-") "class-1").1 in
  ∃ k, (generateClassName r "1x").2 = candidate (proposal r "1x") k
       ∧ reverseMap r !! candidate (proposal r "1x") k = None
       ∧ ∀ j, j < k → is_Some (reverseMap r !! candidate (proposal r "1x") j).
Proof.
  apply (generateClassName_first_free
           (generateClassName (constructor "wf-") "class-1").1 "1x").
  vm_compute. reflexivity.
Defined.

(** X4: [generateClassNames] returns, name by name, what the registry it
    leaves holds for the names it was given, and it only adds to the
    registry it was given. *)
Theorem generateClassNames_lookups (r : t) (names : list string) :
  classMap r ⊆ classMap (generateClassNames r names).1
  ∧ Forall2 (λ o g, classMap (generateClassNames r names).1 !! o = Some g)
            names (generateClassNames r names).2.
Proof.
  revert r. induction names as [|n names IH]; intros r; simpl.
  - split; [done | constructor].
  - pose proof (generateClassName_registers r n) as Hreg.
    pose proof (generateClassName_classMap_mono r n) as Hmono.
    destruct (generateClassName r n) as [r1 g]. simpl in *.
    destruct (IH r1) as [Hsub Hall].
    destruct (generateClassNames r1 names) as [r2 gs]. simpl in *.
    split; [by etrans |]. constructor; [| done].
    by eapply lookup_weaken.
Qed.

(** X5: a class that is registered already, with a generated name that
    is not empty, is rewritten to that name, and the registry stays as
    it is. *)
Theorem transformSelector_registered_class (r : t) (c g : string) :
  ident_name c → classMap r !! c = Some g → g ≠ "" →
  transformSelector r ("." +:+ c) = (r, "." +:+ g).
Proof.
  intros [Hc Hci] Hg Hne. unfold transformSelector.
  assert (re_class_token (String "." c) = Some (String "." c)) as Hhit.
  { unfold re_class_token, lead_then_run. simpl.
    rewrite <- (app_empty_r c) at 1.
    rewrite (take_while_app_stop cls_w_dash c "") by done.
    by destruct c. }
  change ("." +:+ c) with (String "." c).
  rewrite (scan_hit _ _ _ _ Hhit), scan_skip.
  replace (String.length (String "." c) - 1) with (String.length c)
    by (simpl; lia).
  replace (drop (String.length c) c) with ""
    by (by rewrite <- (app_empty_r c) at 2; rewrite drop_app_length).
  simpl. change (drop 1 (String "." c)) with c.
  rewrite replacer_known by by rewrite Hg.
  rewrite Hg. unfold rendered, or_null.
  apply truthy_true in Hne. rewrite Hne. by rewrite app_empty_r.
Qed.

Lemma transformSelector_registered_class_witness :
  let r := (generateClassName (constructor "wf-") "text").1 in
  transformSelector r ".text" = (r, ".wf-text").
Proof.
  apply (transformSelector_registered_class
           (generateClassName (constructor "wf-") "text").1 "text" "wf-text").
  - split; [discriminate | reflexivity].
  - vm_compute. reflexivity.
  - discriminate.
Defined.

(** X6: [transformSelector] only adds to the registry, and after it
    every class name the selector holds is registered. *)
Theorem transformSelector_registers (r : t) (selector : string) :
  let r' := (transformSelector r selector).1 in
  classMap r ⊆ classMap r'
  ∧ Forall (λ matched, hasGeneratedClassName r' (drop 1 matched) = true)
           (hits (scan re_class_token 0 selector)).
Proof.
  simpl. unfold transformSelector.
  destruct (replace_pieces_spec r (scan re_class_token 0 selector))
    as (Hsub & Hall & _).
  split; [done |]. eapply Forall_impl; [exact Hall |].
  intros x Hx. unfold hasGeneratedClassName. by apply bool_decide_eq_true.
Qed.

(** X7: in a reachable registry [hasGeneratedClassName] and
    [getGeneratedClassName] agree: the one is true exactly when the
    other is not [null]. *)
Theorem has_agrees_with_get (r : t) (s : string) :
  reachable r →
  hasGeneratedClassName r s = true ↔ is_Some (getGeneratedClassName r s).
Proof.
  intros Hr. destruct (reachable_invariant r Hr) as (_ & _ & Hne).
  unfold hasGeneratedClassName, getGeneratedClassName.
  rewrite bool_decide_eq_true. split.
  - intros [g Hg]. rewrite Hg. simpl.
    apply Hne, truthy_true in Hg as Ht. by rewrite Ht.
  - destruct (classMap r !! s); [done |]. by intros [? ?].
Qed.

Lemma has_agrees_with_get_witness :
  let r := (generateClassName (constructor "wf-") "a").1 in
  hasGeneratedClassName r "a" = true ↔ is_Some (getGeneratedClassName r "a").
Proof.
  apply (has_agrees_with_get (generateClassName (constructor "wf-") "a").1 "a").
  apply reachable_generate, reachable_new.
Defined.

End naming_further.

(** ** The style sheet, further *)

Section stylesheet_further.
Import CSSParser HTMLParser.

(** X8: whatever identifier stands there, a selector of one tag weighs
    1, of one class 11 and of one id 101: the identifier of a class or
    an id is counted once more by the pattern for elements. *)
Theorem calculateSpecificity_by_kind (x : string) :
  ident_name x →
  calculateSpecificity x = 1
  ∧ calculateSpecificity ("." +:+ x) = 11
  ∧ calculateSpecificity ("#" +:+ x) = 101.
Proof.
  intros Hx.
  assert (renamed x "x") as Hr.
  { rewrite <- (app_empty_r x).
    by apply (renamed_run x "x" "" ""); [| | | constructor]. }
  split; [| split].
  - change 1 with (calculateSpecificity "x").
    by apply calculateSpecificity_renamed.
  - change 11 with (calculateSpecificity ".x").
    apply calculateSpecificity_renamed. by constructor.
  - change 101 with (calculateSpecificity "#x").
    apply calculateSpecificity_renamed. by constructor.
Qed.

Lemma calculateSpecificity_by_kind_witness :
  calculateSpecificity "main-nav" = 1
  ∧ calculateSpecificity ("." +:+ "main-nav") = 11
  ∧ calculateSpecificity ("#" +:+ "main-nav") = 101.
Proof.
  apply (calculateSpecificity_by_kind "main-nav").
  split; [discriminate | reflexivity].
Defined.

Lemma walk_decls (p : CSSParser.parent) (ds : list (string * string)) :
  walk p ((λ d, Decl d.1 d.2) <$> ds) = (λ d, (p, Decl d.1 d.2)) <$> ds.
Proof. induction ds as [|d ds IH]; [done |]. rewrite !fmap_cons, walk_cons, IH. done. Qed.

Lemma object_set_lookup_proto (k v : string) (o : gmap string string) :
  object_set k v o !! "__proto__" = o !! "__proto__".
Proof.
  unfold object_set. case_bool_decide; [done |]. by rewrite lookup_insert_ne.
Qed.

Lemma object_set_lookup (k v : string) (o : gmap string string) (j : string) :
  j ≠ "__proto__" →
  object_set k v o !! j = if decide (k = j) then Some v else o !! j.
Proof.
  intros Hj. unfold object_set. case_bool_decide as Hk.
  - subst k. by rewrite decide_False.
  - by rewrite lookup_insert.
Qed.

Lemma foldl_object_set_lookup (ds : list (string * string))
    (acc : gmap string string) (k : string) :
  foldl (λ props d, object_set d.1 d.2 props) acc ds !! k
  = if decide (k = "__proto__") then acc !! k
    else (list_to_map (reverse ds) ∪ acc) !! k.
Proof.
  revert acc. induction ds as [|[a b] ds IH]; intros acc.
  - cbn [foldl]. case_decide; [done |].
    by rewrite lookup_union, reverse_nil, list_to_map_nil, lookup_empty,
      (left_id None union).
  - cbn [foldl]. rewrite IH. case_decide as Hk.
    + subst k. apply object_set_lookup_proto.
    + rewrite reverse_cons, list_to_map_app, !lookup_union.
      cbn [fst snd]. rewrite object_set_lookup by done.
      change (list_to_map [(a, b)] : gmap string string)
        with (<[a := b]> (∅ : gmap string string)).
      rewrite lookup_insert, lookup_empty.
      destruct (list_to_map (reverse ds) !! k); case_decide;
        by destruct (acc !! k).
Qed.

(** X9: of the declarations of a rule the last one for a property
    wins, and a declaration named [__proto__] leaves no property. *)
Theorem collect_decls_last_wins (ds : list (string * string)) :
  collect_decls ((λ d, Decl d.1 d.2) <$> ds)
  = delete "__proto__" (list_to_map (reverse ds)).
Proof.
  unfold collect_decls. rewrite walk_decls. apply map_eq. intros k.
  rewrite foldl_fmap. cbn [snd].
  rewrite (foldl_object_set_lookup ds ∅ k). case_decide as Hk.
  - subst k. by rewrite lookup_delete_eq.
  - rewrite lookup_delete_ne by done. by rewrite (right_id ∅ (∪)).
Qed.

Lemma omap_walk_decls {B : Type} (f : CSSParser.parent * node → option B)
    (p : CSSParser.parent) (ns : list node) :
  (∀ q a b, f (q, Decl a b) = None) →
  Forall (λ d, match d with Decl _ _ => True | _ => False end) ns →
  omap f (walk p ns) = [].
Proof.
  intros Hf. induction 1 as [|[a b| | |] ns Hd _ IH]; try done.
  rewrite walk_cons, omap_app, IH, app_nil_r. cbn [walk_node].
  by rewrite omap_cons, Hf.
Qed.

Lemma omap_walk_flat_rules {B : Type} (f : CSSParser.parent * node → option B)
    (p : CSSParser.parent) (rs : list node) :
  (∀ q a b, f (q, Decl a b) = None) →
  Forall flat_rule rs →
  omap f (walk p rs) = omap (λ n, f (p, n)) rs.
Proof.
  intros Hf. induction 1 as [|[| sel text ds | |] rs Hd _ IH]; try done.
  rewrite walk_cons, walk_node_rule, <- app_comm_cons, !omap_cons, omap_app, IH.
  by rewrite (omap_walk_decls f ParentRule ds Hf Hd).
Qed.

Lemma flat_rules_not_top (rs : list node) :
  Forall flat_rule rs →
  omap (λ pn : CSSParser.parent * node,
          match pn.2 with
          | Rule sel text ns =>
              if inside_media pn.1 then None
              else Some (processRule sel text ns)
          | _ => None
          end)
       (walk (ParentAtRule "media") rs) = [].
Proof.
  intros Hrs. rewrite omap_walk_flat_rules by done.
  induction Hrs as [|[| s t d | |] rs Hd _ IH]; done.
Qed.

Lemma flat_rules_no_media (p : CSSParser.parent) (rs : list node) :
  Forall flat_rule rs →
  omap (λ pn : CSSParser.parent * node,
          match pn.2 with
          | AtRule name params ns =>
              if bool_decide (name = "media")
              then Some (mkMediaQuery params (media_rules name ns))
              else None
          | _ => None
          end)
       (walk p rs) = [].
Proof.
  intros Hrs. rewrite omap_walk_flat_rules by done.
  induction Hrs as [|[| s t d | |] rs Hd _ IH]; done.
Qed.

Lemma media_rules_flat (name : string) (rs : list node) :
  Forall flat_rule rs → media_rules name rs = rules_among rs.
Proof.
  intros Hrs. unfold media_rules. by rewrite omap_walk_flat_rules.
Qed.

(** X10: of a style sheet made of rules that hold declarations and of
    [@media] blocks of such rules, [parse] gives the rules outside the
    blocks as style rules, in order, and one media query for each block
    with the rules of the block, in order. *)
Theorem parse_plain_sheet (root : list node) :
  Forall plain_node root →
  styleRules (CSSParser.parse root) = rules_among root
  ∧ mediaQueries (CSSParser.parse root) = media_among root.
Proof.
  unfold CSSParser.parse. cbn [styleRules mediaQueries].
  induction 1 as [|[| sel text ds | name params rs |] root Hn _ [IH1 IH2]];
    try done.
  - unfold top_level_rules, media_groups in *.
    rewrite walk_cons, walk_node_rule, <- app_comm_cons, !omap_cons, !omap_app.
    rewrite IH1, IH2. cbn [snd fst inside_media].
    by rewrite !(omap_walk_decls _ ParentRule ds) by done.
  - destruct Hn as [-> Hrs].
    unfold top_level_rules, media_groups in *.
    rewrite walk_cons, walk_node_atrule, <- app_comm_cons, !omap_cons, !omap_app.
    rewrite IH1, IH2. cbn [snd fst].
    rewrite flat_rules_not_top, flat_rules_no_media by done.
    rewrite bool_decide_true by done. rewrite media_rules_flat by done.
    done.
Qed.

Lemma parse_plain_sheet_witness :
  let sheet :=
    [ Rule "p" "p{color:red}" [Decl "color" "red"];
      AtRule "media" "print" [Rule ".a" ".a{top:0}" [Decl "top" "0"]] ] in
  styleRules (CSSParser.parse sheet) = rules_among sheet
  ∧ mediaQueries (CSSParser.parse sheet) = media_among sheet.
Proof.
  apply (parse_plain_sheet
           [ Rule "p" "p{color:red}" [Decl "color" "red"];
             AtRule "media" "print" [Rule ".a" ".a{top:0}" [Decl "top" "0"]] ]).
  repeat constructor.
Defined.

End stylesheet_further.

(** ** Selector lists and property names *)

Section selector_lists.
Import CSSParser HTMLParser Text.

Lemma split_on_free (k : ascii) (s : string) :
  free_of k s → split_on k s = [s].
Proof.
  unfold free_of. induction s as [|c s IH]; [done |].
  simpl. intros [Hc Hs]%andb_true_iff. apply negb_true_iff in Hc.
  by rewrite Hc, IH.
Qed.

Lemma split_on_app (k : ascii) (p rest : string) :
  free_of k p → split_on k (p +:+ String k rest) = p :: split_on k rest.
Proof.
  unfold free_of. induction p as [|c p IH].
  - intros _. rewrite app_empty_l. simpl. unfold is_char.
    by rewrite bool_decide_true.
  - simpl all_chars. intros [Hc Hs]%andb_true_iff. apply negb_true_iff in Hc.
    rewrite app_cons. simpl. by rewrite Hc, IH.
Qed.

Lemma split_on_commas (parts : list string) :
  parts ≠ [] → Forall (free_of ",") parts →
  split_on "," (commas parts) = parts.
Proof.
  intros Hne Hall. induction Hall as [|p [|q parts] Hp Hall IH]; [done | |].
  - by apply split_on_free.
  - change (commas (p :: q :: parts)) with (p +:+ "," +:+ commas (q :: parts)).
    change ("," +:+ commas (q :: parts)) with (String "," (commas (q :: parts))).
    rewrite split_on_app by done. by rewrite IH.
Qed.

(** X11: a rule whose selector is a list with commas matches exactly the
    element selectors that are one of the parts of the list, the white
    space around the part left aside. *)
Theorem findMatchingRules_comma_list (styleRules : list rule) (r : rule)
    (parts : list string) (elementSelector : string) :
  r ∈ styleRules → selector r = commas parts →
  parts ≠ [] → Forall (free_of ",") parts →
  r ∈ CSSParser.findMatchingRules styleRules elementSelector
  ↔ elementSelector ∈ trim <$> parts.
Proof.
  intros Hin Hsel Hne Hall. unfold CSSParser.findMatchingRules.
  rewrite list_elem_of_filter. unfold selector_list.
  rewrite Hsel, split_on_commas by done. tauto.
Qed.

Lemma findMatchingRules_comma_list_witness :
  let r := mkRule "h1 , .title" 13 ∅ "" None in
  r ∈ CSSParser.findMatchingRules [r] ".title"
  ↔ ".title" ∈ trim <$> ["h1 "; " .title"].
Proof.
  apply (findMatchingRules_comma_list
           [mkRule "h1 , .title" 13 ∅ "" None]
           (mkRule "h1 , .title" 13 ∅ "" None) ["h1 "; " .title"] ".title").
  - apply list_elem_of_singleton. reflexivity.
  - reflexivity.
  - discriminate.
  - repeat constructor.
Defined.

Lemma propertyMap_camelCase (k v : string) :
  propertyMap !! k = Some v → camelCase k = v.
Proof.
  intros H. apply elem_of_list_to_map_2 in H.
  match type of H with
  | _ ∈ ?l =>
      assert (Forall (λ kv : string * string, camelCase kv.1 = kv.2) l) as HF
        by (apply (bool_decide_unpack _); by vm_compute)
  end.
  rewrite Forall_forall in HF. apply (HF _ H).
Qed.

(** X12: for every property of its table [mapToWebflowProperty] gives
    the name that [parseInlineStyles] makes of the property: the
    camel-case form. *)
Theorem mapToWebflowProperty_camelCase (cssProperty : string) :
  is_Some (propertyMap !! cssProperty) →
  mapToWebflowProperty cssProperty = PropertyName (camelCase cssProperty).
Proof.
  intros [v Hv]. unfold mapToWebflowProperty. rewrite Hv.
  by rewrite (propertyMap_camelCase _ _ Hv).
Qed.

Lemma mapToWebflowProperty_camelCase_witness :
  mapToWebflowProperty "grid-template-columns"
  = PropertyName (camelCase "grid-template-columns").
Proof.
  apply (mapToWebflowProperty_camelCase "grid-template-columns").
  vm_compute. eexists. reflexivity.
Defined.

End selector_lists.

(** ** The parsed markup *)

Section parsed_markup.
Import HTMLParser.

Lemma dom_tree_ind (P : dom → Prop) :
  (∀ name attribs childNodes,
     Forall P childNodes → P (Element name attribs childNodes)) →
  (∀ data, P (Text data)) → P Other → ∀ d, P d.
Proof.
  intros HE HT HO. fix IH 1. intros [name attribs kids | data |];
    [| apply HT | apply HO].
  apply HE. induction kids as [|k kids IHk]; constructor; [apply IH | apply IHk].
Qed.

Lemma ParsedElement_tree_ind (P : ParsedElement → Prop) :
  (∀ i tag ty cs kids, Forall P kids → P (mkParsedElement i tag ty cs kids)) →
  ∀ e, P e.
Proof.
  intros HE. fix IH 1. intros [i tag ty cs kids].
  apply HE. induction kids as [|k kids IHk]; constructor; [apply IH | apply IHk].
Qed.

Lemma elements_of_eq (e : ParsedElement) :
  elements_of e = e :: (HTMLParser.children e ≫= elements_of).
Proof.
  destruct e as [i tag ty cs kids]. simpl. f_equal.
Qed.

Lemma dom_elements_eq (name : string) (attribs : gmap string string)
    (kids : list dom) :
  dom_elements (Element name attribs kids)
  = Element name attribs kids :: (kids ≫= dom_elements).
Proof.
  simpl. f_equal.
Qed.

Lemma parseElement_element (n : nat) (name : string)
    (attribs : gmap string string) (kids : list dom) :
  parseElement n (Element name attribs kids)
  = (let '(n', ks) := parse_children (S n) kids in
     (n', Some (mkParsedElement (element_id n) name (mapElementType name)
                  (parse_classes attribs) ks))).
Proof. reflexivity. Qed.

Lemma parse_children_cons_element (n : nat) (name : string)
    (attribs : gmap string string) (kids l : list dom) :
  parse_children n (Element name attribs kids :: l)
  = (let '(n1, parsedChild) := parseElement n (Element name attribs kids) in
     let '(n2, rest) := parse_children n1 l in
     (n2, match parsedChild with Some pc => pc :: rest | None => rest end)).
Proof. reflexivity. Qed.

Lemma parsed_from_app (n n1 n2 : nat) (es1 es2 : list ParsedElement)
    (ds1 ds2 : list dom) :
  parsed_from n n1 es1 ds1 → parsed_from n1 n2 es2 ds2 →
  parsed_from n n2 (es1 ++ es2) (ds1 ++ ds2).
Proof.
  intros (-> & Hi1 & Hr1) (-> & Hi2 & Hr2). unfold parsed_from.
  rewrite List.length_app, seq_app, !fmap_app, omap_app, Hi1, Hi2, Hr1, Hr2.
  split; [lia | done].
Qed.

Lemma parseElement_parsed_from (d : dom) :
  ∀ n n' pe, parseElement n d = (n', Some pe) →
    parsed_from n n' (elements_of pe) (dom_elements d).
Proof.
  induction d as [name attribs kids IH | data |] using dom_tree_ind;
    [| done | done].
  intros n n' pe. rewrite parseElement_element.
  assert (∀ m, let '(m', ks) := parse_children m kids in
               parsed_from m m' (ks ≫= elements_of) (kids ≫= dom_elements))
    as Hkids.
  { clear n n' pe. induction IH as [|k kids Hk _ IHk]; intros m.
    - simpl. unfold parsed_from. simpl. split; [lia | done].
    - destruct k as [kn ka kk | |].
      + rewrite parse_children_cons_element.
        destruct (parseElement m (Element kn ka kk)) as [m1 [pc|]] eqn:E.
        2: { rewrite parseElement_element in E.
             by destruct (parse_children (S m) kk). }
        specialize (IHk m1). destruct (parse_children m1 kids) as [m2 rest].
        rewrite !bind_cons. eapply parsed_from_app; [by apply Hk | done].
      + apply IHk.
      + apply IHk. }
  specialize (Hkids (S n)). destruct (parse_children (S n) kids) as [m ks].
  intros [= <- <-]. rewrite elements_of_eq, dom_elements_eq. cbn [HTMLParser.children].
  destruct Hkids as (-> & Hi & Hr). unfold parsed_from.
  rewrite !fmap_cons, omap_cons, Hi, Hr. cbn [length seq dom_row].
  rewrite fmap_cons. split; [lia | done].
Qed.

Lemma parsed_from_NoDup (n n' : nat) (es : list ParsedElement) (ds : list dom) :
  parsed_from n n' es ds → NoDup (HTMLParser.id <$> es).
Proof.
  intros (_ & -> & _). apply NoDup_fmap_2_strong; [| apply NoDup_seq].
  intros a b _ _ E. unfold element_id in E.
  by apply (inj (String.app "el-")), (inj pretty) in E.
Qed.

(** X13: the ids [parseElement] gives are [el-n], [el-(n+1)], ... in
    document order, one for each element of the subtree, all distinct,
    and the counter ends past the last of them. *)
Theorem parseElement_ids (n : nat) (d : dom) (n' : nat) (pe : ParsedElement) :
  parseElement n d = (n', Some pe) →
  HTMLParser.id <$> elements_of pe
  = element_id <$> seq n (length (elements_of pe))
  ∧ n' = n + length (elements_of pe)
  ∧ NoDup (HTMLParser.id <$> elements_of pe).
Proof.
  intros H. pose proof (parseElement_parsed_from d n n' pe H) as Hfrom.
  pose proof (parsed_from_NoDup _ _ _ _ Hfrom).
  by destruct Hfrom as (Hn & Hi & _).
Qed.

Lemma parseElement_ids_witness :
  let d := Element "ul" ∅ [Element "li" ∅ []; Text "x"; Element "li" ∅ []] in
  let pe :=
    mkParsedElement "el-4" "ul" (Named "list") []
      [ mkParsedElement "el-5" "li" (Named "listItem") [] [];
        mkParsedElement "el-6" "li" (Named "listItem") [] [] ] in
  HTMLParser.id <$> elements_of pe
  = element_id <$> seq 4 (length (elements_of pe))
  ∧ 7 = 4 + length (elements_of pe)
  ∧ NoDup (HTMLParser.id <$> elements_of pe).
Proof.
  apply (parseElement_ids 4
           (Element "ul" ∅ [Element "li" ∅ []; Text "x"; Element "li" ∅ []])).
  vm_compute. reflexivity.
Defined.

(** X14: the parsed tree lists the elements of the markup in document
    order, each with its tag name as written and the names of its class
    attribute; text and other nodes leave nothing. *)
Theorem parseElement_mirrors_markup (n : nat) (d : dom) (n' : nat)
    (pe : ParsedElement) :
  parseElement n d = (n', Some pe) →
  parsed_row <$> elements_of pe = omap dom_row (dom_elements d).
Proof.
  intros H. by destruct (parseElement_parsed_from d n n' pe H) as (_ & _ & Hr).
Qed.

Lemma parseElement_mirrors_markup_witness :
  let d := Element "ul" {[ "class" := "a  b" ]}
             [Element "li" ∅ []; Text "x"; Element "li" ∅ []] in
  let pe :=
    mkParsedElement "el-0" "ul" (Named "list") ["a"; "b"]
      [ mkParsedElement "el-1" "li" (Named "listItem") [] [];
        mkParsedElement "el-2" "li" (Named "listItem") [] [] ] in
  parsed_row <$> elements_of pe = omap dom_row (dom_elements d).
Proof.
  apply (parseElement_mirrors_markup 0
           (Element "ul" {[ "class" := "a  b" ]}
              [Element "li" ∅ []; Text "x"; Element "li" ∅ []]) 3).
  vm_compute. reflexivity.
Defined.

Lemma scan_whitespace_lits (k : nat) (s : string) :
  Forall (λ p, match p with Lit c => re_s c = false | Hit _ => True end)
         (scan (run_of re_s) k s).
Proof.
  revert k. induction s as [|c t IH]; intros k; [constructor |].
  destruct k as [|k]; [| apply IH]. cbn [scan]. unfold run_of at 1.
  cbn [take_while]. destruct (re_s c) eqn:E; constructor; auto.
Qed.

Lemma split_pieces_between (ps : list piece) :
  Forall (λ p, match p with Lit c => re_s c = false | Hit _ => True end) ps →
  Forall (λ x, all_chars (λ c, negb (re_s c)) x = true) (split_pieces ps).
Proof.
  induction 1 as [|[c|x] ps Hp _ IH]; cbn [split_pieces].
  - by constructor.
  - destruct (split_pieces ps) as [|y ys]; constructor.
    + simpl. by rewrite Hp.
    + constructor.
    + inversion IH; subst. simpl. by rewrite Hp.
    + by inversion IH.
  - by constructor.
Qed.

(** X15: whatever the class attribute holds, the class names
    [parseElement] reads from it are not empty and hold no white
    space. *)
Theorem parse_classes_are_names (attribs : gmap string string) :
  Forall class_name (parse_classes attribs).
Proof.
  unfold parse_classes. destruct (attribs !! "class") as [cls|]; [| constructor].
  destruct (truthy cls); [| constructor].
  apply Forall_forall. intros x [Hx Hin]%list_elem_of_filter.
  apply Is_true_true in Hx. split; [by apply truthy_true |].
  pose proof (split_pieces_between _ (scan_whitespace_lits 0 cls)) as Hall.
  rewrite Forall_forall in Hall. by apply Hall.
Qed.

Lemma lower_char_idempotent (c : ascii) :
  lower_char (lower_char c) = lower_char c.
Proof. by destruct c as [[] [] [] [] [] [] [] []]. Qed.

Lemma toLowerCase_idempotent (s : string) :
  toLowerCase (toLowerCase s) = toLowerCase s.
Proof.
  induction s as [|c s IH]; [done |]. simpl. by rewrite lower_char_idempotent, IH.
Qed.

Lemma toLowerCase_truthy (s : string) : truthy (toLowerCase s) = truthy s.
Proof. by destruct s. Qed.

(** X16: [mapElementType] does not tell capital letters from small
    ones. *)
Theorem mapElementType_ignores_case (tagName : string) :
  mapElementType (toLowerCase tagName) = mapElementType tagName.
Proof.
  unfold mapElementType.
  by rewrite toLowerCase_truthy, toLowerCase_idempotent.
Qed.

Lemma tagMap_has_presets (k ty : string) :
  tagMap !! k = Some ty →
  inherited k = false ∧ is_Some (WebflowElementMapper.elementPresets !! ty).
Proof.
  intros H. apply elem_of_list_to_map_2 in H.
  match type of H with
  | _ ∈ ?l =>
      assert (Forall (λ kv : string * string,
                        inherited kv.1 = false
                        ∧ is_Some (WebflowElementMapper.elementPresets !! kv.2)) l)
        as HF
  end.
  { repeat (constructor; [by (split; [reflexivity | vm_compute; eexists]) |]).
    constructor. }
  rewrite Forall_forall in HF. apply (HF _ H).
Qed.

Lemma toLowerCase_member (s : string) :
  inherited (toLowerCase s) = true →
  toLowerCase s = "constructor" ∨ toLowerCase s = "__proto__".
Proof.
  unfold inherited. rewrite bool_decide_eq_true. unfold prototype_members.
  pose proof (toLowerCase_idempotent s) as Hi. intros Hin.
  apply elem_of_cons in Hin as [H | Hin]; [by left |].
  apply elem_of_cons in Hin as [H | Hin]; [by right |].
  exfalso.
  repeat (apply elem_of_cons in Hin as [H | Hin];
          [rewrite H in Hi; vm_compute in Hi; discriminate Hi |]).
  by apply elem_of_nil in Hin.
Qed.

(** X17: [mapElement] finds a preset for every element but those whose
    tag name, in small letters, is [constructor] or [__proto__]: for
    these the type is a member of [Object.prototype], no preset is
    found, and the assignment to the constant [preset] throws. *)
Theorem find_preset_absent (tagName : string) :
  WebflowElementMapper.find_preset (mapElementType tagName) = None
  ↔ toLowerCase tagName = "constructor" ∨ toLowerCase tagName = "__proto__".
Proof.
  assert (∀ k, k = "constructor" ∨ k = "__proto__" → inherited k = true)
    as Hmember by (by intros k [-> | ->]).
  unfold mapElementType. destruct (truthy tagName) eqn:Et; cbn [negb].
  2: { apply negb_false_iff, bool_decide_eq_true in Et. subst tagName.
       split; [intros H; vm_compute in H; discriminate H |].
       intros [H | H]; vm_compute in H; discriminate H. }
  destruct (tagMap !! toLowerCase tagName) as [ty|] eqn:E.
  - destruct (tagMap_has_presets _ _ E) as [Hk [p Hp]].
    unfold WebflowElementMapper.find_preset. rewrite Hp.
    split; [discriminate |]. intros H%Hmember. congruence.
  - destruct (inherited (toLowerCase tagName)) eqn:Ei;
      unfold WebflowElementMapper.find_preset.
    + split; [intros _; by apply toLowerCase_member | reflexivity].
    + split; [intros H; vm_compute in H; discriminate H |].
      intros H%Hmember. congruence.
Qed.

End parsed_markup.

(** ** Attributes and inline styles *)

Section inline_styles.
Import HTMLParser Text.

Lemma parseAttributes_lookup (attribs : gmap string string) (k : string) :
  parseAttributes attribs !! k
  = if decide (k = "__proto__" ∨ k = "class" ∨ k = "style")
    then None else attribs !! k.
Proof.
  unfold parseAttributes. revert k.
  apply (map_fold_weak_ind
           (λ (res m : gmap string string),
              ∀ k, res !! k
                   = if decide (k = "__proto__" ∨ k = "class" ∨ k = "style")
                     then None else m !! k)).
  - intros k. rewrite !lookup_empty. by case_decide.
  - intros i x m res Hi IH k. specialize (IH k).
    destruct (decide (k = "__proto__" ∨ k = "class" ∨ k = "style")) as [Hk | Hk].
    + destruct (bool_decide (i ≠ "class") && bool_decide (i ≠ "style")) eqn:Ec;
        [| done].
      apply andb_true_iff in Ec as [Hc%bool_decide_eq_true Hs%bool_decide_eq_true].
      unfold object_set. case_bool_decide as Hp; [done |].
      rewrite lookup_insert_ne; [done |]. intros ->. tauto.
    + destruct (decide (i = k)) as [-> | Hik].
      * rewrite lookup_insert_eq.
        rewrite !bool_decide_true by tauto. cbn [andb].
        unfold object_set. rewrite bool_decide_false by tauto.
        by rewrite lookup_insert_eq.
      * rewrite lookup_insert_ne by done. rewrite <- IH.
        destruct (bool_decide (i ≠ "class") && bool_decide (i ≠ "style"));
          [| done].
        unfold object_set. case_bool_decide; [done |].
        by rewrite lookup_insert_ne.
Qed.

(** X18: [parseAttributes] copies every attribute but [class] and
    [style]; an attribute named [__proto__] leaves no property. *)
Theorem parseAttributes_copies (attribs : gmap string string) :
  parseAttributes attribs
  = delete "__proto__" (delete "class" (delete "style" attribs)).
Proof.
  apply map_eq. intros k. rewrite parseAttributes_lookup, !lookup_delete.
  repeat case_decide; try done; intuition congruence.
Qed.

Lemma split_on_joined (k : ascii) (parts : list string) :
  parts ≠ [] → Forall (free_of k) parts →
  split_on k (joined k parts) = parts.
Proof.
  intros Hne Hall. induction Hall as [|p [|q parts] Hp Hall IH]; [done | |].
  - by apply split_on_free.
  - change (joined k (p :: q :: parts))
      with (p +:+ String k (joined k (q :: parts))).
    rewrite split_on_app by done. by rewrite IH.
Qed.

Lemma add_inline_style_declaration (styles : gmap string string)
    (d : string * string) :
  inline_declaration d →
  add_inline_style styles (declaration d)
  = object_set (camelCase (trim d.1)) (trim d.2) styles.
Proof.
  destruct d as [p v]. intros [(Hp & _ & Hpt) (Hv & _ & Hvt)]. cbn [fst snd] in *.
  unfold add_inline_style, declaration. cbn [fst snd].
  rewrite split_on_app, split_on_free by done.
  rewrite !fmap_cons. apply truthy_true in Hpt, Hvt. by rewrite Hpt, Hvt.
Qed.

Lemma declaration_free (d : string * string) :
  inline_declaration d → free_of ";" (declaration d).
Proof.
  destruct d as [p v]. intros [(_ & Hp & _) (_ & Hv & _)]. cbn [fst snd] in *.
  unfold free_of, declaration in *. cbn [fst snd].
  rewrite all_chars_app. by rewrite Hp.
Qed.

(** X19: of a style attribute written as declarations with semicolons
    between them, [parseInlineStyles] keeps one property for each
    property name, in camel case: the last value given, with the white
    space around names and values taken off; a property named
    [__proto__] leaves nothing. *)
Theorem parseInlineStyles_declarations (attribs : gmap string string)
    (ds : list (string * string)) :
  ds ≠ [] → Forall inline_declaration ds →
  attribs !! "style" = Some (joined ";" (declaration <$> ds)) →
  parseInlineStyles attribs
  = delete "__proto__"
      (list_to_map (reverse ((λ d, (camelCase (trim d.1), trim d.2)) <$> ds))).
Proof.
  intros Hne Hall Hstyle. unfold parseInlineStyles. rewrite Hstyle.
  assert (truthy (joined ";" (declaration <$> ds)) = true) as ->.
  { apply truthy_true. destruct Hall as [|[p v] ds' [(_ & _ & Hp) _] _]; [done |].
    assert (p ≠ "") as Hp' by (by intros ->).
    destruct p as [|c p]; [done |].
    rewrite fmap_cons. unfold declaration at 1. cbn [fst snd].
    by destruct (declaration <$> ds'). }
  rewrite split_on_joined.
  2: { by destruct ds. }
  2: { apply Forall_fmap. eapply Forall_impl; [exact Hall |].
       intros d Hd. by apply declaration_free. }
  assert (∀ acc, foldl add_inline_style acc (declaration <$> ds)
                 = foldl (λ props d, object_set d.1 d.2 props) acc
                     ((λ d, (camelCase (trim d.1), trim d.2)) <$> ds)) as ->.
  { clear Hne Hstyle. induction Hall as [|d ds' Hd _ IH]; intros acc; [done |].
    rewrite !fmap_cons. cbn [foldl].
    by rewrite add_inline_style_declaration, IH. }
  apply map_eq. intros k. rewrite foldl_object_set_lookup.
  case_decide as Hk.
  - subst k. by rewrite lookup_delete_eq.
  - rewrite lookup_delete_ne by done. by rewrite (right_id ∅ (∪)).
Qed.

Lemma parseInlineStyles_declarations_witness :
  parseInlineStyles {[ "style" := "color : red;font-size: 12px;color:blue" ]}
  = delete "__proto__"
      (list_to_map
         (reverse ((λ d, (camelCase (trim d.1), trim d.2))
                     <$> [("color ", " red"); ("font-size", " 12px");
                          ("color", "blue")]))).
Proof.
  apply (parseInlineStyles_declarations
           {[ "style" := "color : red;font-size: 12px;color:blue" ]}
           [("color ", " red"); ("font-size", " 12px"); ("color", "blue")]).
  - discriminate.
  - repeat constructor; discriminate.
  - vm_compute. reflexivity.
Defined.

(** X20: only the first two parts of a declaration count: what follows
    a second colon, as in the address of a [url(...)] value, is
    dropped. *)
Theorem add_inline_style_second_colon (styles : gmap string string)
    (property value rest : string) :
  free_of ":" property → free_of ":" value →
  add_inline_style styles (property +:+ String ":" (value +:+ String ":" rest))
  = add_inline_style styles (property +:+ String ":" value).
Proof.
  intros Hp Hv. unfold add_inline_style.
  rewrite (split_on_app ":" property (value +:+ String ":" rest) Hp).
  rewrite (split_on_app ":" value rest Hv).
  rewrite (split_on_app ":" property value Hp), (split_on_free ":" value Hv).
  by rewrite !fmap_cons.
Qed.

Lemma add_inline_style_second_colon_witness :
  add_inline_style ∅ ("background" +:+ String ":" (" url(http" +:+ String ":" "//x.y/z.png)"))
  = add_inline_style ∅ ("background" +:+ String ":" " url(http").
Proof.
  apply (add_inline_style_second_colon ∅ "background" " url(http" "//x.y/z.png)");
    reflexivity.
Defined.

End inline_styles.

(** ** The created elements *)

Section created_elements.
Import HTMLParser WebflowElementMapper.

Lemma mapElement_eq (pe : ParsedElement) (parentElement : option nat)
    (this : mapper) :
  mapElement pe parentElement this
  = match find_preset (HTMLParser.type pe) with
    | None => None
    | Some presetId =>
        let elementId := "webflow-" +:+ HTMLParser.id pe in
        let ref := length (objects this) in
        let parentId :=
          match parentElement with
          | Some p => id <$> (objects this !! p)
          | None => None
          end in
        let webflowElement :=
          mkWebflowElement elementId (HTMLParser.type pe) presetId
            ∅ [] parentId None in
        let objects1 :=
          match parentElement with
          | Some p => push_child p elementId (objects this ++ [webflowElement])
          | None => objects this ++ [webflowElement]
          end in
        map_children ref (HTMLParser.children pe)
          (mkMapper objects1
             (map_set (HTMLParser.id pe) ref (createdElements this)))
    end.
Proof. by destruct pe. Qed.

Lemma map_set_fresh (k : string) (v : nat) (m : list (string * nat)) :
  k ∉ m.*1 → map_set k v m = m ++ [(k, v)].
Proof.
  induction m as [|[k' v'] m IH]; [done |].
  rewrite fmap_cons, not_elem_of_cons. cbn [fst]. intros [Hk Hm].
  cbn [map_set]. rewrite bool_decide_false by done. by rewrite IH.
Qed.

Lemma core_push_child (p : nat) (childId : string) (os : list WebflowElement) :
  core <$> push_child p childId os = core <$> os.
Proof.
  unfold push_child. apply list_eq. intros i.
  rewrite !list_lookup_fmap, list_lookup_alter.
  case_decide; [subst i |]; [| done]. by destruct (os !! p).
Qed.

Lemma maps_onto_length (this this' : mapper) (es : list ParsedElement) :
  maps_onto this this' es →
  length (objects this') = length (objects this) + length es.
Proof.
  intros [H _]. apply (f_equal length) in H.
  by rewrite List.length_app, !length_fmap in H.
Qed.

Lemma maps_onto_app (a b c : mapper) (es1 es2 : list ParsedElement) :
  maps_onto a b es1 → maps_onto b c es2 → maps_onto a c (es1 ++ es2).
Proof.
  intros Hab Hbc. pose proof (maps_onto_length _ _ _ Hab) as Hlen.
  destruct Hab as (Ho1 & Hk1 & Hv1), Hbc as (Ho2 & Hk2 & Hv2).
  unfold maps_onto.
  rewrite Ho2, Ho1, Hk2, Hk1, Hv2, Hv1, Hlen, !fmap_app, List.length_app, seq_app.
  by rewrite <- !(assoc (++)).
Qed.

Lemma maps_onto_one (pe : ParsedElement) (parentElement : option nat)
    (presetId : option string) (parentId : option string) (this : mapper) :
  HTMLParser.id pe ∉ (createdElements this).*1 →
  let elementId := "webflow-" +:+ HTMLParser.id pe in
  let webflowElement :=
    mkWebflowElement elementId (HTMLParser.type pe) presetId ∅ [] parentId None in
  maps_onto this
    (mkMapper
       match parentElement with
       | Some p => push_child p elementId (objects this ++ [webflowElement])
       | None => objects this ++ [webflowElement]
       end
       (map_set (HTMLParser.id pe) (length (objects this)) (createdElements this)))
    [pe].
Proof.
  intros Hfresh. cbn zeta. unfold maps_onto. cbn [objects createdElements].
  rewrite map_set_fresh by done. rewrite !fmap_app. split; [| done].
  destruct parentElement as [p|]; [rewrite core_push_child |];
    by rewrite fmap_app.
Qed.

Lemma mapElement_maps_onto (pe : ParsedElement) :
  ∀ parentElement this,
    Forall has_preset (elements_of pe) →
    NoDup (HTMLParser.id <$> elements_of pe) →
    (∀ k, k ∈ HTMLParser.id <$> elements_of pe → k ∉ (createdElements this).*1) →
    ∃ this', mapElement pe parentElement this = Some (this', length (objects this))
             ∧ maps_onto this this' (elements_of pe).
Proof.
  induction pe as [i tag ty cs kids IH] using ParsedElement_tree_ind.
  intros parentElement this. rewrite mapElement_eq, elements_of_eq.
  cbn [HTMLParser.children HTMLParser.type HTMLParser.id].
  rewrite fmap_cons, Forall_cons, NoDup_cons. cbn [HTMLParser.id].
  intros [[presetId Hpreset] Hkids] [Hi Hnd] Hfresh. cbn [HTMLParser.type] in Hpreset.
  rewrite Hpreset. cbn zeta.
  assert (∀ ref this0,
            Forall has_preset (kids ≫= elements_of) →
            NoDup (HTMLParser.id <$> kids ≫= elements_of) →
            (∀ k, k ∈ HTMLParser.id <$> kids ≫= elements_of
                  → k ∉ (createdElements this0).*1) →
            ∃ this', map_children ref kids this0 = Some (this', ref)
                     ∧ maps_onto this0 this' (kids ≫= elements_of)) as Hloop.
  { clear -IH. induction IH as [|k kids Hk _ IHkids]; intros ref this0.
    - intros _ _ _. exists this0. split; [done |]. unfold maps_onto. simpl.
      by rewrite !app_nil_r.
    - rewrite bind_cons, fmap_app, Forall_app, NoDup_app.
      intros [Hp1 Hp2] (Hn1 & Hdisj & Hn2) Hfresh.
      destruct (Hk (Some ref) this0 Hp1 Hn1) as (this1 & Hcall & Honto).
      { intros x Hx. apply Hfresh, elem_of_app. by left. }
      destruct (IHkids ref this1 Hp2 Hn2) as (this2 & Hcall2 & Honto2).
      { intros x Hx. destruct Honto as (_ & -> & _).
        rewrite not_elem_of_app. split.
        - apply Hfresh, elem_of_app. by right.
        - intros Hx'. by apply (Hdisj x). }
      exists this2. split; [| by eapply maps_onto_app].
      cbn [map_children]. by rewrite Hcall. }
  pose proof (maps_onto_one (mkParsedElement i tag ty cs kids) parentElement
                presetId
                match parentElement with
                | Some p => id <$> (objects this !! p)
                | None => None
                end this) as Hone.
  cbn [HTMLParser.children HTMLParser.type HTMLParser.id] in Hone.
  cbn zeta in Hone.
  match type of Hone with
  | _ → maps_onto _ ?m _ => set (this1 := m) in *
  end.
  assert (maps_onto this this1 [mkParsedElement i tag ty cs kids]) as Honto1.
  { apply Hone, Hfresh. by left. }
  destruct (Hloop (length (objects this)) this1 Hkids Hnd)
    as (this' & Hcall & Honto).
  { intros x Hx. destruct Honto1 as (_ & -> & _). cbn [fmap list_fmap HTMLParser.id].
    rewrite not_elem_of_app. split.
    - apply Hfresh. by right.
    - rewrite list_elem_of_singleton. by intros ->. }
  exists this'. split; [done |].
  by apply (maps_onto_app this this1 this' [_] _).
Qed.

Lemma mapToWebflow_spec (pe : ParsedElement) (this : mapper) :
  Forall has_preset (elements_of pe) →
  NoDup (HTMLParser.id <$> elements_of pe) →
  ∃ this',
    mapToWebflow pe this = Some (this', length (objects this))
    ∧ core <$> objects this'
      = (core <$> objects this) ++ (created <$> elements_of pe)
    ∧ createdElements this'
      = zip (HTMLParser.id <$> elements_of pe)
            (seq (length (objects this)) (length (elements_of pe))).
Proof.
  intros Hp Hnd. unfold mapToWebflow.
  destruct (mapElement_maps_onto pe None (mkMapper (objects this) []) Hp Hnd)
    as (this' & Hcall & Ho & Hk & Hv).
  { intros k _. cbn. apply not_elem_of_nil. }
  exists this'. cbn [objects createdElements] in *.
  split; [done |]. split; [done |].
  rewrite <- (zip_fst_snd (createdElements this')). by rewrite Hk, Hv.
Qed.

Lemma map_get_zip (ks : list string) (vs : list nat) (i : nat) (k : string)
    (v : nat) :
  NoDup ks → ks !! i = Some k → vs !! i = Some v →
  map_get k (zip ks vs) = Some v.
Proof.
  intros Hnd. revert vs i. induction Hnd as [|k0 ks Hk0 _ IH]; intros vs i.
  - by rewrite lookup_nil.
  - destruct vs as [|v0 vs]; [by rewrite lookup_nil |].
    destruct i as [|i]; cbn [zip zip_with map_get].
    + intros [= ->] [= ->]. by rewrite bool_decide_true.
    + rewrite !lookup_cons. intros Hk Hv.
      rewrite bool_decide_false; [by apply (IH vs i) |].
      intros ->. apply Hk0. by eapply list_elem_of_lookup_2.
Qed.

(** X21: when a preset is found for every element and the ids of the
    elements are distinct, [mapToWebflow] returns the object of the root
    and creates one object for each element of the tree, in document
    order, with id [webflow-] and the id of the element, the type of
    the element, no styles and no classes; the mapping holds these
    objects in that order, and the objects that were there keep their
    id, type, styles and classes. *)
Theorem mapToWebflow_creates (pe : ParsedElement) (this : mapper) :
  Forall has_preset (elements_of pe) →
  NoDup (HTMLParser.id <$> elements_of pe) →
  ∃ this',
    mapToWebflow pe this = Some (this', length (objects this))
    ∧ core <$> objects this'
      = (core <$> objects this) ++ (created <$> elements_of pe)
    ∧ createdElements this'
      = zip (HTMLParser.id <$> elements_of pe)
            (seq (length (objects this)) (length (elements_of pe))).
Proof. apply mapToWebflow_spec. Qed.

Lemma mapToWebflow_creates_witness :
  let pe :=
    mkParsedElement "el-0" "ul" (Named "list") []
      [ mkParsedElement "el-1" "li" (Named "listItem") [] [] ] in
  let this := mkMapper [] [] in
  ∃ this',
    mapToWebflow pe this = Some (this', length (objects this))
    ∧ core <$> objects this'
      = (core <$> objects this) ++ (created <$> elements_of pe)
    ∧ createdElements this'
      = zip (HTMLParser.id <$> elements_of pe)
            (seq (length (objects this)) (length (elements_of pe))).
Proof.
  apply (mapToWebflow_creates
           (mkParsedElement "el-0" "ul" (Named "list") []
              [ mkParsedElement "el-1" "li" (Named "listItem") [] [] ])
           (mkMapper [] [])).
  - repeat constructor; vm_compute; eexists; reflexivity.
  - vm_compute. repeat constructor; rewrite ?elem_of_cons, ?elem_of_nil;
      intuition discriminate.
Defined.

(** X22: after [mapToWebflow], under the same conditions,
    [getWebflowElement] finds for the id of each element of the tree
    the object created for it. *)
Theorem getWebflowElement_finds (pe : ParsedElement) (this : mapper)
    (i : nat) (e : ParsedElement) :
  Forall has_preset (elements_of pe) →
  NoDup (HTMLParser.id <$> elements_of pe) →
  elements_of pe !! i = Some e →
  ∃ this' root w,
    mapToWebflow pe this = Some (this', root)
    ∧ getWebflowElement (HTMLParser.id e) this' = Some (length (objects this) + i)
    ∧ objects this' !! (length (objects this) + i) = Some w
    ∧ core w = created e.
Proof.
  intros Hp Hnd He.
  destruct (mapToWebflow_spec pe this Hp Hnd) as (this' & Hcall & Ho & Hc).
  assert (core <$> objects this' !! (length (objects this) + i)
          = Some (created e)) as Hw.
  { rewrite <- list_lookup_fmap, Ho.
    rewrite lookup_app_r by (rewrite length_fmap; lia).
    rewrite length_fmap, list_lookup_fmap.
    replace (length (objects this) + i - length (objects this)) with i by lia.
    by rewrite He. }
  destruct (objects this' !! (length (objects this) + i)) as [w|] eqn:Ew;
    [| done].
  exists this', (length (objects this)), w. split; [done |].
  cbn [fmap option_fmap option_map] in Hw.
  split; [| split; [done | by apply (inj Some)]].
  unfold getWebflowElement. rewrite Hc.
  apply (map_get_zip _ _ i); [done | by rewrite list_lookup_fmap, He |].
  apply lookup_seq. split; [done |]. by eapply lookup_lt_Some.
Qed.

Lemma getWebflowElement_finds_witness :
  let li := mkParsedElement "el-1" "li" (Named "listItem") [] [] in
  let pe := mkParsedElement "el-0" "ul" (Named "list") [] [li] in
  let this := mkMapper [] [] in
  ∃ this' root w,
    mapToWebflow pe this = Some (this', root)
    ∧ getWebflowElement (HTMLParser.id li) this' = Some (length (objects this) + 1)
    ∧ objects this' !! (length (objects this) + 1) = Some w
    ∧ core w = created li.
Proof.
  apply (getWebflowElement_finds
           (mkParsedElement "el-0" "ul" (Named "list") []
              [ mkParsedElement "el-1" "li" (Named "listItem") [] [] ])
           (mkMapper [] []) 1
           (mkParsedElement "el-1" "li" (Named "listItem") [] [])).
  - repeat constructor; vm_compute; eexists; reflexivity.
  - vm_compute. repeat constructor; rewrite ?elem_of_cons, ?elem_of_nil;
      intuition discriminate.
  - reflexivity.
Defined.

Lemma mapElement_no_preset (pe : ParsedElement) :
  ∀ parentElement this,
    Exists (λ e, find_preset (HTMLParser.type e) = None) (elements_of pe) →
    mapElement pe parentElement this = None.
Proof.
  induction pe as [i tag ty cs kids IH] using ParsedElement_tree_ind.
  intros parentElement this. rewrite mapElement_eq, elements_of_eq.
  cbn [HTMLParser.children HTMLParser.type HTMLParser.id].
  rewrite Exists_cons. cbn [HTMLParser.type]. intros [-> | Hkids]; [done |].
  destruct (find_preset ty) as [presetId|]; [| done]. cbn zeta.
  assert (∀ this0 ref, map_children ref kids this0 = None) as Hloop;
    [| by apply Hloop].
  clear -IH Hkids. induction IH as [|k kids Hk _ IHkids]; intros this0 ref.
  - by apply Exists_nil in Hkids.
  - rewrite bind_cons, Exists_app in Hkids. cbn [map_children].
    destruct Hkids as [Hhere | Hlater].
    + by rewrite Hk.
    + destruct (mapElement k (Some ref) this0) as [[this1 r]|]; [| done].
      by apply IHkids.
Qed.

(** X23: when for the type of some element of the tree no preset is
    found, [mapToWebflow] throws, whatever objects it has created by
    then. *)
Theorem mapToWebflow_throws (pe : ParsedElement) (this : mapper) :
  Exists (λ e, find_preset (HTMLParser.type e) = None) (elements_of pe) →
  mapToWebflow pe this = None.
Proof. intros H. by apply mapElement_no_preset. Qed.

Lemma mapToWebflow_throws_witness :
  mapToWebflow
    (mkParsedElement "el-0" "body" (Named "div") []
       [ mkParsedElement "el-1" "constructor" (ProtoMember "constructor") [] [] ])
    (mkMapper [] []) = None.
Proof.
  apply (mapToWebflow_throws
           (mkParsedElement "el-0" "body" (Named "div") []
              [ mkParsedElement "el-1" "constructor"
                  (ProtoMember "constructor") [] [] ])
           (mkMapper [] [])).
  apply Exists_cons_tl, Exists_cons_hd. reflexivity.
Defined.

End created_elements.

(** ** Class names and the cascade in the conversion *)

Section conversion_further.
Import CSSParser ConversionManager ClassNamingSystem.

Lemma preGenerateClassNames_eq (pe : HTMLParser.ParsedElement) (r : t) :
  preGenerateClassNames pe r
  = pre_children (HTMLParser.children pe)
      (foldl (λ n className, (generateClassName n className).1) r
         (HTMLParser.classes pe)).
Proof. by destruct pe. Qed.

Lemma preGenerateClassNames_foldl (pe : HTMLParser.ParsedElement) :
  ∀ r, preGenerateClassNames pe r
       = foldl (λ n className, (generateClassName n className).1) r
           (all_classes pe).
Proof.
  induction pe as [i tag ty cs kids IH] using ParsedElement_tree_ind.
  intros r. rewrite preGenerateClassNames_eq. unfold all_classes.
  rewrite elements_of_eq, bind_cons, foldl_app.
  cbn [HTMLParser.children HTMLParser.classes].
  generalize (foldl (λ n className, (generateClassName n className).1) r cs).
  induction IH as [|k kids Hk _ IHkids]; intros r1; [done |].
  cbn [pre_children]. rewrite !bind_cons, bind_app, foldl_app, IHkids.
  by rewrite Hk.
Qed.

Lemma foldl_generate_registers (names : list string) :
  ∀ r,
    classMap r
    ⊆ classMap (foldl (λ n className, (generateClassName n className).1) r names)
    ∧ Forall (λ c, is_Some
                     (classMap (foldl (λ n className,
                                         (generateClassName n className).1)
                                  r names) !! c))
             names.
Proof.
  induction names as [|c names IH]; intros r; [by split |].
  cbn [foldl]. destruct (IH (generateClassName r c).1) as [Hsub Hall].
  pose proof (generateClassName_classMap_mono r c) as Hmono.
  pose proof (generateClassName_registers r c) as Hreg.
  split; [by etrans |]. constructor; [| done].
  eexists. by eapply lookup_weaken.
Qed.

(** X24: [preGenerateClassNames] generates a name for each class of
    each element, in document order, and so leaves every class of the
    markup registered; what was registered stays. *)
Theorem preGenerateClassNames_registers (pe : HTMLParser.ParsedElement) (r : t) :
  preGenerateClassNames pe r
  = foldl (λ n className, (generateClassName n className).1) r (all_classes pe)
  ∧ classMap r ⊆ classMap (preGenerateClassNames pe r)
  ∧ Forall (λ c, is_Some (classMap (preGenerateClassNames pe r) !! c))
           (all_classes pe).
Proof.
  split; [apply preGenerateClassNames_foldl |].
  rewrite preGenerateClassNames_foldl. apply foldl_generate_registers.
Qed.

Lemma insert_by_specificity_perm (r : rule) (l : list rule) :
  insert_by_specificity r l ≡ₚ r :: l.
Proof.
  induction l as [|x l IH]; [done |]. cbn [insert_by_specificity].
  case_decide; [done |]. rewrite IH. apply Permutation_swap.
Qed.

Lemma sort_by_specificity_perm (rs : list rule) :
  sort_by_specificity rs ≡ₚ rs.
Proof.
  induction rs as [|r rs IH]; [done |]. unfold sort_by_specificity in *.
  cbn [foldr]. by rewrite insert_by_specificity_perm, IH.
Qed.

Lemma insert_by_specificity_sorted (r : rule) (l : list rule) :
  StronglySorted by_specificity l →
  StronglySorted by_specificity (insert_by_specificity r l).
Proof.
  induction 1 as [|x l Hl IH Hx]; cbn [insert_by_specificity].
  - repeat constructor.
  - case_decide as Hr.
    + constructor; [by constructor |]. constructor; [done |].
      eapply Forall_impl; [exact Hx |]. unfold by_specificity. intros y Hy. lia.
    + constructor; [done |]. rewrite insert_by_specificity_perm.
      constructor; [unfold by_specificity; lia | done].
Qed.

Lemma insert_by_specificity_filter (r : rule) (l : list rule) (s : nat) :
  filter (λ x, specificity x = s) (insert_by_specificity r l)
  = filter (λ x, specificity x = s) (r :: l).
Proof.
  induction l as [|x l IH]; [done |]. cbn [insert_by_specificity].
  case_decide as Hr; [done |].
  rewrite (filter_cons _ x), IH, !(filter_cons _ r), (filter_cons _ x).
  repeat case_decide; try done. lia.
Qed.

(** X25: the sort of [findMatchingRules] keeps the rules it is given,
    puts them in ascending order of specificity, and leaves rules of
    equal specificity in the order they had. *)
Theorem sort_by_specificity_stable (rs : list rule) :
  sort_by_specificity rs ≡ₚ rs
  ∧ StronglySorted by_specificity (sort_by_specificity rs)
  ∧ ∀ s, filter (λ x, specificity x = s) (sort_by_specificity rs)
         = filter (λ x, specificity x = s) rs.
Proof.
  split; [apply sort_by_specificity_perm |]. split.
  - induction rs as [|r rs IH]; [constructor |].
    by apply insert_by_specificity_sorted.
  - intros s. induction rs as [|r rs IH]; [done |].
    unfold sort_by_specificity in *. cbn [foldr].
    by rewrite insert_by_specificity_filter, !(filter_cons _ r), IH.
Qed.

Lemma insert_after_smaller (r : rule) (l : list rule) :
  Forall (λ x, specificity x < specificity r) l →
  insert_by_specificity r l = l ++ [r].
Proof.
  induction 1 as [|x l Hx _ IH]; [done |]. cbn [insert_by_specificity].
  rewrite decide_False by lia. by rewrite IH.
Qed.

Lemma insert_before_last (x r : rule) (l : list rule) :
  specificity x ≤ specificity r →
  insert_by_specificity x (l ++ [r]) = insert_by_specificity x l ++ [r].
Proof.
  intros Hx. induction l as [|y l IH]; cbn [insert_by_specificity app].
  - by rewrite decide_True.
  - case_decide; [done |]. by rewrite IH.
Qed.

Lemma sort_by_specificity_last (before after : list rule) (r : rule) :
  Forall (λ x, specificity x ≤ specificity r) before →
  Forall (λ x, specificity x < specificity r) after →
  sort_by_specificity (before ++ r :: after)
  = sort_by_specificity (before ++ after) ++ [r].
Proof.
  intros Hb Ha. unfold sort_by_specificity. rewrite !foldr_app. cbn [foldr].
  rewrite insert_after_smaller.
  2: { fold (sort_by_specificity after). by rewrite sort_by_specificity_perm. }
  induction Hb as [|x before Hx _ IH]; [done |]. cbn [foldr].
  by rewrite IH, insert_before_last.
Qed.

Lemma map_fold_object_set_lookup (acc m : gmap string string) (k : string) :
  map_fold object_set acc m !! k
  = if decide (k = "__proto__") then acc !! k
    else match m !! k with Some v => Some v | None => acc !! k end.
Proof.
  revert k.
  apply (map_fold_weak_ind
           (λ (res m : gmap string string),
              ∀ k, res !! k
                   = if decide (k = "__proto__") then acc !! k
                     else match m !! k with Some v => Some v | None => acc !! k end)).
  - intros k. rewrite lookup_empty. by case_decide.
  - intros i x m0 res Hi IH k. specialize (IH k). case_decide as Hk.
    + subst k. by rewrite object_set_lookup_proto.
    + rewrite object_set_lookup by done. rewrite lookup_insert.
      by case_decide.
Qed.

(** X26: of the rules that match, the one of highest specificity gives
    the value of each property it declares, and among rules of that
    specificity the one that comes last; its property [__proto__]
    apart. *)
Theorem cascade_highest_last_wins (before after : list rule) (r : rule)
    (k v : string) :
  Forall (λ x, specificity x ≤ specificity r) before →
  Forall (λ x, specificity x < specificity r) after →
  k ≠ "__proto__" → properties r !! k = Some v →
  mergedProperties (sort_by_specificity (before ++ r :: after)) !! k = Some v.
Proof.
  intros Hb Ha Hk Hv. rewrite sort_by_specificity_last by done.
  unfold mergedProperties. rewrite foldl_app. cbn [foldl].
  rewrite map_fold_object_set_lookup, decide_False by done. by rewrite Hv.
Qed.

Lemma cascade_highest_last_wins_witness :
  mergedProperties
    (sort_by_specificity
       ([mkRule ".a" 11 {[ "color" := "red" ]} "" None]
        ++ mkRule ".b" 11 {[ "color" := "blue" ]} "" None
        :: [mkRule "p" 1 {[ "color" := "green" ]} "" None]))
  !! "color" = Some "blue".
Proof.
  apply (cascade_highest_last_wins
           [mkRule ".a" 11 {[ "color" := "red" ]} "" None]
           [mkRule "p" 1 {[ "color" := "green" ]} "" None]
           (mkRule ".b" 11 {[ "color" := "blue" ]} "" None) "color" "blue").
  - repeat constructor.
  - repeat constructor.
  - discriminate.
  - reflexivity.
Defined.

Lemma group_by_selector_lookup (rs : list rule) :
  ∀ acc m, group_by_selector rs acc = Some m →
    ∀ s, m !! s
         = match acc !! s, filter (λ r, selector r = s) rs with
           | None, [] => None
           | None, g => Some g
           | Some a, g => Some (a ++ g)
           end.
Proof.
  induction rs as [|r rs IH]; intros acc m; cbn [group_by_selector].
  - intros [= ->] s. rewrite filter_nil.
    destruct (m !! s); by rewrite ?app_nil_r.
  - destruct (acc !! selector r) as [group|] eqn:E.
    + intros H s. rewrite (IH _ _ H s), lookup_insert, filter_cons.
      destruct (decide (selector r = s)) as [<- | Hs]; [| done].
      rewrite E, <- (assoc (++)). by destruct (filter _ rs).
    + destruct (inherited (selector r)); [done |].
      intros H s. rewrite (IH _ _ H s), lookup_insert, filter_cons.
      destruct (decide (selector r = s)) as [<- | Hs]; [| done].
      rewrite E. by destruct (filter _ rs).
Qed.

Lemma group_by_selector_total (rs : list rule) :
  Forall (λ r, inherited (selector r) = false) rs →
  ∀ acc, is_Some (group_by_selector rs acc).
Proof.
  induction 1 as [|r rs Hr _ IH]; intros acc; cbn [group_by_selector]; [done |].
  destruct (acc !! selector r); [apply IH |]. rewrite Hr. apply IH.
Qed.

(** X27: when no selector names a member of [Object.prototype], the
    grouping of [applyStylesToElements] holds under each selector the
    rules with that very selector, in the order of the sheet, and
    nothing under a selector no rule has. *)
Theorem group_by_selector_groups (rs : list rule) :
  Forall (λ r, inherited (selector r) = false) rs →
  ∃ m, group_by_selector rs ∅ = Some m
       ∧ ∀ s, m !! s = match filter (λ r, selector r = s) rs with
                       | [] => None
                       | g => Some g
                       end.
Proof.
  intros H. destruct (group_by_selector_total rs H ∅) as [m Hm].
  exists m. split; [done |]. intros s.
  by rewrite (group_by_selector_lookup rs ∅ m Hm s), lookup_empty.
Qed.

Lemma group_by_selector_groups_witness :
  let rs := [ mkRule "p" 1 ∅ "" None; mkRule ".a" 11 ∅ "" None;
              mkRule "p" 1 {[ "top" := "0" ]} "" None ] in
  ∃ m, group_by_selector rs ∅ = Some m
       ∧ ∀ s, m !! s = match filter (λ r, selector r = s) rs with
                       | [] => None
                       | g => Some g
                       end.
Proof.
  apply (group_by_selector_groups
           [ mkRule "p" 1 ∅ "" None; mkRule ".a" 11 ∅ "" None;
             mkRule "p" 1 {[ "top" := "0" ]} "" None ]).
  repeat constructor.
Defined.

Lemma foldl_generate_preserves (P : t → Prop) :
  (∀ r s, P r → P (generateClassName r s).1) →
  ∀ names r, P r →
    P (foldl (λ n className, (generateClassName n className).1) r names).
Proof.
  intros HP names. induction names as [|c names IH]; intros r Hr; [done |].
  cbn [foldl]. by apply IH, HP.
Qed.

Lemma rewrite_rules_preserves (P : t → Prop) :
  (∀ r s, P r → P (transformSelector r s).1) →
  ∀ rs r, P r → P (rewrite_rules r rs).1.
Proof.
  intros HP rs. induction rs as [|x rs IH]; intros r Hr; [done |].
  cbn [rewrite_rules]. unfold rewrite_rule.
  pose proof (HP r (selector x) Hr) as H1.
  destruct (transformSelector r (selector x)) as [r1 sel].
  specialize (IH r1 H1). by destruct (rewrite_rules r1 rs).
Qed.

Lemma rewrite_media_preserves (P : t → Prop) :
  (∀ r s, P r → P (transformSelector r s).1) →
  ∀ mqs r, P r → P (rewrite_media r mqs).1.
Proof.
  intros HP mqs. induction mqs as [|mq mqs IH]; intros r Hr; [done |].
  cbn [rewrite_media].
  pose proof (rewrite_rules_preserves P HP (rules mq) r Hr) as H1.
  destruct (rewrite_rules r (rules mq)) as [r1 rs].
  specialize (IH r1 H1). by destruct (rewrite_media r1 mqs).
Qed.

Lemma processCssClasses_preserves (P : t → Prop) :
  (∀ r s, P r → P (transformSelector r s).1) →
  ∀ css r, P r → P (processCssClasses r css).1.
Proof.
  intros HP css r Hr. unfold processCssClasses.
  pose proof (rewrite_rules_preserves P HP (styleRules css) r Hr) as H1.
  destruct (rewrite_rules r (styleRules css)) as [r1 rs].
  pose proof (rewrite_media_preserves P HP (mediaQueries css) r1 H1) as H2.
  by destruct (rewrite_media r1 (mediaQueries css)).
Qed.

Lemma transformSelector_classMap_mono (r : t) (s : string) :
  classMap r ⊆ classMap (transformSelector r s).1.
Proof.
  unfold transformSelector.
  by destruct (replace_pieces_spec r (scan re_class_token 0 s)) as [H _].
Qed.

Lemma convert_naming (htmlCode : HTMLParser.dom) (cssCode : list node)
    (prefix : option string) (res : result) :
  convert htmlCode cssCode prefix = Some res →
  ∃ pe naming1 naming2,
    HTMLParser.parse htmlCode = Some pe
    ∧ naming1 = preGenerateClassNames pe (constructor (effective_prefix prefix))
    ∧ naming2 = (processCssClasses naming1 (CSSParser.parse cssCode)).1
    ∧ ConversionManager.classMap res = getAllClassMappings naming2.
Proof.
  unfold convert.
  replace (match prefix with
           | Some p => if truthy p then constructor p
                       else constructor default_prefix
           | None => constructor default_prefix
           end) with (constructor (effective_prefix prefix))
    by (destruct prefix as [p|]; [cbn; by destruct (truthy p) | done]).
  destruct (HTMLParser.parse htmlCode) as [pe|]; [| done].
  destruct (processCssClasses _ (CSSParser.parse cssCode)) as [naming2 css] eqn:E.
  destruct (WebflowElementMapper.mapToWebflow pe _) as [[m root]|]; [| done].
  destruct (applyStylesToElements css m) as [m1|]; [| done].
  intros [= <-]. eexists pe, _, naming2. repeat split; try done.
  by rewrite E.
Qed.

(** X28: in what [convert] returns, every class of the markup but
    [__proto__] has an entry in the class map, and every generated name
    of the map begins with the prefix: the one given, or [html2wf-]
    when none or the empty one is given. *)
Theorem convert_classMap (htmlCode : HTMLParser.dom) (cssCode : list node)
    (prefix : option string) (res : result) :
  convert htmlCode cssCode prefix = Some res →
  (∀ name attribs childNodes c,
     HTMLParser.Element name attribs childNodes ∈ dom_elements htmlCode →
     c ∈ HTMLParser.parse_classes attribs → c ≠ "__proto__" →
     is_Some (ConversionManager.classMap res !! c))
  ∧ ∀ c g, ConversionManager.classMap res !! c = Some g →
           starts_with (effective_prefix prefix) g.
Proof.
  intros (pe & naming1 & naming2 & Hparse & H1 & H2 & ->)%convert_naming.
  assert (reachable naming2 ∧ ClassNamingSystem.prefix naming2
                               = effective_prefix prefix) as [Hreach Hprefix].
  { subst naming2.
    apply (processCssClasses_preserves
             (λ r, reachable r ∧ ClassNamingSystem.prefix r
                                 = effective_prefix prefix)).
    { intros r s [Hr Hp]. split; [by constructor |].
      by rewrite transformSelector_prefix. }
    subst naming1. rewrite preGenerateClassNames_foldl.
    apply (foldl_generate_preserves
             (λ r, reachable r ∧ ClassNamingSystem.prefix r
                                 = effective_prefix prefix)).
    { intros r s [Hr Hp]. split; [by constructor |].
      by rewrite generateClassName_prefix. }
    split; [constructor | done]. }
  split.
  - intros name attribs kids c Hel Hc Hproto.
    rewrite getAllClassMappings_lookup, decide_False by done.
    assert (classMap naming1 ⊆ classMap naming2) as Hsub.
    { subst naming2.
      apply (processCssClasses_preserves (λ r, classMap naming1 ⊆ classMap r));
        [| done].
      intros r s Hr. etrans; [exact Hr | apply transformSelector_classMap_mono]. }
    assert (is_Some (classMap naming1 !! c)) as [g Hg].
    { destruct (foldl_generate_registers (all_classes pe)
                  (constructor (effective_prefix prefix))) as [_ Hall].
      rewrite <- preGenerateClassNames_foldl, <- H1 in Hall.
      rewrite Forall_forall in Hall. apply Hall.
      unfold HTMLParser.parse in Hparse.
      destruct (HTMLParser.parseElement 0 htmlCode) as [n' o] eqn:E.
      cbn [snd] in Hparse. subst o.
      destruct (parseElement_parsed_from _ _ _ _ E) as (_ & _ & Hrows).
      assert ((name, HTMLParser.parse_classes attribs)
              ∈ parsed_row <$> elements_of pe) as Hrow.
      { rewrite Hrows. apply list_elem_of_omap.
        by exists (HTMLParser.Element name attribs kids). }
      apply list_elem_of_fmap in Hrow as (e & He & Hin).
      unfold all_classes. apply list_elem_of_bind. exists e. split; [| done].
      unfold parsed_row in He. by injection He as _ <-. }
    exists g. by eapply lookup_weaken.
  - intros c g. rewrite getAllClassMappings_lookup. case_decide; [done |].
    intros Hg. rewrite <- Hprefix. by apply (reachable_prefixed naming2 Hreach c).
Qed.

Lemma convert_classMap_witness :
  let res :=
    mkResult
      (WebflowElementMapper.mkMapper
         [WebflowElementMapper.mkWebflowElement "webflow-el-0" (HTMLParser.Named "div")
            (Some "preset-div") ∅ [] None None]
         [("el-0", 0)])
      0 {[ "a" := "html2wf-a" ]} in
  (∀ name attribs childNodes c,
     HTMLParser.Element name attribs childNodes
     ∈ dom_elements (HTMLParser.Element "div" {[ "class" := "a" ]} []) →
     c ∈ HTMLParser.parse_classes attribs → c ≠ "__proto__" →
     is_Some (ConversionManager.classMap res !! c))
  ∧ ∀ c g, ConversionManager.classMap res !! c = Some g →
           starts_with (effective_prefix None) g.
Proof.
  apply (convert_classMap (HTMLParser.Element "div" {[ "class" := "a" ]} [])
           [] None).
  vm_compute. reflexivity.
Defined.

End conversion_further.

(** ** The styles of the created elements *)

Section style_resolution.
Import CSSParser HTMLParser ConversionManager WebflowElementMapper.

Lemma applyStylesToElements_eq (css : parsed) (m : mapper) :
  applyStylesToElements css m
  = match group_by_selector (styleRules css) ∅ with
    | None => None
    | Some stylesBySelector =>
        apply_each stylesBySelector (getAllWebflowElements m) m
    end.
Proof. reflexivity. Qed.

Lemma alter_as_insert {A : Type} (f : A → A) (l : list A) (i : nat) (x : A) :
  l !! i = Some x → alter f i l = <[i := f x]> l.
Proof.
  intros Hx. apply list_eq. intros j.
  rewrite list_lookup_alter, list_lookup_insert.
  pose proof (lookup_lt_Some _ _ _ Hx).
  destruct (decide (i = j)) as [<- | Hij].
  - rewrite Hx, decide_True by done. done.
  - by rewrite decide_False by (intros [? ?]; done).
Qed.

Lemma apply_each_cons (sbs : gmap string (list rule)) (a : nat)
    (refs : list nat) (m : mapper) :
  apply_each sbs (a :: refs) m
  = match objects m !! a with
    | None => None
    | Some element =>
        match styled sbs element with
        | None => None
        | Some w' =>
            apply_each sbs refs
              (mkMapper (<[a := w']> (objects m)) (createdElements m))
        end
    end.
Proof.
  assert (∀ l, foldl (λ acc ref,
                        match acc with
                        | None => None
                        | Some m1 =>
                            match objects m1 !! ref with
                            | None => None
                            | Some element =>
                                match ConversionManager.findMatchingRules
                                        element sbs with
                                | None => None
                                | Some [] => Some m1
                                | Some matching =>
                                    Some (applyStylesToElement ref matching m1)
                                end
                            end
                        end) None l = None) as Hnone.
  { intros l. by induction l. }
  unfold apply_each. cbn [foldl].
  destruct (objects m !! a) as [element|] eqn:E; [| apply Hnone].
  unfold styled.
  destruct (ConversionManager.findMatchingRules element sbs)
    as [[|x matching]|]; [| | apply Hnone].
  - rewrite list_insert_id by done. by destruct m.
  - unfold applyStylesToElement, applyStyles.
    by rewrite (alter_as_insert _ _ _ _ E).
Qed.

Lemma apply_each_lookup (sbs : gmap string (list rule)) (refs : list nat) :
  ∀ m m', NoDup refs → apply_each sbs refs m = Some m' →
    createdElements m' = createdElements m
    ∧ ∀ ref, if decide (ref ∈ refs)
             then ∃ w w', objects m !! ref = Some w ∧ styled sbs w = Some w'
                          ∧ objects m' !! ref = Some w'
             else objects m' !! ref = objects m !! ref.
Proof.
  induction refs as [|a refs IH]; intros m m'.
  - intros _ [= <-]. split; [done |]. intros ref.
    rewrite decide_False; [done | apply not_elem_of_nil].
  - rewrite NoDup_cons, apply_each_cons. intros [Ha Hnd].
    destruct (objects m !! a) as [element|] eqn:E; [| done].
    destruct (styled sbs element) as [w'|] eqn:Es; [| done].
    intros Hrest. destruct (IH _ _ Hnd Hrest) as [Hc Hl].
    cbn [objects createdElements] in *. split; [done |]. intros ref.
    specialize (Hl ref). pose proof (lookup_lt_Some _ _ _ E) as Hlen.
    destruct (decide (ref = a)) as [-> | Hne].
    + rewrite decide_True by (by left). rewrite decide_False in Hl by done.
      exists element, w'. rewrite Hl, list_lookup_insert_eq by done. done.
    + rewrite list_lookup_insert_ne in Hl by done.
      destruct (decide (ref ∈ refs)) as [Hin | Hout].
      * rewrite decide_True by (by right). done.
      * rewrite decide_False; [done |]. by intros [? | ?]%elem_of_cons.
Qed.

Lemma map_fold_object_set_empty (acc : gmap string string) :
  map_fold object_set acc ∅ = acc.
Proof. apply map_fold_empty. Qed.

Lemma lookup_group_groups (sbs : gmap string (list rule)) (rules : list rule)
    (k : string) (g : list rule) :
  group_by_selector rules ∅ = Some sbs → lookup_group k sbs = Some g →
  g = filter (λ r, selector r = k) rules.
Proof.
  intros Hgroup. unfold lookup_group.
  rewrite (group_by_selector_lookup rules ∅ sbs Hgroup k), lookup_empty.
  destruct (filter (λ r, selector r = k) rules) as [|x l].
  - destruct (inherited k); [done |]. by intros [= <-].
  - by intros [= <-].
Qed.

Lemma styled_by_type (sbs : gmap string (list rule)) (rules : list rule)
    (w w' : WebflowElement) :
  group_by_selector rules ∅ = Some sbs →
  WebflowElementMapper.classes w = None → styled sbs w = Some w' →
  ∃ ty, WebflowElementMapper.type w = Named ty
        ∧ WebflowElementMapper.styles w'
          = map_fold object_set (WebflowElementMapper.styles w)
              (mergedProperties (rules_for ty rules))
        ∧ WebflowElementMapper.id w' = WebflowElementMapper.id w
        ∧ WebflowElementMapper.type w' = WebflowElementMapper.type w
        ∧ WebflowElementMapper.classes w' = None.
Proof.
  intros Hgroup Hclasses. unfold styled, ConversionManager.findMatchingRules.
  rewrite Hclasses.
  destruct (WebflowElementMapper.type w) as [ty|] eqn:Hty; [| done].
  destruct (lookup_group (toLowerCase ty) sbs) as [g|] eqn:Hl; [| done].
  apply (lookup_group_groups sbs rules) in Hl; [| done]. subst g.
  rewrite app_nil_l. fold (rules_for ty rules).
  intros H. exists ty. split; [done |]. revert H.
  destruct (rules_for ty rules) as [|y matching]; intros [= <-]; [| done].
  unfold mergedProperties. cbn [foldl]. by rewrite map_fold_object_set_empty.
Qed.

Lemma applyStylesToElements_spec (css : parsed) (m m' : mapper)
    (ref : nat) (w : WebflowElement) :
  applyStylesToElements css m = Some m' →
  NoDup (getAllWebflowElements m) → ref ∈ getAllWebflowElements m →
  objects m !! ref = Some w → WebflowElementMapper.classes w = None →
  ∃ ty w',
    WebflowElementMapper.type w = Named ty
    ∧ objects m' !! ref = Some w'
    ∧ WebflowElementMapper.styles w'
      = map_fold object_set (WebflowElementMapper.styles w)
          (mergedProperties (rules_for ty (styleRules css)))
    ∧ WebflowElementMapper.id w' = WebflowElementMapper.id w
    ∧ WebflowElementMapper.type w' = WebflowElementMapper.type w
    ∧ WebflowElementMapper.classes w' = None.
Proof.
  rewrite applyStylesToElements_eq.
  destruct (group_by_selector (styleRules css) ∅) as [sbs|] eqn:Hgroup; [| done].
  intros Hcall Hnd Hin Hw Hclasses.
  destruct (apply_each_lookup sbs _ m m' Hnd Hcall) as [_ Hl].
  specialize (Hl ref). rewrite decide_True in Hl by done.
  destruct Hl as (w0 & w' & Hw0 & Hstyled & Hw').
  rewrite Hw in Hw0. injection Hw0 as <-.
  destruct (styled_by_type sbs _ w w' Hgroup Hclasses Hstyled) as (ty & ? & ?).
  by exists ty, w'.
Qed.

(** X29: [applyStylesToElements] gives an element that has no classes
    the declarations of the rules whose selector is the type of the
    element in small letters, merged in ascending order of specificity
    onto the styles it had, and of no other rule; its id, its type and
    its classes stay. *)
Theorem applyStylesToElements_by_type (css : parsed) (m m' : mapper)
    (ref : nat) (w : WebflowElement) :
  applyStylesToElements css m = Some m' →
  NoDup (getAllWebflowElements m) → ref ∈ getAllWebflowElements m →
  objects m !! ref = Some w → WebflowElementMapper.classes w = None →
  ∃ ty w',
    WebflowElementMapper.type w = Named ty
    ∧ objects m' !! ref = Some w'
    ∧ WebflowElementMapper.styles w'
      = map_fold object_set (WebflowElementMapper.styles w)
          (mergedProperties (rules_for ty (styleRules css)))
    ∧ WebflowElementMapper.id w' = WebflowElementMapper.id w
    ∧ WebflowElementMapper.type w' = WebflowElementMapper.type w
    ∧ WebflowElementMapper.classes w' = None.
Proof. apply applyStylesToElements_spec. Qed.

Lemma applyStylesToElements_by_type_witness :
  let css :=
    mkParsed [ mkRule ".text" 11 {[ "color" := "blue" ]} "" None;
               mkRule "paragraph" 1 {[ "top" := "0" ]} "" None ] [] in
  let w := mkWebflowElement "webflow-el-0" (Named "paragraph")
             (Some "preset-paragraph") ∅ [] None None in
  let m := mkMapper [w] [("el-0", 0)] in
  ∃ ty w',
    WebflowElementMapper.type w = Named ty
    ∧ objects (mkMapper
                 [mkWebflowElement "webflow-el-0" (Named "paragraph")
                    (Some "preset-paragraph") {[ "top" := "0" ]} [] None None]
                 [("el-0", 0)]) !! 0 = Some w'
    ∧ WebflowElementMapper.styles w'
      = map_fold object_set (WebflowElementMapper.styles w)
          (mergedProperties (rules_for ty (styleRules css)))
    ∧ WebflowElementMapper.id w' = WebflowElementMapper.id w
    ∧ WebflowElementMapper.type w' = WebflowElementMapper.type w
    ∧ WebflowElementMapper.classes w' = None.
Proof.
  apply (applyStylesToElements_by_type
           (mkParsed [ mkRule ".text" 11 {[ "color" := "blue" ]} "" None;
                       mkRule "paragraph" 1 {[ "top" := "0" ]} "" None ] [])
           (mkMapper
              [mkWebflowElement "webflow-el-0" (Named "paragraph")
                 (Some "preset-paragraph") ∅ [] None None]
              [("el-0", 0)])).
  - vm_compute. reflexivity.
  - vm_compute. repeat constructor. apply not_elem_of_nil.
  - vm_compute. by left.
  - reflexivity.
  - reflexivity.
Defined.

Lemma mapToWebflow_Some_presets (pe : ParsedElement) (this : mapper)
    (x : mapper * nat) :
  mapToWebflow pe this = Some x → Forall has_preset (elements_of pe).
Proof.
  intros H.
  assert (∀ e, {has_preset e} + {find_preset (HTMLParser.type e) = None}) as dec.
  { intros e. unfold has_preset.
    destruct (find_preset (HTMLParser.type e)); [left; by eexists | by right]. }
  destruct (Forall_Exists_dec _ _ dec (elements_of pe)) as [Hall | Hex]; [done |].
  unfold mapToWebflow in H. by rewrite mapElement_no_preset in H.
Qed.

Lemma convert_elements (htmlCode : dom) (cssCode : list node)
    (prefix : option string) (res : result) (pe : ParsedElement) :
  convert htmlCode cssCode prefix = Some res →
  HTMLParser.parse htmlCode = Some pe →
  ∃ m root,
    mapToWebflow pe (mkMapper [] []) = Some (m, root)
    ∧ applyStylesToElements (processed_css pe cssCode prefix) m
      = Some (elements res).
Proof.
  unfold convert, processed_css. intros H Hpe. rewrite Hpe in H. revert H.
  replace (match prefix with
           | Some p => if truthy p then ClassNamingSystem.constructor p
                       else ClassNamingSystem.constructor
                              ClassNamingSystem.default_prefix
           | None => ClassNamingSystem.constructor
                       ClassNamingSystem.default_prefix
           end) with (ClassNamingSystem.constructor (effective_prefix prefix))
    by (destruct prefix as [p|]; [cbn; by destruct (truthy p) | done]).
  destruct (processCssClasses _ (CSSParser.parse cssCode)) as [naming2 css].
  destruct (mapToWebflow pe _) as [[m root]|] eqn:Em; [| done].
  destruct (applyStylesToElements css m) as [m1|] eqn:Ea; [| done].
  intros [= <-]. by exists m, root.
Qed.

(** X30: in what [convert] returns, the object of each element of the
    markup has the id of the element after [webflow-], no classes, and
    for styles the declarations of the rules whose rewritten selector is
    the type of the element in small letters, merged in ascending order
    of specificity; no rule for a class and no rule for the tag name of
    the element reaches it unless its selector is that type. *)
Theorem convert_styles_by_type (htmlCode : dom) (cssCode : list node)
    (prefix : option string) (res : result) (pe : ParsedElement)
    (i : nat) (e : ParsedElement) :
  convert htmlCode cssCode prefix = Some res →
  HTMLParser.parse htmlCode = Some pe →
  elements_of pe !! i = Some e →
  ∃ ty w,
    HTMLParser.type e = Named ty
    ∧ objects (elements res) !! i = Some w
    ∧ WebflowElementMapper.id w = "webflow-" +:+ HTMLParser.id e
    ∧ WebflowElementMapper.classes w = None
    ∧ WebflowElementMapper.styles w
      = map_fold object_set ∅
          (mergedProperties
             (rules_for ty (styleRules (processed_css pe cssCode prefix)))).
Proof.
  intros Hconvert Hpe He.
  destruct (convert_elements _ _ _ _ _ Hconvert Hpe) as (m & root & Hmap & Happly).
  pose proof (mapToWebflow_Some_presets _ _ _ Hmap) as Hpresets.
  assert (NoDup (HTMLParser.id <$> elements_of pe)) as Hnd.
  { unfold HTMLParser.parse in Hpe.
    destruct (parseElement 0 htmlCode) as [n' o] eqn:E. cbn [snd] in Hpe.
    subst o. eapply parsed_from_NoDup. by eapply parseElement_parsed_from. }
  destruct (mapToWebflow_spec pe (mkMapper [] []) Hpresets Hnd)
    as (m0 & Hmap0 & Hcore & Hcreated).
  rewrite Hmap in Hmap0. injection Hmap0 as <- _.
  cbn [objects fmap list_fmap app length] in Hcore, Hcreated.
  pose proof (lookup_lt_Some _ _ _ He) as Hi.
  assert (getAllWebflowElements m = seq 0 (length (elements_of pe))) as Hrefs.
  { unfold getAllWebflowElements. rewrite Hcreated.
    apply snd_zip. by rewrite length_fmap, length_seq. }
  assert (core <$> objects m !! i = Some (created e)) as Hw.
  { by rewrite <- list_lookup_fmap, Hcore, list_lookup_fmap, He. }
  destruct (objects m !! i) as [w0|] eqn:Ew0; [| done].
  cbn [fmap option_fmap option_map] in Hw. apply (inj Some) in Hw.
  unfold core, created in Hw. injection Hw as Hid Hty Hst Hcl.
  destruct (applyStylesToElements_spec _ m (elements res) i w0 Happly)
    as (ty & w & Hty' & Hw' & Hstyles & Hid' & _ & Hcl'); try done.
  { rewrite Hrefs. apply NoDup_seq. }
  { rewrite Hrefs. apply elem_of_seq. lia. }
  exists ty, w. rewrite <- Hty, Hty', Hw', Hid', Hid, Hcl', Hstyles, Hst. done.
Qed.

Lemma convert_styles_by_type_witness :
  let res :=
    mkResult
      (mkMapper
         [ mkWebflowElement "webflow-el-0" (Named "div") (Some "preset-div")
             {[ "top" := "0" ]} [] None None ]
         [("el-0", 0)])
      0 {[ "a" := "html2wf-a" ]} in
  let pe := mkParsedElement "el-0" "div" (Named "div") ["a"] [] in
  let cssCode :=
    [ Rule ".a" "" [Decl "color" "red"]; Rule "div" "" [Decl "top" "0"] ] in
  ∃ ty w,
    HTMLParser.type pe = Named ty
    ∧ objects (elements res) !! 0 = Some w
    ∧ WebflowElementMapper.id w = "webflow-" +:+ HTMLParser.id pe
    ∧ WebflowElementMapper.classes w = None
    ∧ WebflowElementMapper.styles w
      = map_fold object_set ∅
          (mergedProperties
             (rules_for ty (styleRules (processed_css pe cssCode None)))).
Proof.
  apply (convert_styles_by_type (Element "div" {[ "class" := "a" ]} [])
           [ Rule ".a" "" [Decl "color" "red"]; Rule "div" "" [Decl "top" "0"] ]
           None).
  - vm_compute. reflexivity.
  - vm_compute. reflexivity.
  - reflexivity.
Defined.

End style_resolution.
